(** * Combining converted echosounder records: a model of
      [echopype/echodata/combine.py] and its properties.

    The development follows the Python module function by function:
    [union_attrs], [assemble_combined_provenance] and [combine_echodata] are
    embedded from the source; the [xarray] container, the time-reversal
    helpers of [echopype.qc] and the static tables of [echopype.core] are
    not part of the module and are modelled at their interface. *)

From stdpp Require Import gmap strings list fin_maps.
From Stdlib Require Import ZArith.

Local Open Scope string_scope.
Local Open Scope Z_scope.

(** ** Exceptions *)

Inductive exn :=
  | ValueError (msg : string)
  | MergeError (msg : string)
  | KeyError (key : string)
  | TypeError (msg : string)
  | IndexError (msg : string)
  | AttributeError (msg : string).

#[global] Instance exn_eq_dec : EqDecision exn.
Proof. solve_decision. Defined.

(** A computation that either raises or returns. *)
Definition res (A : Type) : Type := exn + A.

Definition res_bind {A B} (m : res A) (k : A -> res B) : res B :=
  match m with
  | inl e => inl e
  | inr a => k a
  end.

(** ** Attribute mappings *)

(** Attribute values: the scalars that occur in global attrs. *)
Inductive AttrVal :=
  | AInt (z : Z)
  | AStr (s : string).

#[global] Instance AttrVal_eq_dec : EqDecision AttrVal.
Proof. solve_decision. Defined.

(** A Python [dict] of attrs; [dict.update] is a right-biased union. *)
Abbreviation Attrs := (gmap string AttrVal).

Definition dict_update {V} (self other : gmap string V) : gmap string V :=
  other ∪ self.

(** ** Labelled arrays (stand-in for [xarray]) *)

(** One array element: a timestamp in integer time units, a string
    (or [None], as an origin path may be), or an attrs mapping. *)
Inductive Cell :=
  | CTime (t : Z)
  | CStr (s : option string)
  | CAttrs (m : Attrs).

(** A one-dimensional [DataArray]: the name of its dimension ([None] for
    an array without one) and its values.  The coordinate of a dimension
    is the array stored under the name of the dimension. *)
Record DataArray := mkDataArray {
  da_dim : option string;
  da_values : list Cell
}.

(** A [Dataset]: dimension sizes, named variables (coordinates
    included) and global attrs. *)
Record Dataset := mkDataset {
  ds_dims : gmap string nat;
  ds_vars : gmap string DataArray;
  ds_attrs : Attrs
}.

(** [name in ds] *)
Definition ds_contains (ds : Dataset) (name : string) : bool :=
  bool_decide (is_Some (ds_vars ds !! name)).

(** [ds[name]] *)
Definition ds_getitem (ds : Dataset) (name : string) : res DataArray :=
  match ds_vars ds !! name with
  | Some da => inr da
  | None => inl (KeyError name)
  end.

(** A variable other than [name] is over dimension [d]; one of them
    has a length other than [n]. *)
Definition dim_in_use (vars : gmap string DataArray) (name d : string) : Prop :=
  map_Exists (λ k v, k ≠ name ∧ da_dim v = Some d) vars.

Definition size_conflict (vars : gmap string DataArray) (name d : string) (n : nat) : Prop :=
  map_Exists (λ k v, k ≠ name ∧ da_dim v = Some d ∧ length (da_values v) ≠ n) vars.

(** The dimension sizes once the variable under [name] is taken out:
    its dimension goes with it unless another variable is over it. *)
Definition dims_without (ds : Dataset) (name : string) : gmap string nat :=
  match ds_vars ds !! name ≫= da_dim with
  | Some d0 =>
      if bool_decide (dim_in_use (ds_vars ds) name d0) then ds_dims ds
      else delete d0 (ds_dims ds)
  | None => ds_dims ds
  end.

(** [ds[name] = da], for an array that brings no coordinate of another
    name with it (it was read from [ds], or under [name]).  The array
    replaces the variable under [name], also when that is the coordinate
    of a dimension; the sizes are those of the variables, and two
    variables over one dimension with different lengths are a conflict. *)
Definition ds_setitem (ds : Dataset) (name : string) (da : DataArray) : res Dataset :=
  match da_dim da with
  | None => inr (mkDataset (dims_without ds name) (<[name := da]> (ds_vars ds)) (ds_attrs ds))
  | Some d =>
      if bool_decide (size_conflict (ds_vars ds) name d (length (da_values da)))
      then inl (ValueError "conflicting sizes for dimension")
      else inr (mkDataset (<[d := length (da_values da)]> (dims_without ds name))
                          (<[name := da]> (ds_vars ds)) (ds_attrs ds))
  end.

(** [ds[name] = da] for the array that was read as [src[source]].  When
    the array is the coordinate of its own dimension (it is over the
    dimension [source]) it carries itself as a coordinate, and the
    assignment brings that coordinate into [ds]. *)
Definition ds_setitem_array (ds : Dataset) (name source : string) (da : DataArray)
  : res Dataset :=
  res_bind (ds_setitem ds name da) (λ ds',
    if bool_decide (da_dim da = Some source ∧ name ≠ source)
    then ds_setitem ds' source da
    else inr ds').

(** [ds.attrs.update(other)] *)
Definition ds_attrs_update (ds : Dataset) (other : Attrs) : Dataset :=
  mkDataset (ds_dims ds) (ds_vars ds) (dict_update (ds_attrs ds) other).

(** [ds.drop_dims(d, errors="ignore")]: the dimension and every variable
    over it are removed; nothing happens when the dimension is absent. *)
Definition drop_dims (ds : Dataset) (d : string) : Dataset :=
  mkDataset (delete d (ds_dims ds))
            (filter (λ kv, da_dim kv.2 ≠ Some d) (ds_vars ds))
            (ds_attrs ds).

(** [da.astype("<Un")]: strings are cut to at most [n] characters. *)
Definition astype_U (n : nat) (da : DataArray) : DataArray :=
  mkDataArray (da_dim da)
    (map (λ c, match c with
               | CStr (Some s) => CStr (Some (String.substring 0 n s))
               | _ => c
               end) (da_values da)).

(** [ds.assign({name: values, ...})] with bare lists as values: each
    list becomes a variable over a dimension named after the variable. *)
Definition ds_assign (ds : Dataset) (items : list (string * list Cell)) : res Dataset :=
  foldl (λ acc kv, res_bind acc (λ ds', ds_setitem ds' kv.1 (mkDataArray (Some kv.1) kv.2)))
        (inr ds) items.

(** *** Attribute policies of [xarray.combine_nested]

    As documented in the docstring of [combine_echodata]: "override"
    copies the attrs of the first object, "drop" gives empty attrs,
    "identical" requires all attrs to be the same, "no_conflicts" combines
    all attrs and requires equal names to have equal values.  Any other
    value is unrecognised. *)

Definition attrs_compatible (a b : Attrs) : bool :=
  bool_decide (map_Forall (λ k v, a !! k = None ∨ a !! k = Some v) b).

Fixpoint merge_no_conflicts (acc : Attrs) (l : list Attrs) : res Attrs :=
  match l with
  | [] => inr acc
  | a :: rest =>
      if attrs_compatible acc a
      then merge_no_conflicts (dict_update acc a) rest
      else inl (MergeError "combine_attrs='no_conflicts', but some values are not the same")
  end.

Definition merge_attrs (variable_attrs : list Attrs) (combine_attrs : string) : res Attrs :=
  match variable_attrs with
  | [] => inr ∅
  | first :: rest =>
      if bool_decide (combine_attrs = "drop") then inr ∅
      else if bool_decide (combine_attrs = "override") then inr first
      else if bool_decide (combine_attrs = "no_conflicts") then merge_no_conflicts first rest
      else if bool_decide (combine_attrs = "identical") then
        if forallb (λ a, bool_decide (a = first)) rest
        then inr first
        else inl (MergeError "combine_attrs='identical', but attrs differ")
      else inl (ValueError "Unrecognised value for combine_attrs")
  end.

(** *** Concatenation along one dimension *)

(** Size a dataset contributes along [d] (a dataset without the
    dimension counts as one slice). *)
Definition size_along (d : string) (ds : Dataset) : nat :=
  default 1%nat (ds_dims ds !! d).

(** Values of variable [name] over dimension [d], dataset after dataset,
    from the datasets that hold it over [d]. *)
Definition concat_values (d name : string) (datasets : list Dataset) : list Cell :=
  flat_map (λ ds, match ds_vars ds !! name with
                  | Some da => if bool_decide (da_dim da = Some d) then da_values da else []
                  | None => []
                  end) datasets.

(** Variables of the concatenation: a variable over [d] holds the values
    of all datasets in order; a variable over another dimension is not
    concatenated and is the one of the first dataset that has it, which
    is the outcome for datasets that agree on these variables. *)
Definition concat_vars (d : string) (datasets : list Dataset) : gmap string DataArray :=
  map_imap (λ name da,
              if bool_decide (da_dim da = Some d)
              then Some (mkDataArray (Some d) (concat_values d name datasets))
              else Some da)
           (union_list (ds_vars <$> datasets)).

(** Sizes of the concatenation: the sizes along [d] add up when some
    variable is over [d]; when none is, the outcome has no such
    dimension. *)
Definition concat_sizes (d : string) (datasets : list Dataset) : gmap string nat :=
  if bool_decide (map_Exists (λ _ da, da_dim da = Some d) (concat_vars d datasets))
  then <[d := sum_list (size_along d <$> datasets)]> (union_list (ds_dims <$> datasets))
  else delete d (union_list (ds_dims <$> datasets)).

(** [xr.combine_nested(datasets, [concat_dim], data_vars=..., coords="minimal",
    combine_attrs=...)].  The variable-inclusion mode is checked.  The
    arrays of this model are one-dimensional: a variable over the
    concatenation dimension is concatenated under every mode, and a
    variable over another dimension is kept as it is, which is the outcome
    under "minimal", and under "different" for datasets that agree on it. *)
Definition xr_combine_nested (datasets : list Dataset) (concat_dim data_vars combine_attrs : string)
  : res Dataset :=
  if bool_decide (data_vars ∈ ["minimal"; "different"; "all"]) then
    res_bind (merge_attrs (ds_attrs <$> datasets) combine_attrs) (λ attrs,
      inr (mkDataset (concat_sizes concat_dim datasets)
                     (concat_vars concat_dim datasets)
                     attrs))
  else inl (ValueError "unexpected value for data_vars").

(** ** TimeReversalCorrector *)

(** Modelled from the spec: [exist_reversed_time] and
    [coerce_increasing_time] of [echopype.qc] are imported by the module
    but their source is missing.  Detection is true iff some element is
    less than or equal to its predecessor. *)
Fixpoint detect_from (prev : Z) (l : list Z) : bool :=
  match l with
  | [] => false
  | x :: rest => (x <=? prev) || detect_from x rest
  end.

Definition detect (sequence : list Z) : bool :=
  match sequence with
  | [] => false
  | x :: rest => detect_from x rest
  end.

(** Modelled from the spec: the repair of [coerce_increasing_time], whose
    source is missing.  One left-to-right pass with a running offset,
    initially zero; at a reversal the offset is raised so that the
    corrected value is exactly one time increment above the previous
    corrected value; the current offset is applied to the element and to
    those after it. *)
Fixpoint correct_from (prev_corrected offset : Z) (l : list Z) : list Z :=
  match l with
  | [] => []
  | x :: rest =>
      let offset' :=
        if x + offset <=? prev_corrected
        then prev_corrected - x + 1
        else offset in
      (x + offset') :: correct_from (x + offset') offset' rest
  end.

Definition correct (sequence : list Z) : list Z :=
  match sequence with
  | [] => []
  | x :: rest => x :: correct_from x 0 rest
  end.

(** The timestamps of an array, when all its elements are timestamps. *)
Definition times_of (cells : list Cell) : option (list Z) :=
  mapM (λ c, match c with CTime t => Some t | _ => None end) cells.

(** Modelled from the spec: [exist_reversed_time(ds, time_name)] of
    [echopype.qc], the detector run on the named coordinate; an array
    that does not hold timestamps cannot be compared. *)
Definition exist_reversed_time (ds : Dataset) (time_name : string) : res bool :=
  res_bind (ds_getitem ds time_name) (λ da,
    match times_of (da_values da) with
    | Some ts => inr (detect ts)
    | None => inl (TypeError "time coordinate is not a datetime array")
    end).

(** The dataset with its [ping_time] values replaced, and the array of
    the repaired values of a coordinate. *)
Definition with_ping_time (ds : Dataset) (da : DataArray) : Dataset :=
  mkDataset (ds_dims ds) (<["ping_time" := da]> (ds_vars ds)) (ds_attrs ds).

Definition corrected (da : DataArray) (ts : list Z) : DataArray :=
  mkDataArray (da_dim da) (CTime <$> correct ts).

(** Modelled from the spec: [coerce_increasing_time(ds)] of
    [echopype.qc]; the [ping_time] values of [ds] are replaced by their
    repair. *)
Definition coerce_increasing_time (ds : Dataset) : res Dataset :=
  res_bind (ds_getitem ds "ping_time") (λ da,
    match times_of (da_values da) with
    | Some ts => inr (with_ping_time ds (corrected da ts))
    | None => inl (TypeError "time coordinate is not a datetime array")
    end).

(** Strictly increasing sequences. *)
Fixpoint increasing_from (prev : Z) (l : list Z) : Prop :=
  match l with
  | [] => True
  | x :: rest => prev < x ∧ increasing_from x rest
  end.

Definition strictly_increasing (l : list Z) : Prop :=
  match l with
  | [] => True
  | x :: rest => increasing_from x rest
  end.

(** ** AttributeMerger: [union_attrs] *)

Definition union_attrs (datasets : list Dataset) : Attrs :=
  foldl (λ total_attrs ds, dict_update total_attrs (ds_attrs ds)) ∅ datasets.

(** ** Records *)

(** Modelled from the spec: the [EchoData] class of
    [echopype.echodata.echodata], whose source is missing.  An object has
    the model tag, the two origin paths and the groups ([None] for an
    absent group). *)
Record EchoData := mkEchoData {
  sonar_model : option string;
  source_file : option string;
  converted_raw_path : option string;
  groups : gmap string Dataset
}.

(** Modelled from the spec: [EchoData()], the record with every group
    absent. *)
Definition EchoData_new : EchoData := mkEchoData None None None ∅.

Definition getattr (echodata : EchoData) (group : string) : option Dataset :=
  groups echodata !! group.

Definition setattr (echodata : EchoData) (group : string) (value : option Dataset) : EchoData :=
  mkEchoData (sonar_model echodata) (source_file echodata) (converted_raw_path echodata)
    (match value with
     | Some ds => <[group := ds]> (groups echodata)
     | None => delete group (groups echodata)
     end).

(** [[getattr(echodata, group) for echodata in echodatas
      if getattr(echodata, group) is not None]] *)
Definition present_datasets (echodatas : list EchoData) (group : string) : list Dataset :=
  omap (λ echodata, getattr echodata group) echodatas.

(** Concatenation settings of one sonar model, each table with its
    "default" entry. *)
Record ModelConfig := mkModelConfig {
  concat_dims : gmap string string;
  concat_dims_default : string;
  concat_data_vars : gmap string string;
  concat_data_vars_default : string
}.

(** [combine_attrs="drop" if combine_attrs == "overwrite_conflicts" else combine_attrs] *)
Definition policy_passed (combine_attrs : string) : string :=
  if bool_decide (combine_attrs = "overwrite_conflicts") then "drop" else combine_attrs.

(** [table.get(group, table["default"])] for the two tables of a model. *)
Definition concat_dim_of (config : ModelConfig) (group : string) : string :=
  default (concat_dims_default config) (concat_dims config !! group).

Definition data_vars_of (config : ModelConfig) (group : string) : string :=
  default (concat_data_vars_default config) (concat_data_vars config !! group).

(** ** Call-scoped state of [combine_echodata] *)

Record Frame := mkFrame {
  old_ping_time : option DataArray;
  new_ping_time : option DataArray;
  old_attrs : list (string * list Attrs);
  result : EchoData;
  warnings : list string
}.

Definition initial_frame : Frame := mkFrame None None [] EchoData_new [].

(** Computations over the frame that may raise; the frame reached when
    an exception is raised is kept. *)
Definition M (A : Type) : Type := Frame -> Frame * res A.

#[global] Instance M_ret : MRet M := λ A a fr, (fr, inr a).

#[global] Instance M_bind : MBind M := λ A B k m fr,
  match m fr with
  | (fr', inl e) => (fr', inl e)
  | (fr', inr a) => k a fr'
  end.

Definition lift {A} (r : res A) : M A := λ fr, (fr, r).

Definition gets {A} (f : Frame -> A) : M A := λ fr, (fr, inr (f fr)).

Definition modify (f : Frame -> Frame) : M unit := λ fr, (f fr, inr tt).

(** [warnings.warn(msg)] *)
Definition warn (msg : string) : M unit :=
  modify (λ fr, mkFrame (old_ping_time fr) (new_ping_time fr) (old_attrs fr) (result fr)
                        (warnings fr ++ [msg])).

(** [setattr(result, group, value)] *)
Definition set_result (group : string) (value : option Dataset) : M unit :=
  modify (λ fr, mkFrame (old_ping_time fr) (new_ping_time fr) (old_attrs fr)
                        (setattr (result fr) group value) (warnings fr)).

(** [old_ping_time = ...] and [new_ping_time = ...] *)
Definition set_old_ping_time (old : option DataArray) : M unit :=
  modify (λ fr, mkFrame old (new_ping_time fr) (old_attrs fr) (result fr) (warnings fr)).

Definition set_new_ping_time (new : option DataArray) : M unit :=
  modify (λ fr, mkFrame (old_ping_time fr) new (old_attrs fr) (result fr) (warnings fr)).

(** [d[k] = v] on an insertion-ordered dict. *)
Fixpoint dict_set {V} (k : string) (v : V) (d : list (string * V)) : list (string * V) :=
  match d with
  | [] => [(k, v)]
  | (k', v') :: rest =>
      if bool_decide (k = k') then (k, v) :: rest else (k', v') :: dict_set k v rest
  end.

Definition set_old_attrs (group : string) (attrs : list Attrs) : M unit :=
  modify (λ fr, mkFrame (old_ping_time fr) (new_ping_time fr)
                        (dict_set group attrs (old_attrs fr)) (result fr) (warnings fr)).

(** [for x in xs: body(x)] *)
Fixpoint for_each {A} (xs : list A) (body : A -> M unit) : M unit :=
  match xs with
  | [] => mret tt
  | x :: rest => _ ← body x; for_each rest body
  end.

Definition reversal_warning : string :=
  "EK60 ping_time reversal detected; the ping times will be corrected (see https://github.com/OSOceanAcoustics/echopype/pull/297)".

Definition none_model_message : string :=
  "all EchoData objects must have non-None sonar_model values".

Definition different_model_message : string :=
  "all EchoData objects must have the same sonar_model value".

(** ** ProvenanceAssembler and EchodataCombiner *)

Section Combine.

(** Modelled from the spec: [EchoData.group_map], the fixed, ordered
    group names, whose source is missing. *)
Variable group_map : list string.

(** Modelled from the spec: [SONAR_MODELS] of [echopype.core], whose
    source is missing; per model, the concatenation dimension and the
    variable-inclusion mode of each group, with a "default" entry. *)
Variable SONAR_MODELS : string -> ModelConfig.

(** [ECHOPYPE_VERSION] and the value of
    [datetime.utcnow().isoformat(timespec="seconds")] at the call. *)
Variable ECHOPYPE_VERSION : string.
Variable utcnow_isoformat : string.

Definition assemble_combined_provenance (input_paths : list (option string)) : Dataset :=
  mkDataset
    {[ "file" := length input_paths ]}
    {[ "src_filenames" := mkDataArray (Some "file") (CStr <$> input_paths) ]}
    (<["conversion_software_name" := AStr "echopype"]>
       (<["conversion_software_version" := AStr ECHOPYPE_VERSION]>
          {[ "conversion_time" := AStr (utcnow_isoformat +:+ "Z") ]})).

(** The loop over [echodatas] that checks the model tags. *)
Fixpoint check_sonar_models (model : option string) (echodatas : list EchoData)
  : res (option string) :=
  match echodatas with
  | [] => inr model
  | echodata :: rest =>
      match sonar_model echodata with
      | None => inl (ValueError none_model_message)
      | Some m =>
          match model with
          | None => check_sonar_models (Some m) rest
          | Some m0 =>
              if bool_decide (m ≠ m0)
              then inl (ValueError different_model_message)
              else check_sonar_models model rest
          end
      end
  end.

(** The path a record was made from. *)
Definition origin (echodata : EchoData) : option string :=
  match source_file echodata with
  | Some p => Some p
  | None => converted_raw_path echodata
  end.

(** [SONAR_MODELS[sonar_model]] *)
Definition model_config (model : option string) : res ModelConfig :=
  match model with
  | Some m => inr (SONAR_MODELS m)
  | None => inl (KeyError "None")
  end.

(** [ds[name] = ds[name].astype("<Un")] *)
Definition astype_var (ds : Dataset) (name : string) (n : nat) : res Dataset :=
  res_bind (ds_getitem ds name) (λ da, ds_setitem ds name (astype_U n da)).

(** Fixed-width strings of the beam group, EK80 and EK60. *)
Definition normalize_beam (model : option string) (group : string) (combined_group : Dataset)
  : res Dataset :=
  if bool_decide (group = "beam") then
    if bool_decide (model = Some "EK80") then
      res_bind (astype_var combined_group "transceiver_software_version" 10) (λ cg,
        astype_var cg "channel_id" 50)
    else if bool_decide (model = Some "EK60") then
      res_bind (astype_var combined_group "gpt_software_version" 10) (λ cg,
        astype_var cg "channel_id" 50)
    else inr combined_group
  else inr combined_group.

(** The [ping_time] step of one group. *)
Definition fix_ping_time (combined_group : Dataset) : M Dataset :=
  if ds_contains combined_group "ping_time" then
    reversed ← lift (exist_reversed_time combined_group "ping_time");
    if reversed : bool then
      old ← gets old_ping_time;
      match old with
      | None =>
          _ ← warn reversal_warning;
          old' ← lift (ds_getitem combined_group "ping_time");
          _ ← set_old_ping_time (Some old');
          cg ← lift (coerce_increasing_time combined_group);
          new' ← lift (ds_getitem cg "ping_time");
          _ ← set_new_ping_time (Some new');
          mret cg
      | Some _ =>
          new ← gets new_ping_time;
          match new with
          | Some da => lift (ds_setitem combined_group "ping_time" da)
          | None => lift (inl (TypeError "cannot assign None to a variable"))
          end
      end
    else mret combined_group
  else mret combined_group.

(** The end of the loop body: the synthetic dimension is dropped and
    the group is stored. *)
Definition store_group (group : string) (combined_group : option Dataset) : M unit :=
  set_result group ((λ cg, drop_dims cg "concat_dim") <$> combined_group).

(** The body of the loop over [EchoData.group_map]. *)
Definition combine_group (echodatas : list EchoData) (model : option string)
    (combine_attrs : string) (group : string) : M unit :=
  if bool_decide (group ∈ ["top"; "sonar"]) then
    match echodatas with
    | first :: _ => store_group group (getattr first group)
    | [] => lift (inl (IndexError "list index out of range"))
    end
  else if bool_decide (group = "provenance") then
    store_group group (Some (assemble_combined_provenance (origin <$> echodatas)))
  else
    let group_datasets := present_datasets echodatas group in
    if bool_decide (length group_datasets = 0%nat) then set_result group None
    else
      config ← lift (model_config model);
      let concat_dim := concat_dim_of config group in
      let concat_data_vars := data_vars_of config group in
      combined_group ← lift (xr_combine_nested group_datasets concat_dim concat_data_vars
                               (policy_passed combine_attrs));
      let combined_group :=
        if bool_decide (combine_attrs = "overwrite_conflicts")
        then ds_attrs_update combined_group (union_attrs group_datasets)
        else combined_group in
      _ ← (if bool_decide (1 < length group_datasets)%nat
           then set_old_attrs group (ds_attrs <$> group_datasets)
           else mret tt);
      combined_group ← lift (normalize_beam model group combined_group);
      combined_group ← fix_ping_time combined_group;
      store_group group (Some combined_group).

(** [result.provenance["old_ping_time"] = old_ping_time], where
    [old_ping_time] is the array read as [combined_group["ping_time"]]. *)
Definition save_old_ping_time : M unit :=
  old ← gets old_ping_time;
  match old with
  | None => mret tt
  | Some da =>
      res ← gets result;
      match getattr res "provenance" with
      | None => lift (inl (TypeError "'NoneType' object does not support item assignment"))
      | Some prov =>
          prov' ← lift (ds_setitem_array prov "old_ping_time" "ping_time" da);
          set_result "provenance" (Some prov')
      end
  end.

(** [{f"{group}_attrs": group_attrs for group, group_attrs in old_attrs.items()}] *)
Definition attrs_items (d : list (string * list Attrs)) : list (string * list Cell) :=
  map (λ kv : string * list Attrs, (kv.1 +:+ "_attrs", map CAttrs kv.2)) d.

(** The loop over [old_attrs] that assigns the snapshots. *)
Definition save_old_attrs : M unit :=
  d ← gets old_attrs;
  for_each d.*1 (λ _,
    res ← gets result;
    match getattr res "provenance" with
    | None => lift (inl (AttributeError "'NoneType' object has no attribute 'assign'"))
    | Some prov =>
        prov' ← lift (ds_assign prov (attrs_items d));
        set_result "provenance" (Some prov')
    end).

(** [combine_echodata(echodatas, combine_attrs="override")]; [None]
    for [combine_attrs] is a call without the argument. *)
Definition combine_body (echodatas : list EchoData) (combine_attrs : option string)
  : M EchoData :=
  let combine_attrs := default "override" combine_attrs in
  if bool_decide (length echodatas = 0%nat) then gets result
  else
    model ← lift (check_sonar_models None echodatas);
    _ ← for_each group_map (combine_group echodatas model combine_attrs);
    _ ← save_old_ping_time;
    _ ← save_old_attrs;
    gets result.

Definition combine_echodata (echodatas : list EchoData) (combine_attrs : option string)
  : Frame * res EchoData :=
  combine_body echodatas combine_attrs initial_frame.

End Combine.

(** ** Notions used in the statements *)

(** Groups that are not concatenated: "top" and "sonar" are copied from
    the first record, "provenance" is built anew. *)
Definition copied_group (group : string) : Prop := group ∈ ["top"; "sonar"].

Definition special_group (group : string) : Prop :=
  group ∈ ["top"; "sonar"; "provenance"].

(** The five values of the attrs policy. *)
Definition known_policy (combine_attrs : string) : Prop :=
  combine_attrs ∈ ["override"; "drop"; "identical"; "no_conflicts"; "overwrite_conflicts"].

(** The two errors raised by the check of the model tags. *)
Definition is_validation_error (e : exn) : Prop :=
  e = ValueError none_model_message ∨ e = ValueError different_model_message.

(** Exceptions of a computation all satisfy [Q]. *)
Definition raises_only {A} (Q : exn -> Prop) (m : M A) : Prop :=
  ∀ fr fr' e, m fr = (fr', inl e) → Q e.

(** An exception other than the validation errors, and one that is not
    an attribute conflict either. *)
Definition library_error (e : exn) : Prop := ¬ is_validation_error e.

Definition plain_error (e : exn) : Prop :=
  ¬ is_validation_error e ∧ ∀ msg, e ≠ MergeError msg.

(** Some record has no model tag, or two records have different tags. *)
Definition inconsistent_models (echodatas : list EchoData) : Prop :=
  (∃ ed, ed ∈ echodatas ∧ sonar_model ed = None) ∨
  (∃ ed1 ed2, ed1 ∈ echodatas ∧ ed2 ∈ echodatas ∧ sonar_model ed1 ≠ sonar_model ed2).

(** The record at position [i] has no model tag, or its tag differs from
    the tag of a record before it. *)
Definition offending (echodatas : list EchoData) (i : nat) : Prop :=
  ∃ ed, echodatas !! i = Some ed ∧
        (sonar_model ed = None ∨
         ∃ j ed', (j < i)%nat ∧ echodatas !! j = Some ed' ∧ sonar_model ed' ≠ sonar_model ed).

(** The [ping_time] array of a dataset is a strictly increasing time axis. *)
Definition increasing_time (da : DataArray) : Prop :=
  ∃ ts, times_of (da_values da) = Some ts ∧ strictly_increasing ts.

(** A reversal is found in the [ping_time] of a group: the condition of
    the [if] that guards the repair. *)
Definition reversal_detected (combined_group : Dataset) : bool :=
  ds_contains combined_group "ping_time" &&
  match exist_reversed_time combined_group "ping_time" with
  | inr true => true
  | _ => false
  end.

(** The value under [key] in the last mapping of the list that defines it. *)
Fixpoint last_defined (key : string) (datasets : list Dataset) : option AttrVal :=
  match datasets with
  | [] => None
  | ds :: rest =>
      match last_defined key rest with
      | Some v => Some v
      | None => ds_attrs ds !! key
      end
  end.

(** The group as it stands before the [ping_time] step: concatenated,
    attrs merged, strings normalised. *)
Definition concatenated (SONAR_MODELS : string -> ModelConfig) (echodatas : list EchoData)
    (model : option string) (combine_attrs group : string) : res Dataset :=
  res_bind (model_config SONAR_MODELS model) (λ config,
    res_bind (xr_combine_nested (present_datasets echodatas group)
                (concat_dim_of config group) (data_vars_of config group)
                (policy_passed combine_attrs)) (λ cg,
      normalize_beam model group
        (if bool_decide (combine_attrs = "overwrite_conflicts")
         then ds_attrs_update cg (union_attrs (present_datasets echodatas group))
         else cg))).

(** The loop reaches the [ping_time] step of [group] and finds a reversal. *)
Definition reversed_group (SONAR_MODELS : string -> ModelConfig) (echodatas : list EchoData)
    (model : option string) (combine_attrs group : string) : bool :=
  if bool_decide (special_group group) then false
  else if bool_decide (present_datasets echodatas group = []) then false
  else match concatenated SONAR_MODELS echodatas model combine_attrs group with
       | inr cg => reversal_detected cg
       | inl _ => false
       end.

(** The model tag that the check leaves in [sonar_model]. *)
Definition checked_model (echodatas : list EchoData) : option string :=
  match check_sonar_models None echodatas with
  | inr model => model
  | inl _ => None
  end.

(** Two frames agree on everything but the attrs snapshots. *)
Definition same_core (fr fr' : Frame) : Prop :=
  old_ping_time fr' = old_ping_time fr ∧ new_ping_time fr' = new_ping_time fr ∧
  result fr' = result fr ∧ warnings fr' = warnings fr.

(** Two frames agree on the time coordinates kept and on the warnings. *)
Definition same_times (fr fr' : Frame) : Prop :=
  old_ping_time fr' = old_ping_time fr ∧ new_ping_time fr' = new_ping_time fr ∧
  warnings fr' = warnings fr.

(** The frame after [setattr(result, group, value)]. *)
Definition stored (fr : Frame) (group : string) (value : option Dataset) : Frame :=
  mkFrame (old_ping_time fr) (new_ping_time fr) (old_attrs fr)
          (setattr (result fr) group value) (warnings fr).

(** The frame after the attrs of the contributing datasets were noted
    down, which happens when more than one contributed. *)
Definition snapshot (fr : Frame) (group : string) (echodatas : list EchoData) : Frame :=
  if bool_decide (1 < length (present_datasets echodatas group))%nat
  then mkFrame (old_ping_time fr) (new_ping_time fr)
               (dict_set group (ds_attrs <$> present_datasets echodatas group) (old_attrs fr))
               (result fr) (warnings fr)
  else fr.

(** The dataset holds the array [a] under [name], and the size of the
    dimension of the array is its length. *)
Definition sized (ds : Dataset) (name : string) (a : DataArray) : Prop :=
  ds_vars ds !! name = Some a ∧
  ∀ d, da_dim a = Some d → ds_dims ds !! d = Some (length (da_values a)).

(** The names that the end of the call may write in the provenance
    group: the old [ping_time], the coordinate that comes with it, and
    the attrs snapshots. *)
Definition attached_name (name : string) : Prop :=
  name = "old_ping_time" ∨ name = "ping_time" ∨ ∃ g, name = g +:+ "_attrs".

(** A provenance group after the old [ping_time] and the attrs snapshots
    were attached: the attrs and every other variable are as before, and
    so is the size of a dimension that such a variable is over. *)
Definition provenance_extended (prov prov' : Dataset) : Prop :=
  ds_attrs prov' = ds_attrs prov ∧
  (∀ name a, ¬ attached_name name → sized prov name a → sized prov' name a) ∧
  (∀ name, ¬ attached_name name → ds_vars prov' !! name = ds_vars prov !! name).

(** A record whose provenance group alone was extended. *)
Definition result_extended (res res' : EchoData) : Prop :=
  (∀ group, group ≠ "provenance" → getattr res' group = getattr res group) ∧
  match getattr res "provenance", getattr res' "provenance" with
  | Some prov, Some prov' => provenance_extended prov prov'
  | None, None => True
  | _, _ => False
  end.

(** The invariant of the loop: the kept repaired coordinate and the
    [ping_time] of every stored group that is not a copy are strictly
    increasing. *)
Definition times_increasing (fr : Frame) : Prop :=
  (∀ npt, new_ping_time fr = Some npt → increasing_time npt) ∧
  (∀ group ds da, ¬ copied_group group → getattr (result fr) group = Some ds →
                  ds_vars ds !! "ping_time" = Some da → increasing_time da).

(** The variables rewritten by the fixed-width normalisation. *)
Definition normalized_names : list string :=
  ["transceiver_software_version"; "gpt_software_version"; "channel_id"].

(** [ds'] is [ds] up to the given variables: same attrs, every other
    variable as it was, and the same size for a dimension that such a
    variable is over. *)
Definition agree_except (names : list string) (ds ds' : Dataset) : Prop :=
  ds_attrs ds' = ds_attrs ds ∧
  (∀ name a, name ∉ names → sized ds name a → sized ds' name a) ∧
  (∀ name, name ∉ names → ds_vars ds' !! name = ds_vars ds !! name).

(** What [combine_echodata] does after the check of the model tags. *)
Definition after_check (group_map : list string) (SONAR_MODELS : string -> ModelConfig)
    (ECHOPYPE_VERSION utcnow_isoformat : string) (echodatas : list EchoData)
    (model : option string) (combine_attrs : string) : M EchoData :=
  _ ← for_each group_map
        (combine_group SONAR_MODELS ECHOPYPE_VERSION utcnow_isoformat
           echodatas model combine_attrs);
  _ ← save_old_ping_time;
  _ ← save_old_attrs;
  gets result.
(** The dataset has neither the synthetic dimension nor a variable over it. *)
Definition no_concat_dim (ds : Dataset) : Prop :=
  ds_dims ds !! "concat_dim" = None ∧
  ∀ name da, ds_vars ds !! name = Some da → da_dim da ≠ Some "concat_dim".
(** [d.get(k)] on an insertion-ordered dict. *)
Fixpoint dict_get {V} (k : string) (d : list (string * V)) : option V :=
  match d with
  | [] => None
  | (k', v) :: rest => if bool_decide (k = k') then Some v else dict_get k rest
  end.

(** The group contributes an attrs snapshot: it is concatenated from
    more than one dataset. *)
Definition snapshot_taken (group_map : list string) (echodatas : list EchoData)
    (group : string) : Prop :=
  group ∈ group_map ∧ ¬ special_group group ∧
  (1 < length (present_datasets echodatas group))%nat.
(** Whenever the old coordinate is kept, so is the repaired one. *)
Definition times_paired (fr : Frame) : Prop :=
  old_ping_time fr = None ∨ is_Some (new_ping_time fr).

(** ** Sample records *)

Module Sample.

Definition group_map : list string :=
  ["top"; "environment"; "platform"; "provenance"; "sonar"; "beam"; "vendor"].

(** Every model concatenates along [ping_time] with the mode
    "minimal", except for the platform group. *)
Definition SONAR_MODELS : string -> ModelConfig :=
  λ _, mkModelConfig {[ "platform" := "location_time" ]} "ping_time"
                     {[ "platform" := "different" ]} "minimal".

(** A dataset with a [ping_time] coordinate and the given attrs. *)
Definition timed (ts : list Z) (attrs : Attrs) : Dataset :=
  mkDataset {[ "ping_time" := length ts ]}
            {[ "ping_time" := mkDataArray (Some "ping_time") (CTime <$> ts) ]}
            attrs.

Definition first_record : EchoData :=
  mkEchoData (Some "EK60") (Some "a.raw") None
    {[ "environment" := timed [2; 1] {[ "a" := AInt 1 ]};
       "vendor" := timed [10; 20] ∅ ]}.

Definition second_record : EchoData :=
  mkEchoData (Some "EK60") None (Some "b.nc")
    {[ "environment" := timed [5; 4; 8] {[ "a" := AInt 2 ]} ]}.

Definition untagged_record : EchoData :=
  mkEchoData None (Some "c.raw") None ∅.

(** A record whose top-level group carries a reversed [ping_time]. *)
Definition timed_top_record : EchoData :=
  mkEchoData (Some "EK60") (Some "d.raw") None {[ "top" := timed [2; 1] ∅ ]}.

Definition combine (echodatas : list EchoData) (combine_attrs : option string)
  : Frame * res EchoData :=
  combine_echodata group_map SONAR_MODELS "0.5.0" "2021-06-01T12:00:00"
    echodatas combine_attrs.

(** A record with a reversal in two groups of the same length. *)
Definition twice_reversed_record : EchoData :=
  mkEchoData (Some "EK60") (Some "e.raw") None
    {[ "environment" := timed [2; 1] ∅; "vendor" := timed [9; 3] ∅ ]}.

(** The record returned by a call ([EchoData()] if it raised). *)
Definition returned (out : Frame * res EchoData) : EchoData :=
  match out.2 with
  | inr r => r
  | inl _ => EchoData_new
  end.

(** A group of the record returned, and a variable of a group. *)
Definition group_of (out : Frame * res EchoData) (group : string) : Dataset :=
  default (mkDataset ∅ ∅ ∅) (getattr (returned out) group).

Definition variable_of (ds : Dataset) (name : string) : DataArray :=
  default (mkDataArray None []) (ds_vars ds !! name).

(** A record of another model. *)
Definition other_model_record : EchoData :=
  mkEchoData (Some "EK80") (Some "f.raw") None ∅.

(** A record whose "environment" attrs do not clash with those of
    [first_record]. *)
Definition compatible_record : EchoData :=
  mkEchoData (Some "EK60") (Some "g.raw") None
    {[ "environment" := timed [30] {[ "b" := AInt 3 ]} ]}.

(** A record with the string variables of an EK60 beam group, both longer
    than the widths they are cut to. *)
Definition strings (dim : string) (l : list string) : DataArray :=
  mkDataArray (Some dim) ((λ s, CStr (Some s)) <$> l).

Definition beam_record : EchoData :=
  mkEchoData (Some "EK60") (Some "h.raw") None
    {[ "beam" :=
         mkDataset {[ "frequency" := 1%nat ]}
           {[ "channel_id" :=
                strings "frequency"
                  ["GPT  38 kHz 009072058c8d 1-1 ES38B with a serial number that runs on"];
              "gpt_software_version" := strings "frequency" ["070413.release.candidate"] ]}
           ∅ ]}.

(** Two records with a platform group over [location_time]; the second
    one has no "vendor" group. *)
Definition located (ts : list Z) (sentences : list string) : Dataset :=
  mkDataset {[ "location_time" := length ts ]}
            {[ "location_time" := mkDataArray (Some "location_time") (CTime <$> ts);
               "sentence_type" := strings "location_time" sentences ]}
            ∅.

Definition first_located_record : EchoData :=
  mkEchoData (Some "EK60") (Some "p.raw") None
    {[ "platform" := located [1; 2] ["GGA"; "GLL"]; "vendor" := timed [10; 20] ∅ ]}.

Definition second_located_record : EchoData :=
  mkEchoData (Some "EK60") (Some "q.raw") None
    {[ "platform" := located [3; 4; 5] ["GGA"; "VTG"; "GGA"] ]}.

(** A time axis of 300 values with one reversal, at index 200, and one
    of 250 values with its reversal at index 150. *)
Definition reversed_axis : list Z := seqZ 0 200 ++ seqZ 150 100.

Definition shorter_reversed_axis : list Z := seqZ 0 150 ++ seqZ 100 100.

Definition reversed_environment_record : EchoData :=
  mkEchoData (Some "EK60") (Some "r.raw") None
    {[ "environment" := timed reversed_axis ∅ ]}.

Definition reversed_record : EchoData :=
  mkEchoData (Some "EK60") (Some "s.raw") None
    {[ "environment" := timed reversed_axis ∅;
       "vendor" := timed shorter_reversed_axis ∅ ]}.

End Sample.

(** * Properties *)

(** ** The time-reversal corrector *)

Lemma detect_from_spec prev l : detect_from prev l = false ↔ increasing_from prev l.
Proof.
  revert prev. induction l as [|x rest IH]; intros prev; simpl.
  - done.
  - rewrite orb_false_iff, IH, Z.leb_gt. done.
Qed.

Lemma detect_spec l : detect l = false ↔ strictly_increasing l.
Proof. destruct l as [|x rest]; simpl; [done | apply detect_from_spec]. Qed.

Lemma correct_from_increasing prev offset l :
  0 ≤ offset → increasing_from prev (correct_from prev offset l).
Proof.
  revert prev offset. induction l as [|x rest IH]; intros prev offset Hoff; simpl.
  - done.
  - destruct (Z.leb_spec (x + offset) prev) as [Hle | Hgt].
    + split; [lia | apply IH; lia].
    + split; [lia | apply IH; lia].
Qed.

Lemma correct_increasing l : strictly_increasing (correct l).
Proof. destruct l as [|x rest]; simpl; [done | by apply correct_from_increasing]. Qed.

Lemma correct_from_length prev offset l : length (correct_from prev offset l) = length l.
Proof. revert prev offset. induction l; intros; simpl; [done | by rewrite IHl]. Qed.

Lemma correct_length l : length (correct l) = length l.
Proof. destruct l; simpl; [done | by rewrite correct_from_length]. Qed.

(** An increasing sequence is returned as it is. *)
Lemma correct_from_increasing_id prev l :
  increasing_from prev l → correct_from prev 0 l = l.
Proof.
  revert prev. induction l as [|x rest IH]; intros prev; simpl; [done|].
  intros [Hlt Hrest]. rewrite Z.add_0_r.
  destruct (Z.leb_spec x prev) as [Hle | _]; [lia|].
  rewrite Z.add_0_r. by rewrite IH.
Qed.

Lemma correct_increasing_id l : strictly_increasing l → correct l = l.
Proof.
  destruct l as [|x rest]; simpl; [done|]. intros H.
  by rewrite correct_from_increasing_id.
Qed.

(** The example of the spec: the reversal at index 2 is lifted to one
    unit above 20 and the same offset carries over to index 3. *)
Example correct_example :
  detect [10; 20; 15; 30] = true ∧ correct [10; 20; 15; 30] = [10; 20; 21; 36].
Proof. split; reflexivity. Qed.

Lemma times_of_CTime ts : times_of (CTime <$> ts) = Some ts.
Proof.
  unfold times_of. induction ts as [|t ts IH]; [done|].
  rewrite fmap_cons. simpl. rewrite IH. done.
Qed.

(** ** The frame monad *)

Lemma bind_run {A B} (m : M A) (k : A -> M B) fr :
  (m ≫= k) fr = match m fr with
                | (fr', inl e) => (fr', inl e)
                | (fr', inr a) => k a fr'
                end.
Proof. reflexivity. Qed.

Lemma for_each_app {A} (xs ys : list A) (body : A -> M unit) fr :
  for_each (xs ++ ys) body fr =
  match for_each xs body fr with
  | (fr', inl e) => (fr', inl e)
  | (fr', inr _) => for_each ys body fr'
  end.
Proof.
  revert fr. induction xs as [|x xs IH]; intros fr; simpl.
  - done.
  - rewrite !bind_run. destruct (body x fr) as [fr1 [e|[]]]; [done | apply IH].
Qed.

(** An invariant of the loop body is an invariant of the loop, whether
    the loop ends or raises. *)
Lemma for_each_invariant {A} (P : Frame -> Prop) (xs : list A) (body : A -> M unit) fr :
  (∀ x fr0, x ∈ xs → P fr0 → P (body x fr0).1) →
  P fr → P (for_each xs body fr).1.
Proof.
  revert fr. induction xs as [|x xs IH]; intros fr Hbody HP; simpl.
  - done.
  - rewrite bind_run.
    pose proof (Hbody x fr ltac:(left) HP) as H1.
    destruct (body x fr) as [fr1 [e|[]]]; simpl in *; [done|].
    apply IH; [|done]. intros y fr0 Hy. apply Hbody. by right.
Qed.

Lemma raises_only_bind {A B} Q (m : M A) (k : A -> M B) :
  raises_only Q m → (∀ a, raises_only Q (k a)) → raises_only Q (m ≫= k).
Proof.
  intros Hm Hk fr fr' e. rewrite bind_run.
  destruct (m fr) as [fr1 [e1|a]] eqn:E.
  - intros [= <- <-]. by eapply Hm.
  - apply Hk.
Qed.

Lemma raises_only_ret {A} Q (a : A) : raises_only Q (mret a).
Proof. intros fr fr' e. discriminate. Qed.

Lemma raises_only_gets {A} Q (f : Frame -> A) : raises_only Q (gets f).
Proof. intros fr fr' e. discriminate. Qed.

Lemma raises_only_modify Q f : raises_only Q (modify f).
Proof. intros fr fr' e. discriminate. Qed.

Lemma raises_only_lift {A} (Q : exn -> Prop) (r : res A) :
  (∀ e, r = inl e → Q e) → raises_only Q (lift r).
Proof. intros H fr fr' e [= _ ->]. by apply H. Qed.

Lemma raises_only_for_each {A} Q (xs : list A) (body : A -> M unit) :
  (∀ x, raises_only Q (body x)) → raises_only Q (for_each xs body).
Proof.
  intros Hbody. induction xs as [|x xs IH]; simpl.
  - apply raises_only_ret.
  - apply raises_only_bind; [apply Hbody | intros _; apply IH].
Qed.

(** ** Validation of the model tags *)

Lemma check_sonar_models_some m echodatas r :
  check_sonar_models (Some m) echodatas = inr r ↔
  r = Some m ∧ Forall (λ ed, sonar_model ed = Some m) echodatas.
Proof.
  induction echodatas as [|ed rest IH]; simpl.
  - split; [intros [= <-]; auto | intros [-> _]; done].
  - destruct (sonar_model ed) as [m'|] eqn:Em.
    + case_bool_decide as Hne.
      * split; [done|]. intros [_ H]. inversion H; congruence.
      * assert (m' = m) as -> by (destruct (decide (m' = m)); [done | contradiction]).
        rewrite IH. split; intros [-> H]; split; auto.
        by inversion H.
    + split; [done|]. intros [_ H]. inversion H; congruence.
Qed.

Lemma check_sonar_models_none echodatas r :
  check_sonar_models None echodatas = inr r ↔
  (echodatas = [] ∧ r = None) ∨
  (∃ m, r = Some m ∧ echodatas ≠ [] ∧ Forall (λ ed, sonar_model ed = Some m) echodatas).
Proof.
  destruct echodatas as [|ed rest]; simpl.
  - split; [intros [= <-]; auto | intros [[_ ->]|(m & _ & ? & _)]; done].
  - destruct (sonar_model ed) as [m'|] eqn:Em.
    + rewrite check_sonar_models_some. split.
      * intros [-> H]. right. exists m'. repeat split; [done|]. by constructor.
      * intros [[? _]|(m & -> & _ & H)]; [done|].
        inversion H; subst. assert (m = m') as -> by congruence. done.
    + split; [done|]. intros [[? _]|(m & _ & _ & H)]; [done|].
      inversion H; congruence.
Qed.

Lemma check_sonar_models_error model echodatas e :
  check_sonar_models model echodatas = inl e → is_validation_error e.
Proof.
  revert model. induction echodatas as [|ed rest IH]; intros model; simpl; [done|].
  destruct (sonar_model ed) as [m'|].
  - destruct model as [m0|]; [|apply IH].
    case_bool_decide; [|apply IH]. intros [= <-]. by right.
  - intros [= <-]. by left.
Qed.

Lemma consistent_models_iff echodatas :
  ¬ inconsistent_models echodatas ↔
  echodatas = [] ∨ ∃ m, Forall (λ ed, sonar_model ed = Some m) echodatas.
Proof.
  split.
  - intros Hc. destruct echodatas as [|ed rest]; [by left | right].
    destruct (sonar_model ed) as [m|] eqn:Em.
    + exists m. apply Forall_forall. intros ed' Hin.
      destruct (decide (sonar_model ed' = Some m)) as [|Hne]; [done|].
      exfalso. apply Hc. right. exists ed, ed'. repeat split; [by left | done | congruence].
    + exfalso. apply Hc. left. exists ed. split; [by left | done].
  - intros [-> | [m Hall]] [(ed & Hin & Hnone) | (ed1 & ed2 & H1 & H2 & Hne)].
    + by apply elem_of_nil in Hin.
    + by apply elem_of_nil in H1.
    + rewrite Forall_forall in Hall. specialize (Hall _ Hin). congruence.
    + rewrite Forall_forall in Hall.
      pose proof (Hall _ H1). pose proof (Hall _ H2). congruence.
Qed.

Lemma check_sonar_models_some_fails m echodatas e :
  check_sonar_models (Some m) echodatas = inl e →
  ∃ ed, ed ∈ echodatas ∧ sonar_model ed ≠ Some m.
Proof.
  induction echodatas as [|ed rest IH]; simpl; [done|].
  destruct (sonar_model ed) as [m'|] eqn:Em.
  - case_bool_decide as Hne.
    + intros _. exists ed. split; [by left | congruence].
    + intros H. destruct (IH H) as (ed' & Hin & Hne'). exists ed'. split; [by right | done].
  - intros _. exists ed. split; [by left | congruence].
Qed.

Lemma check_sonar_models_fails_iff echodatas :
  (∃ e, check_sonar_models None echodatas = inl e) ↔ inconsistent_models echodatas.
Proof.
  split.
  - intros [e He]. destruct echodatas as [|ed rest]; simpl in He; [done|].
    destruct (sonar_model ed) as [m|] eqn:Em.
    + apply check_sonar_models_some_fails in He as (ed' & Hin & Hne).
      right. exists ed, ed'. repeat split; [by left | by right | congruence].
    + left. exists ed. split; [by left | done].
  - intros Hi. destruct (check_sonar_models None echodatas) as [e|r] eqn:E; [by eexists|].
    exfalso. apply check_sonar_models_none in E.
    assert (¬ inconsistent_models echodatas) as Hc; [|done].
    apply consistent_models_iff. destruct E as [[-> _] | (m & _ & _ & H)].
    + by left.
    + right. by exists m.
Qed.

(** ** Exceptions raised after the validation

    Every exception raised by the library stand-ins and by the loop over
    the groups differs from the two validation errors; an attribute
    conflict is raised by the merge of the attrs only. *)

Ltac not_validation :=
  let H := fresh in intros [H|H]; discriminate H.

Ltac plain := split; [not_validation | intros ?; discriminate].

Lemma plain_is_library e : plain_error e → library_error e.
Proof. by intros [? _]. Qed.

Lemma raises_only_weaken {A} (Q Q' : exn -> Prop) (m : M A) :
  (∀ e, Q e → Q' e) → raises_only Q m → raises_only Q' m.
Proof. intros HQ Hm fr fr' e He. eapply HQ, Hm, He. Qed.

Lemma ds_getitem_error ds name e : ds_getitem ds name = inl e → plain_error e.
Proof.
  unfold ds_getitem. destruct (ds_vars ds !! name); [done|].
  intros [= <-]. plain.
Qed.

Lemma ds_setitem_error ds name da e : ds_setitem ds name da = inl e → plain_error e.
Proof.
  unfold ds_setitem. destruct (da_dim da) as [d|]; [|done].
  case_bool_decide; [|done]. intros [= <-]. plain.
Qed.

Lemma ds_setitem_array_error ds name source da e :
  ds_setitem_array ds name source da = inl e → plain_error e.
Proof.
  unfold ds_setitem_array. intros H.
  destruct (ds_setitem ds name da) as [e0|ds'] eqn:E; simpl in H.
  - simplify_eq. by eapply ds_setitem_error.
  - case_bool_decide; [by eapply ds_setitem_error | done].
Qed.

Lemma ds_assign_error ds items e : ds_assign ds items = inl e → plain_error e.
Proof.
  unfold ds_assign.
  assert (∀ acc : res Dataset, (∀ e0, acc = inl e0 → plain_error e0) →
            foldl (λ acc kv, res_bind acc (λ ds', ds_setitem ds' kv.1
                                             (mkDataArray (Some kv.1) kv.2))) acc items
            = inl e → plain_error e) as Hfold.
  { induction items as [|kv rest IH]; intros acc Hacc; simpl; [apply Hacc|].
    apply IH. intros e0. destruct acc as [e1|ds1]; simpl.
    - apply Hacc.
    - apply ds_setitem_error. }
  apply Hfold. intros e0. discriminate.
Qed.

Lemma astype_var_error ds name n e : astype_var ds name n = inl e → plain_error e.
Proof.
  unfold astype_var. intros H. destruct (ds_getitem ds name) eqn:E; simpl in H.
  - simplify_eq. by eapply ds_getitem_error.
  - by eapply ds_setitem_error.
Qed.

Lemma normalize_beam_error model group cg e :
  normalize_beam model group cg = inl e → plain_error e.
Proof.
  unfold normalize_beam. intros H.
  repeat case_bool_decide; try done;
    (destruct (astype_var cg _ 10) eqn:E; simpl in H;
     [simplify_eq; by eapply astype_var_error | by eapply astype_var_error]).
Qed.

Lemma merge_no_conflicts_error acc l e :
  merge_no_conflicts acc l = inl e → library_error e.
Proof.
  revert acc. induction l as [|a rest IH]; intros acc; simpl; [done|].
  destruct (attrs_compatible acc a); [apply IH|]. intros [= <-]. not_validation.
Qed.

Lemma merge_attrs_error l p e : merge_attrs l p = inl e → library_error e.
Proof.
  unfold merge_attrs. destruct l as [|first rest]; [done|].
  repeat case_bool_decide; try done.
  - apply merge_no_conflicts_error.
  - destruct (forallb _ rest); [done|]. intros [= <-]. not_validation.
  - intros [= <-]. not_validation.
Qed.

Lemma merge_attrs_drop l : merge_attrs l "drop" = inr ∅.
Proof. by destruct l. Qed.

Lemma xr_combine_nested_error datasets d mode p e :
  xr_combine_nested datasets d mode p = inl e → library_error e.
Proof.
  unfold xr_combine_nested. case_bool_decide.
  - destruct (merge_attrs _ p) eqn:E; simpl; [|done].
    intros [= <-]. by eapply merge_attrs_error.
  - intros [= <-]. not_validation.
Qed.

Lemma xr_combine_nested_drop_error datasets d mode e :
  xr_combine_nested datasets d mode "drop" = inl e → plain_error e.
Proof.
  unfold xr_combine_nested. rewrite merge_attrs_drop. simpl.
  case_bool_decide; [done|]. intros [= <-]. plain.
Qed.

Lemma model_config_error SM model e : model_config SM model = inl e → plain_error e.
Proof. destruct model; simpl; [done|]. intros [= <-]. plain. Qed.

Lemma exist_reversed_time_error ds name e :
  exist_reversed_time ds name = inl e → plain_error e.
Proof.
  unfold exist_reversed_time. intros H. destruct (ds_getitem ds name) eqn:E; simpl in H.
  - simplify_eq. by eapply ds_getitem_error.
  - destruct (times_of _); simplify_eq. plain.
Qed.

Lemma coerce_increasing_time_error ds e :
  coerce_increasing_time ds = inl e → plain_error e.
Proof.
  unfold coerce_increasing_time. intros H. destruct (ds_getitem ds _) eqn:E; simpl in H.
  - simplify_eq. by eapply ds_getitem_error.
  - destruct (times_of _); simplify_eq. plain.
Qed.

Ltac raises_step :=
  first
    [ apply raises_only_bind; [|intros ?]
    | apply raises_only_ret
    | apply raises_only_gets
    | apply raises_only_modify
    | apply raises_only_lift; intros ? ? ].

Lemma fix_ping_time_raises cg : raises_only plain_error (fix_ping_time cg).
Proof.
  unfold fix_ping_time. destruct (ds_contains cg "ping_time"); [|raises_step].
  raises_step; [raises_step; by eapply exist_reversed_time_error|].
  destruct a; [|raises_step].
  raises_step; [raises_step|].
  destruct a as [da|].
  - raises_step; [raises_step|].
    destruct a as [npt|]; raises_step.
    + by eapply ds_setitem_error.
    + simplify_eq. plain.
  - unfold warn, set_old_ping_time, set_new_ping_time.
    repeat raises_step;
      eauto using ds_getitem_error, coerce_increasing_time_error.
Qed.

Lemma store_group_raises group cg : raises_only plain_error (store_group group cg).
Proof. unfold store_group, set_result. raises_step. Qed.

(** The step of one group, for a predicate [Q] that holds of the plain
    errors and of the errors of the concatenation. *)
Lemma combine_group_raises_gen (Q : exn -> Prop) SM v now echodatas model p group :
  (∀ e, plain_error e → Q e) →
  (∀ datasets d mode e,
     xr_combine_nested datasets d mode (policy_passed p) = inl e → Q e) →
  raises_only Q (combine_group SM v now echodatas model p group).
Proof.
  intros Hplain Hxr.
  assert (∀ g cg, raises_only Q (store_group g cg)) as Hstore.
  { intros g cg. eapply raises_only_weaken; [exact Hplain | apply store_group_raises]. }
  unfold combine_group. case_bool_decide.
  { destruct echodatas; [|apply Hstore].
    raises_step. simplify_eq. apply Hplain. plain. }
  case_bool_decide; [apply Hstore|].
  cbv zeta. case_bool_decide; [unfold set_result; raises_step|].
  raises_step; [raises_step; by eapply Hplain, model_config_error|].
  raises_step; [raises_step; by eapply Hxr|].
  raises_step; [unfold set_old_attrs; case_bool_decide; raises_step|].
  raises_step; [raises_step; by eapply Hplain, normalize_beam_error|].
  raises_step; [|apply Hstore].
  eapply raises_only_weaken; [exact Hplain | apply fix_ping_time_raises].
Qed.

Lemma combine_group_raises SM v now echodatas model p group :
  raises_only library_error (combine_group SM v now echodatas model p group).
Proof.
  apply combine_group_raises_gen.
  - apply plain_is_library.
  - intros datasets d mode e. apply xr_combine_nested_error.
Qed.

Lemma combine_group_raises_overwrite SM v now echodatas model group :
  raises_only plain_error
    (combine_group SM v now echodatas model "overwrite_conflicts" group).
Proof.
  apply combine_group_raises_gen; [done|].
  intros datasets d mode e. apply xr_combine_nested_drop_error.
Qed.

Lemma save_old_ping_time_raises : raises_only plain_error save_old_ping_time.
Proof.
  unfold save_old_ping_time. raises_step; [raises_step|].
  destruct a as [da|]; [|raises_step].
  raises_step; [raises_step|].
  destruct (getattr a "provenance").
  - raises_step; [raises_step; by eapply ds_setitem_array_error|].
    unfold set_result. raises_step.
  - raises_step. simplify_eq. plain.
Qed.

Lemma save_old_attrs_raises : raises_only plain_error save_old_attrs.
Proof.
  unfold save_old_attrs. raises_step; [raises_step|].
  apply raises_only_for_each. intros _.
  raises_step; [raises_step|].
  destruct (getattr a0 "provenance").
  - raises_step; [raises_step; by eapply ds_assign_error|].
    unfold set_result. raises_step.
  - raises_step. simplify_eq. plain.
Qed.

(** ** The combiner *)

Section Properties.

Variable group_map : list string.
Variable SONAR_MODELS : string -> ModelConfig.
Variable ECHOPYPE_VERSION : string.
Variable utcnow_isoformat : string.

Local Abbreviation combine :=
  (combine_echodata group_map SONAR_MODELS ECHOPYPE_VERSION utcnow_isoformat).
Local Abbreviation body :=
  (combine_body group_map SONAR_MODELS ECHOPYPE_VERSION utcnow_isoformat).
Local Abbreviation group_step :=
  (combine_group SONAR_MODELS ECHOPYPE_VERSION utcnow_isoformat).
Local Abbreviation provenance_of :=
  (assemble_combined_provenance ECHOPYPE_VERSION utcnow_isoformat).
Local Abbreviation rest_of_call :=
  (after_check group_map SONAR_MODELS ECHOPYPE_VERSION utcnow_isoformat).

Lemma combine_nonempty ed rest p :
  combine (ed :: rest) p =
  match check_sonar_models None (ed :: rest) with
  | inl e => (initial_frame, inl e)
  | inr model => rest_of_call (ed :: rest) model (default "override" p) initial_frame
  end.
Proof.
  unfold combine_echodata, combine_body. cbv zeta.
  rewrite bool_decide_eq_false_2 by done.
  rewrite bind_run. unfold lift.
  destruct (check_sonar_models None (ed :: rest)); done.
Qed.

Lemma after_check_raises_gen (Q : exn -> Prop) echodatas model p :
  (∀ e, plain_error e → Q e) →
  (∀ g, raises_only Q (group_step echodatas model p g)) →
  raises_only Q (rest_of_call echodatas model p).
Proof.
  intros Hplain Hstep. unfold after_check.
  apply raises_only_bind; [by apply raises_only_for_each | intros _].
  apply raises_only_bind;
    [eapply raises_only_weaken; [exact Hplain | apply save_old_ping_time_raises] | intros _].
  apply raises_only_bind;
    [eapply raises_only_weaken; [exact Hplain | apply save_old_attrs_raises] | intros _].
  apply raises_only_gets.
Qed.

Lemma after_check_raises echodatas model p :
  raises_only library_error (rest_of_call echodatas model p).
Proof.
  apply after_check_raises_gen; [apply plain_is_library|].
  intros g. apply combine_group_raises.
Qed.

(** C7: [combine_echodata] applied to the empty list returns the fresh
    [EchoData()], in which every group is absent; nothing is raised and
    the call-scoped state is untouched, whatever the attrs policy. *)
Theorem combine_empty (combine_attrs : option string) :
  combine [] combine_attrs = (initial_frame, inr EchoData_new) ∧
  ∀ group, getattr EchoData_new group = None.
Proof.
  split; [reflexivity|]. intros group. unfold getattr. simpl. apply lookup_empty.
Qed.

(** C1 (amended): [combine_echodata] raises one of the two validation
    errors iff some record has no model tag or two records have different
    tags; the error is the one raised by the loop over the records, which
    carries a fixed message and no position, and it is raised before any
    group is processed: the call-scoped state is still the initial one. *)
Theorem validation_error_iff (echodatas : list EchoData) (combine_attrs : option string) :
  ((∃ e, (combine echodatas combine_attrs).2 = inl e ∧ is_validation_error e) ↔
   inconsistent_models echodatas) ∧
  (∀ e, (combine echodatas combine_attrs).2 = inl e → is_validation_error e →
        (combine echodatas combine_attrs).1 = initial_frame ∧
        check_sonar_models None echodatas = inl e).
Proof.
  destruct echodatas as [|ed rest].
  { split.
    - split.
      + intros (e & He & _). discriminate He.
      + intros Hi. apply check_sonar_models_fails_iff in Hi as [e He]. discriminate He.
    - intros e He. discriminate He. }
  rewrite combine_nonempty.
  destruct (check_sonar_models None (ed :: rest)) as [e0|model] eqn:Echeck.
  - split.
    + split.
      * intros _. apply check_sonar_models_fails_iff. by exists e0.
      * intros _. exists e0. split; [done|]. by eapply check_sonar_models_error.
    + intros e [= <-] _. done.
  - assert (∀ e, (rest_of_call (ed :: rest) model (default "override" combine_attrs)
                    initial_frame).2 = inl e → ¬ is_validation_error e) as Hlib.
    { intros e He.
      destruct (rest_of_call _ _ _ initial_frame) as [fr r] eqn:E. simpl in He. subst r.
      by eapply after_check_raises. }
    split.
    + split.
      * intros (e & He & Hv). by apply Hlib in He.
      * intros Hi. apply check_sonar_models_fails_iff in Hi as [e He]. congruence.
    + intros e He Hv. by apply Hlib in He.
Qed.


(** ** One step of the loop over the groups *)

Lemma store_group_run group value fr :
  store_group group value fr =
  (stored fr group ((λ cg, drop_dims cg "concat_dim") <$> value), inr tt).
Proof. reflexivity. Qed.

Lemma reversal_detected_true cg :
  reversal_detected cg = true ↔
  ∃ da ts, ds_vars cg !! "ping_time" = Some da ∧
           times_of (da_values da) = Some ts ∧ detect ts = true.
Proof.
  unfold reversal_detected, ds_contains, exist_reversed_time, ds_getitem.
  destruct (ds_vars cg !! "ping_time") as [da|] eqn:Eda; simpl.
  - rewrite ?bool_decide_eq_true_2 by eauto. simpl.
    destruct (times_of (da_values da)) as [ts|] eqn:Ets.
    + destruct (detect ts) eqn:Ed; split; try done.
      * intros _. by exists da, ts.
      * intros (da' & ts' & [= <-] & Hts & Hd). congruence.
    + split; [done|]. intros (da' & ts' & [= <-] & Hts & _). congruence.
  - rewrite ?bool_decide_eq_false_2 by (intros [? ?]; done). simpl.
    split; [done|]. intros (da' & ts' & ? & _). done.
Qed.

(** The first reversal of the call: the warning is emitted, the old and
    the repaired coordinate are kept, the group gets the repaired one. *)
Lemma fix_ping_time_first cg fr da ts :
  ds_vars cg !! "ping_time" = Some da →
  times_of (da_values da) = Some ts →
  detect ts = true →
  old_ping_time fr = None →
  fix_ping_time cg fr =
  (mkFrame (Some da) (Some (corrected da ts)) (old_attrs fr) (result fr)
           (warnings fr ++ [reversal_warning]),
   inr (with_ping_time cg (corrected da ts))).
Proof.
  intros Hda Hts Hd Hold. unfold fix_ping_time, ds_contains.
  rewrite bool_decide_eq_true_2 by (rewrite Hda; eauto).
  rewrite bind_run. unfold lift at 1, exist_reversed_time, ds_getitem.
  rewrite Hda. simpl. rewrite Hts, Hd.
  rewrite bind_run. unfold gets at 1. rewrite Hold.
  rewrite bind_run. unfold warn, modify at 1.
  rewrite bind_run. unfold lift at 1.
  rewrite bind_run. unfold set_old_ping_time, modify at 1.
  rewrite bind_run. unfold lift at 1, coerce_increasing_time, ds_getitem.
  rewrite ?Hda. simpl. rewrite Hts.
  rewrite bind_run. unfold lift at 1. simpl. rewrite lookup_insert_eq.
  reflexivity.
Qed.

(** A reversal after a correction was computed: the cached coordinate is
    assigned, nothing else changes. *)
Lemma fix_ping_time_later cg fr old npt :
  reversal_detected cg = true →
  old_ping_time fr = Some old →
  new_ping_time fr = Some npt →
  fix_ping_time cg fr = (fr, ds_setitem cg "ping_time" npt).
Proof.
  intros Hrev Hold Hnew.
  apply reversal_detected_true in Hrev as (da & ts & Hda & Hts & Hd).
  unfold fix_ping_time, ds_contains.
  rewrite bool_decide_eq_true_2 by (rewrite Hda; eauto).
  rewrite bind_run. unfold lift at 1, exist_reversed_time, ds_getitem.
  rewrite Hda. simpl. rewrite Hts, Hd.
  rewrite bind_run. unfold gets at 1. rewrite Hold.
  rewrite bind_run. unfold gets at 1. rewrite Hnew. reflexivity.
Qed.

(** No reversal found: the frame and the group are left as they are, and
    the [ping_time] of the group, if any, is strictly increasing. *)
Lemma fix_ping_time_none cg fr :
  reversal_detected cg = false →
  ∃ r, fix_ping_time cg fr = (fr, r) ∧
       ((r = inr cg ∧ ∀ da, ds_vars cg !! "ping_time" = Some da → increasing_time da) ∨
        ∃ e, r = inl e).
Proof.
  intros Hrev. unfold fix_ping_time.
  unfold reversal_detected in Hrev.
  destruct (ds_contains cg "ping_time") eqn:Hc; simpl in Hrev.
  - rewrite bind_run. unfold lift at 1.
    destruct (exist_reversed_time cg "ping_time") as [e|[|]] eqn:Ex; [|done|].
    + eexists. split; [done|]. right. by eexists.
    + eexists. split; [done|]. left. split; [done|]. intros da Hda.
      unfold exist_reversed_time, ds_getitem in Ex. rewrite Hda in Ex. simpl in Ex.
      destruct (times_of (da_values da)) as [ts|] eqn:Ets; [|done].
      exists ts. split; [done|]. apply detect_spec. congruence.
  - eexists. split; [done|]. left. split; [done|]. intros da Hda.
    unfold ds_contains in Hc. apply bool_decide_eq_false in Hc.
    exfalso. apply Hc. by eexists.
Qed.

Lemma not_special group : ¬ special_group group ↔ ¬ copied_group group ∧ group ≠ "provenance".
Proof.
  unfold special_group, copied_group. rewrite !elem_of_cons, !elem_of_nil. tauto.
Qed.

Lemma same_core_refl fr : same_core fr fr.
Proof. by repeat split. Qed.

Lemma same_core_snapshot fr group echodatas : same_core fr (snapshot fr group echodatas).
Proof. unfold snapshot. case_bool_decide; by repeat split. Qed.

Lemma group_step_copied first rest model p group fr :
  copied_group group →
  group_step (first :: rest) model p group fr =
  (stored fr group ((λ cg, drop_dims cg "concat_dim") <$> getattr first group), inr tt).
Proof.
  intros Hc. unfold combine_group. rewrite bool_decide_eq_true_2 by done.
  apply store_group_run.
Qed.

Lemma group_step_provenance echodatas model p fr :
  group_step echodatas model p "provenance" fr =
  (stored fr "provenance"
     (Some (drop_dims (provenance_of (origin <$> echodatas)) "concat_dim")), inr tt).
Proof.
  unfold combine_group.
  rewrite bool_decide_eq_false_2
    by (rewrite !elem_of_cons, elem_of_nil; intros [?|[?|?]]; done).
  rewrite bool_decide_eq_true_2 by done. apply store_group_run.
Qed.

Lemma group_step_absent echodatas model p group fr :
  ¬ special_group group →
  present_datasets echodatas group = [] →
  group_step echodatas model p group fr = (stored fr group None, inr tt).
Proof.
  intros [Hc Hp]%not_special Hnone. unfold combine_group.
  rewrite (bool_decide_eq_false_2 _ Hc), (bool_decide_eq_false_2 _ Hp).
  cbv zeta. rewrite Hnone. reflexivity.
Qed.

Lemma group_step_concat echodatas model p group fr :
  ¬ special_group group →
  present_datasets echodatas group ≠ [] →
  ∃ fr0, same_core fr fr0 ∧
    group_step echodatas model p group fr =
    match concatenated SONAR_MODELS echodatas model p group with
    | inl e => (fr0, inl e)
    | inr cg =>
        (fix_ping_time cg ≫= λ cg', store_group group (Some cg'))
          (snapshot fr group echodatas)
    end.
Proof.
  intros [Hc Hp]%not_special Hsome. unfold combine_group, concatenated.
  rewrite (bool_decide_eq_false_2 _ Hc), (bool_decide_eq_false_2 _ Hp).
  cbv zeta.
  rewrite bool_decide_eq_false_2
    by (destruct (present_datasets echodatas group); [done | discriminate]).
  rewrite bind_run. unfold lift at 1.
  destruct (model_config SONAR_MODELS model) as [e|config]; simpl;
    [exists fr; split; [apply same_core_refl | done] |].
  rewrite bind_run. unfold lift at 1.
  destruct (xr_combine_nested _ _ _ _) as [e|cat]; simpl;
    [exists fr; split; [apply same_core_refl | done] |].
  rewrite bind_run.
  assert ((if bool_decide (1 < length (present_datasets echodatas group))%nat
           then set_old_attrs group (ds_attrs <$> present_datasets echodatas group)
           else mret ()) fr = (snapshot fr group echodatas, inr tt)) as ->.
  { unfold snapshot. case_bool_decide; reflexivity. }
  rewrite bind_run. unfold lift at 1.
  destruct (normalize_beam model group _) as [e|cg].
  - exists (snapshot fr group echodatas). split; [apply same_core_snapshot | done].
  - exists fr. split; [apply same_core_refl | done].
Qed.

Lemma same_core_times fr fr' : same_core fr fr' → same_times fr fr'.
Proof. intros (? & ? & ? & ?). by repeat split. Qed.

(** The step of a concatenated group, case by case. *)
Lemma concat_step_spec echodatas model p group fr fr' r :
  ¬ special_group group →
  present_datasets echodatas group ≠ [] →
  group_step echodatas model p group fr = (fr', r) →
  match concatenated SONAR_MODELS echodatas model p group with
  | inl e => r = inl e ∧ same_core fr fr'
  | inr cg =>
      if reversal_detected cg then
        match old_ping_time fr with
        | None =>
            ∃ da ts, ds_vars cg !! "ping_time" = Some da ∧
                     times_of (da_values da) = Some ts ∧ detect ts = true ∧
                     r = inr tt ∧
                     old_ping_time fr' = Some da ∧
                     new_ping_time fr' = Some (corrected da ts) ∧
                     warnings fr' = (warnings fr ++ [reversal_warning])%list ∧
                     result fr' =
                       setattr (result fr) group
                         (Some (drop_dims (with_ping_time cg (corrected da ts)) "concat_dim"))
        | Some _ =>
            match new_ping_time fr with
            | Some npt =>
                match ds_setitem cg "ping_time" npt with
                | inl e => r = inl e ∧ same_core fr fr'
                | inr cg' =>
                    r = inr tt ∧ same_times fr fr' ∧
                    result fr' = setattr (result fr) group (Some (drop_dims cg' "concat_dim"))
                end
            | None => (∃ e, r = inl e) ∧ same_core fr fr'
            end
        end
      else
        (r = inr tt ∧ same_times fr fr' ∧
         result fr' = setattr (result fr) group (Some (drop_dims cg "concat_dim")) ∧
         ∀ da, ds_vars cg !! "ping_time" = Some da → increasing_time da) ∨
        ((∃ e, r = inl e) ∧ same_core fr fr')
  end.
Proof.
  intros Hns Hsome Hrun.
  destruct (group_step_concat echodatas model p group fr Hns Hsome) as (fr0 & Hcore & Heq).
  rewrite Heq in Hrun. clear Heq.
  destruct (concatenated SONAR_MODELS echodatas model p group) as [e|cg].
  { by simplify_eq. }
  pose proof (same_core_snapshot fr group echodatas) as (Hso & Hsn & Hsr & Hsw).
  set (fr1 := snapshot fr group echodatas) in *.
  rewrite bind_run in Hrun.
  destruct (reversal_detected cg) eqn:Hrev.
  - destruct (old_ping_time fr) as [old|] eqn:Hold.
    + destruct (new_ping_time fr) as [npt|] eqn:Hnew.
      * rewrite (fix_ping_time_later cg fr1 old npt) in Hrun by congruence.
        destruct (ds_setitem cg "ping_time" npt) as [e|cg'].
        -- simplify_eq. split; [done|]. repeat split; simpl; congruence.
        -- rewrite store_group_run in Hrun. simplify_eq. simpl.
           split; [done|]. split; [repeat split; simpl; congruence|]. simpl; congruence.
      * apply reversal_detected_true in Hrev as (da & ts & Hda & Hts & Hd).
        unfold fix_ping_time, ds_contains in Hrun.
        rewrite bool_decide_eq_true_2 in Hrun by (rewrite Hda; eauto).
        rewrite bind_run in Hrun.
        unfold lift at 1, exist_reversed_time, ds_getitem in Hrun.
        rewrite Hda in Hrun. simpl in Hrun. rewrite Hts, Hd in Hrun.
        rewrite bind_run in Hrun. unfold gets at 1 in Hrun.
        rewrite Hso in Hrun. rewrite bind_run in Hrun. unfold gets at 1 in Hrun.
        rewrite Hsn in Hrun. unfold lift in Hrun. simplify_eq.
        split; [by eexists|]. repeat split; simpl; congruence.
    + apply reversal_detected_true in Hrev as (da & ts & Hda & Hts & Hd).
      rewrite (fix_ping_time_first cg fr1 da ts) in Hrun by congruence.
      rewrite store_group_run in Hrun. simplify_eq. simpl.
      exists da, ts. repeat split; try done; congruence.
  - destruct (fix_ping_time_none cg fr1 Hrev) as (r0 & Hfix & [[-> Hinc] | [e ->]]);
      rewrite Hfix in Hrun.
    + rewrite store_group_run in Hrun. simplify_eq. simpl. left.
      split; [done|]. split; [repeat split; simpl; congruence|].
      split; [simpl; congruence | done].
    + simplify_eq. right. split; [by eexists|]. repeat split; simpl; congruence.
Qed.


Lemma special_group_cases group :
  copied_group group ∨ group = "provenance" ∨ ¬ special_group group.
Proof.
  destruct (decide (copied_group group)) as [|Hc]; [by left|].
  destruct (decide (group = "provenance")) as [|Hp]; [by right; left|].
  right; right. by apply not_special.
Qed.

Lemma copied_is_special group : copied_group group → special_group group.
Proof.
  unfold special_group, copied_group. rewrite !elem_of_cons, !elem_of_nil. tauto.
Qed.

Lemma same_times_stored fr group value : same_times fr (stored fr group value).
Proof. by repeat split. Qed.

Lemma reversed_group_special echodatas model p group :
  special_group group → reversed_group SONAR_MODELS echodatas model p group = false.
Proof. intros H. unfold reversed_group. by rewrite bool_decide_eq_true_2. Qed.

Lemma reversed_group_concat echodatas model p group :
  ¬ special_group group →
  present_datasets echodatas group ≠ [] →
  reversed_group SONAR_MODELS echodatas model p group =
  match concatenated SONAR_MODELS echodatas model p group with
  | inr cg => reversal_detected cg
  | inl _ => false
  end.
Proof.
  intros H1 H2. unfold reversed_group.
  by rewrite (bool_decide_eq_false_2 _ H1), (bool_decide_eq_false_2 _ H2).
Qed.

(** What one step does to the kept time coordinates and to the warnings:
    at a detected reversal with no correction kept so far, the warning is
    appended and both coordinates are kept; in every other case, whether
    the step ends or raises, they are as before. *)
Lemma step_times echodatas model p group fr fr' r :
  group_step echodatas model p group fr = (fr', r) →
  if reversed_group SONAR_MODELS echodatas model p group
     && bool_decide (old_ping_time fr = None)
  then r = inr tt ∧
       warnings fr' = (warnings fr ++ [reversal_warning])%list ∧
       ∃ cg da ts,
         concatenated SONAR_MODELS echodatas model p group = inr cg ∧
         ds_vars cg !! "ping_time" = Some da ∧
         times_of (da_values da) = Some ts ∧ detect ts = true ∧
         old_ping_time fr' = Some da ∧
         new_ping_time fr' = Some (corrected da ts)
  else same_times fr fr'.
Proof.
  intros Hrun.
  destruct (special_group_cases group) as [Hc | [-> | Hns]].
  - rewrite reversed_group_special by by apply copied_is_special. simpl.
    destruct echodatas as [|first rest].
    + unfold combine_group in Hrun. rewrite bool_decide_eq_true_2 in Hrun by done.
      unfold lift in Hrun. simplify_eq. by repeat split.
    + rewrite group_step_copied in Hrun by done. simplify_eq. apply same_times_stored.
  - rewrite reversed_group_special
      by (unfold special_group; rewrite !elem_of_cons; auto).
    simpl. rewrite group_step_provenance in Hrun. simplify_eq. apply same_times_stored.
  - destruct (decide (present_datasets echodatas group = [])) as [Hnone | Hsome].
    + unfold reversed_group.
      rewrite (bool_decide_eq_false_2 _ Hns), (bool_decide_eq_true_2 _ Hnone). simpl.
      rewrite group_step_absent in Hrun by done. simplify_eq. apply same_times_stored.
    + rewrite reversed_group_concat by done.
      pose proof (concat_step_spec _ _ _ _ _ _ _ Hns Hsome Hrun) as Hspec.
      destruct (concatenated SONAR_MODELS echodatas model p group) as [e|cg]; simpl.
      { destruct Hspec as [_ Hcore]. by apply same_core_times. }
      destruct (reversal_detected cg); simpl.
      * destruct (old_ping_time fr) as [old|] eqn:Hold.
        -- rewrite bool_decide_eq_false_2 by done.
           destruct (new_ping_time fr) as [npt|].
           ++ destruct (ds_setitem cg "ping_time" npt).
              ** destruct Hspec as [_ Hcore]. by apply same_core_times.
              ** by destruct Hspec as (_ & Ht & _).
           ++ destruct Hspec as [_ Hcore]. by apply same_core_times.
        -- rewrite bool_decide_eq_true_2 by done.
           destruct Hspec as (da & ts & Hda & Hts & Hd & -> & Ho & Hn & Hw & _).
           split; [done|]. split; [done|]. by exists cg, da, ts.
      * destruct Hspec as [(_ & Ht & _ & _) | [_ Hcore]]; [done | by apply same_core_times].
Qed.

(** A step that ends stores one value under its own group name. *)
Lemma step_result_shape echodatas model p group fr fr' :
  group_step echodatas model p group fr = (fr', inr tt) →
  ∃ value, result fr' = setattr (result fr) group value.
Proof.
  intros Hrun.
  destruct (special_group_cases group) as [Hc | [-> | Hns]].
  - destruct echodatas as [|first rest].
    + unfold combine_group in Hrun. rewrite bool_decide_eq_true_2 in Hrun by done.
      discriminate Hrun.
    + rewrite group_step_copied in Hrun by done. simplify_eq. by eexists.
  - rewrite group_step_provenance in Hrun. simplify_eq. by eexists.
  - destruct (decide (present_datasets echodatas group = [])) as [Hnone | Hsome].
    + rewrite group_step_absent in Hrun by done. simplify_eq. by eexists.
    + pose proof (concat_step_spec _ _ _ _ _ _ _ Hns Hsome Hrun) as Hspec.
      destruct (concatenated SONAR_MODELS echodatas model p group) as [e|cg];
        [by destruct Hspec|].
      destruct (reversal_detected cg).
      * destruct (old_ping_time fr).
        -- destruct (new_ping_time fr) as [npt|]; [|by destruct Hspec as [[? ?] _]].
           destruct (ds_setitem cg "ping_time" npt); [by destruct Hspec|].
           destruct Hspec as (_ & _ & ->). by eexists.
        -- destruct Hspec as (da & ts & _ & _ & _ & _ & _ & _ & _ & ->). by eexists.
      * destruct Hspec as [(_ & _ & -> & _) | [[? ?] _]]; [by eexists | done].
Qed.

Lemma getattr_setattr_ne echodata group group' value :
  group ≠ group' → getattr (setattr echodata group' value) group = getattr echodata group.
Proof.
  intros Hne. unfold getattr, setattr. simpl.
  destruct value; [by rewrite lookup_insert_ne | by rewrite lookup_delete_ne].
Qed.

Lemma getattr_setattr_eq echodata group value :
  getattr (setattr echodata group value) group = value.
Proof.
  unfold getattr, setattr. simpl.
  destruct value; [by rewrite lookup_insert_eq | by rewrite lookup_delete_eq].
Qed.

Lemma step_result_other echodatas model p group group' fr fr' :
  group_step echodatas model p group' fr = (fr', inr tt) →
  group ≠ group' →
  getattr (result fr') group = getattr (result fr) group.
Proof.
  intros Hrun Hne. apply step_result_shape in Hrun as [value ->].
  by apply getattr_setattr_ne.
Qed.


(** ** The loop over the groups *)

Lemma for_each_nil {A} (body : A -> M unit) fr : for_each [] body fr = (fr, inr tt).
Proof. reflexivity. Qed.

Lemma for_each_cons_ok {A} (x : A) xs (body : A -> M unit) fr fr' :
  for_each (x :: xs) body fr = (fr', inr tt) ↔
  ∃ fr1, body x fr = (fr1, inr tt) ∧ for_each xs body fr1 = (fr', inr tt).
Proof.
  simpl. rewrite bind_run. destruct (body x fr) as [fr1 [e|[]]]; split.
  - done.
  - intros (fr2 & ? & _). done.
  - intros H. by exists fr1.
  - intros (fr2 & [= <-] & H). done.
Qed.

Lemma for_each_ok_invariant {A} (P : Frame -> Prop) (xs : list A) (body : A -> M unit)
    fr fr' :
  (∀ x fr0 fr1, x ∈ xs → body x fr0 = (fr1, inr tt) → P fr0 → P fr1) →
  for_each xs body fr = (fr', inr tt) → P fr → P fr'.
Proof.
  revert fr. induction xs as [|x xs IH]; intros fr Hbody Hrun HP.
  - rewrite for_each_nil in Hrun. by simplify_eq.
  - apply for_each_cons_ok in Hrun as (fr1 & H1 & H2).
    eapply IH; [| exact H2 |].
    + intros y fr0 fr2 Hy. apply Hbody. by right.
    + eapply Hbody; [by left | exact H1 | exact HP].
Qed.

Section Loop.

Variable echodatas : list EchoData.
Variable model : option string.
Variable p : string.

Local Abbreviation step := (group_step echodatas model p).
Local Abbreviation reversed := (reversed_group SONAR_MODELS echodatas model p).

Lemma loop_result_other groups group fr fr' :
  group ∉ groups →
  for_each groups step fr = (fr', inr tt) →
  getattr (result fr') group = getattr (result fr) group.
Proof.
  intros Hnotin Hrun.
  apply (for_each_ok_invariant
           (λ fr0, getattr (result fr0) group = getattr (result fr) group)
           groups step fr fr'); [|done|done].
  intros g fr0 fr1 Hg Hstep <-.
  eapply step_result_other; [exact Hstep|]. intros ->. contradiction.
Qed.

Lemma loop_split groups group fr0 fr :
  group ∈ groups → NoDup groups →
  for_each groups step fr0 = (fr, inr tt) →
  ∃ before after fr1 fr2,
    groups = (before ++ group :: after)%list ∧
    for_each before step fr0 = (fr1, inr tt) ∧
    step group fr1 = (fr2, inr tt) ∧
    for_each after step fr2 = (fr, inr tt) ∧
    getattr (result fr) group = getattr (result fr2) group.
Proof.
  intros Hin Hnd Hrun.
  apply list_elem_of_split in Hin as (before & after & ->).
  rewrite for_each_app in Hrun.
  destruct (for_each before step fr0) as [fr1 [e|[]]] eqn:E1; [done|].
  apply for_each_cons_ok in Hrun as (fr2 & H2 & H3).
  exists before, after, fr1, fr2. repeat split; try done.
  eapply loop_result_other; [|exact H3].
  apply NoDup_app in Hnd as (_ & _ & Hnd). by apply NoDup_cons in Hnd as [? _].
Qed.

Lemma same_times_trans fr1 fr2 fr3 :
  same_times fr1 fr2 → same_times fr2 fr3 → same_times fr1 fr3.
Proof. intros (? & ? & ?) (? & ? & ?). repeat split; congruence. Qed.

(** Once a correction is kept, no later group changes it or warns. *)
Lemma loop_times_later groups fr fr' r :
  old_ping_time fr ≠ None →
  for_each groups step fr = (fr', r) →
  same_times fr fr'.
Proof.
  revert fr. induction groups as [|g gs IH]; intros fr Hold Hrun.
  - rewrite for_each_nil in Hrun. simplify_eq. by repeat split.
  - simpl in Hrun. rewrite bind_run in Hrun.
    destruct (step g fr) as [fr1 r1] eqn:Estep.
    pose proof (step_times _ _ _ _ _ _ _ Estep) as Ht.
    rewrite (bool_decide_eq_false_2 _ Hold), andb_false_r in Ht.
    destruct r1 as [e|[]]; [by simplify_eq|].
    eapply same_times_trans; [exact Ht|].
    apply IH; [|done]. destruct Ht as (-> & _). done.
Qed.

(** Until then, the warning is emitted when the first group with a
    detected reversal is processed, and only then. *)
Lemma loop_times groups fr fr' r :
  old_ping_time fr = None →
  for_each groups step fr = (fr', r) →
  match r with
  | inr _ =>
      warnings fr' =
        (warnings fr ++ if existsb reversed groups then [reversal_warning] else [])%list ∧
      (old_ping_time fr' = None ↔ existsb reversed groups = false)
  | inl _ =>
      warnings fr' = warnings fr ∨
      warnings fr' = (warnings fr ++ [reversal_warning])%list
  end.
Proof.
  revert fr. induction groups as [|g gs IH]; intros fr Hold Hrun.
  - rewrite for_each_nil in Hrun. simplify_eq. simpl. by rewrite app_nil_r.
  - simpl in Hrun. rewrite bind_run in Hrun.
    destruct (step g fr) as [fr1 r1] eqn:Estep.
    pose proof (step_times _ _ _ _ _ _ _ Estep) as Ht.
    rewrite (bool_decide_eq_true_2 _ Hold), andb_true_r in Ht.
    simpl. destruct (reversed g) eqn:Hrev; simpl.
    + destruct Ht as (-> & Hw & cg & da & ts & _ & _ & _ & _ & Ho & _).
      assert (old_ping_time fr1 ≠ None) as Hsome by congruence.
      pose proof (loop_times_later gs fr1 fr' r Hsome Hrun) as (Ho' & _ & Hw').
      destruct r as [e|u].
      * right. congruence.
      * split; [congruence|]. split; [congruence | done].
    + destruct Ht as (Ho & _ & Hw).
      destruct r1 as [e|[]].
      * simplify_eq. by left.
      * specialize (IH fr1 ltac:(congruence) Hrun).
        destruct r as [e|u]; rewrite <- Hw; exact IH.
Qed.

End Loop.


(** ** After the loop: the provenance group is extended *)

Lemma attrs_name_not_ping_time g : "ping_time" ≠ g +:+ "_attrs".
Proof.
  intros H. symmetry in H.
  repeat (destruct g as [|? g]; simpl in H; try discriminate H; try (injection H as _ H)).
Qed.

Lemma attrs_name_not_src_filenames g : "src_filenames" ≠ g +:+ "_attrs".
Proof.
  intros H. symmetry in H.
  repeat (destruct g as [|? g]; simpl in H; try discriminate H; try (injection H as _ H)).
Qed.

(** ** Assignment of a variable *)

Lemma dims_without_other ds k name a d :
  k ≠ name → ds_vars ds !! name = Some a → da_dim a = Some d →
  dims_without ds k !! d = ds_dims ds !! d.
Proof.
  intros Hne Ha Hd. unfold dims_without.
  destruct (ds_vars ds !! k ≫= da_dim) as [d0|]; [|done].
  case_bool_decide as Huse; [done|].
  destruct (decide (d0 = d)) as [->|Hd0]; [|by rewrite lookup_delete_ne].
  exfalso. apply Huse. exists name, a. split; [done|]. split; [congruence | done].
Qed.

(** The assignment stores the array and keeps the attrs; a variable
    under another name stays, with the size of its dimension. *)
Lemma ds_setitem_ok ds name da ds' :
  ds_setitem ds name da = inr ds' →
  ds_vars ds' = <[name := da]> (ds_vars ds) ∧
  ds_attrs ds' = ds_attrs ds ∧
  (∀ other a, other ≠ name → sized ds other a → sized ds' other a).
Proof.
  unfold ds_setitem. intros H.
  assert (∀ dims, (∀ other a d, other ≠ name → ds_vars ds !! other = Some a →
                     da_dim a = Some d → dims !! d = Some (length (da_values a)) ∨
                     dims !! d = ds_dims ds !! d) →
            ds' = mkDataset dims (<[name := da]> (ds_vars ds)) (ds_attrs ds) →
            ds_vars ds' = <[name := da]> (ds_vars ds) ∧ ds_attrs ds' = ds_attrs ds ∧
            (∀ other a, other ≠ name → sized ds other a → sized ds' other a)) as Hshape.
  { intros dims Hdims ->. split; [done|]. split; [done|].
    intros other a Hne [Ha Hsize]. split; [simpl; by rewrite lookup_insert_ne|].
    intros d Hd. simpl.
    destruct (Hdims other a d Hne Ha Hd) as [Hl | Hl]; rewrite Hl; [done | by apply Hsize]. }
  destruct (da_dim da) as [d1|] eqn:Ed1.
  - case_bool_decide as Hconflict; [done|]. injection H as <-.
    eapply Hshape; [|done]. intros other a d Hne Ha Hd.
    destruct (decide (d1 = d)) as [->|Hd1].
    + left. rewrite lookup_insert_eq. f_equal.
      destruct (decide (length (da_values a) = length (da_values da))) as [|Hlen]; [done|].
      exfalso. apply Hconflict. exists other, a. by repeat split.
    + right. rewrite lookup_insert_ne by done. by eapply dims_without_other.
  - injection H as <-. eapply Hshape; [|done]. intros other a d Hne Ha Hd.
    right. by eapply dims_without_other.
Qed.

Lemma ds_setitem_array_ok ds name source da ds' :
  ds_setitem_array ds name source da = inr ds' →
  ds_attrs ds' = ds_attrs ds ∧
  ds_vars ds' !! name = Some da ∧
  (∀ other, other ≠ name → other ≠ source → ds_vars ds' !! other = ds_vars ds !! other) ∧
  (∀ other a, other ≠ name → other ≠ source → sized ds other a → sized ds' other a).
Proof.
  unfold ds_setitem_array. intros H.
  destruct (ds_setitem ds name da) as [e|ds1] eqn:E1; simpl in H; [done|].
  apply ds_setitem_ok in E1 as (Hv1 & Ha1 & Hs1).
  case_bool_decide as Hc.
  - destruct Hc as [_ Hne]. apply ds_setitem_ok in H as (Hv2 & Ha2 & Hs2).
    split; [congruence|]. split; [|split].
    + by rewrite Hv2, lookup_insert_ne, Hv1, lookup_insert_eq.
    + intros other H1 H2. by rewrite Hv2, lookup_insert_ne, Hv1, lookup_insert_ne.
    + intros other a H1 H2 Hs. by apply Hs2, Hs1.
  - injection H as <-. split; [done|]. split; [|split].
    + by rewrite Hv1, lookup_insert_eq.
    + intros other H1 _. by rewrite Hv1, lookup_insert_ne.
    + intros other a H1 _ Hs. by apply Hs1.
Qed.

Lemma ds_assign_nil ds : ds_assign ds [] = inr ds.
Proof. done. Qed.

Lemma ds_assign_cons ds k v rest :
  ds_assign ds ((k, v) :: rest) =
  res_bind (ds_setitem ds k (mkDataArray (Some k) v)) (λ ds', ds_assign ds' rest).
Proof.
  unfold ds_assign. simpl. destruct (ds_setitem ds k _) as [e|ds1]; simpl; [|done].
  induction rest as [|kv rest IH]; simpl; [done | apply IH].
Qed.

Lemma provenance_extended_refl prov : provenance_extended prov prov.
Proof. split; [done|]. by split. Qed.

Lemma provenance_extended_trans a b c :
  provenance_extended a b → provenance_extended b c → provenance_extended a c.
Proof.
  intros (Ha & Hd & Hv) (Ha' & Hd' & Hv'). split; [|split].
  - congruence.
  - intros name x Hname H. by apply Hd', Hd.
  - intros name Hname. rewrite Hv', Hv; done.
Qed.

Lemma result_extended_refl res : result_extended res res.
Proof.
  split; [done|]. destruct (getattr res "provenance"); [apply provenance_extended_refl | done].
Qed.

Lemma result_extended_trans a b c :
  result_extended a b → result_extended b c → result_extended a c.
Proof.
  intros [Ho Hp] [Ho' Hp']. split.
  - intros g Hg. rewrite Ho', Ho; done.
  - destruct (getattr a "provenance"), (getattr b "provenance"), (getattr c "provenance");
      try done. by eapply provenance_extended_trans.
Qed.

Lemma result_extended_set res prov prov' :
  getattr res "provenance" = Some prov →
  provenance_extended prov prov' →
  result_extended res (setattr res "provenance" (Some prov')).
Proof.
  intros Hp He. split.
  - intros g Hg. by apply getattr_setattr_ne.
  - by rewrite Hp, getattr_setattr_eq.
Qed.

Lemma ds_setitem_extended prov name da prov' :
  ds_setitem prov name da = inr prov' → attached_name name →
  provenance_extended prov prov'.
Proof.
  intros (Hv & Ha & Hs)%ds_setitem_ok Hname. split; [done|]. split.
  - intros other a Hother. apply Hs. by intros ->.
  - intros other Hother. rewrite Hv, lookup_insert_ne; [done|]. by intros ->.
Qed.

Lemma ds_setitem_array_extended prov da prov' :
  ds_setitem_array prov "old_ping_time" "ping_time" da = inr prov' →
  provenance_extended prov prov'.
Proof.
  intros (Ha & _ & Hv & Hs)%ds_setitem_array_ok. split; [done|]. split.
  - intros other a Hother. apply Hs; intros ->; apply Hother; [by left | by right; left].
  - intros other Hother. apply Hv; intros ->; apply Hother; [by left | by right; left].
Qed.

Lemma ds_assign_extended prov d prov' :
  ds_assign prov (attrs_items d) = inr prov' → provenance_extended prov prov'.
Proof.
  unfold attrs_items. revert prov.
  induction d as [|[g l] d IH]; intros prov; simpl.
  - rewrite ds_assign_nil. intros [= <-]. apply provenance_extended_refl.
  - rewrite ds_assign_cons.
    destruct (ds_setitem prov _ _) as [e|prov1] eqn:E1; simpl; [done|].
    intros H. eapply provenance_extended_trans; [|by apply IH].
    eapply ds_setitem_extended; [exact E1|]. right. right. by exists g.
Qed.

Lemma save_old_ping_time_ok fr fr' :
  save_old_ping_time fr = (fr', inr tt) →
  same_times fr fr' ∧ result_extended (result fr) (result fr').
Proof.
  unfold save_old_ping_time. rewrite bind_run. unfold gets at 1.
  destruct (old_ping_time fr) as [da|].
  - rewrite bind_run. unfold gets at 1.
    destruct (getattr (result fr) "provenance") as [prov|] eqn:Eprov; [|done].
    rewrite bind_run. unfold lift at 1.
    destruct (ds_setitem_array prov "old_ping_time" "ping_time" da) as [e|prov'] eqn:Eset;
      [done|].
    intros [= <-]. split; [by repeat split|]. simpl.
    apply (result_extended_set _ prov); [done|]. by eapply ds_setitem_array_extended.
  - intros [= <-]. split; [by repeat split | apply result_extended_refl].
Qed.

Lemma save_old_attrs_ok fr fr' :
  save_old_attrs fr = (fr', inr tt) →
  same_times fr fr' ∧ result_extended (result fr) (result fr').
Proof.
  unfold save_old_attrs. rewrite bind_run. unfold gets at 1.
  intros Hrun.
  eapply (for_each_ok_invariant
            (λ fr0, same_times fr fr0 ∧ result_extended (result fr) (result fr0)));
    [|exact Hrun|].
  - intros k fr0 fr1 _ Hstep [Ht He]. cbv beta in Hstep.
    rewrite bind_run in Hstep. unfold gets at 1 in Hstep.
    destruct (getattr (result fr0) "provenance") as [prov|] eqn:Eprov; [|done].
    rewrite bind_run in Hstep. unfold lift at 1 in Hstep.
    destruct (ds_assign prov _) as [e|prov'] eqn:Eassign; [done|].
    injection Hstep as <-. split.
    + destruct Ht as (? & ? & ?). by repeat split.
    + eapply result_extended_trans; [exact He|]. simpl.
      apply (result_extended_set _ prov); [done | by eapply ds_assign_extended].
  - split; [by repeat split | apply result_extended_refl].
Qed.


(** ** The whole call *)

Lemma save_old_ping_time_times fr : same_times fr (save_old_ping_time fr).1.
Proof.
  unfold save_old_ping_time. rewrite bind_run. unfold gets at 1.
  destruct (old_ping_time fr) as [da|]; [|by repeat split].
  rewrite bind_run. unfold gets at 1.
  destruct (getattr (result fr) "provenance") as [prov|]; [|by repeat split].
  rewrite bind_run. unfold lift at 1.
  destruct (ds_setitem_array prov "old_ping_time" "ping_time" da); by repeat split.
Qed.

Lemma save_old_attrs_times fr : same_times fr (save_old_attrs fr).1.
Proof.
  unfold save_old_attrs. rewrite bind_run. unfold gets at 1.
  apply (for_each_invariant (λ fr0, same_times fr fr0)); [|by repeat split].
  intros k fr0 _ Ht. rewrite bind_run. unfold gets at 1.
  destruct (getattr (result fr0) "provenance") as [prov|]; simpl; [|done].
  rewrite bind_run. unfold lift at 1.
  destruct (ds_assign prov _); simpl; [done|].
  destruct Ht as (? & ? & ?). by repeat split.
Qed.

Lemma checked_model_ok echodatas model :
  check_sonar_models None echodatas = inr model → checked_model echodatas = model.
Proof. unfold checked_model. by intros ->. Qed.

(** Every outcome of a call on a non-empty list: either the check of the
    tags failed and nothing was done, or the loop ran and what followed
    did not touch the kept time coordinates and the warnings. *)
Lemma combine_outcome echodatas combine_attrs :
  (combine echodatas combine_attrs).1 = initial_frame ∨
  ∃ m fr1 r1,
    check_sonar_models None echodatas = inr (Some m) ∧
    for_each group_map
      (group_step echodatas (Some m) (default "override" combine_attrs))
      initial_frame = (fr1, r1) ∧
    same_times fr1 (combine echodatas combine_attrs).1.
Proof.
  destruct echodatas as [|ed rest]; [by left|].
  rewrite combine_nonempty.
  destruct (check_sonar_models None (ed :: rest)) as [e|model] eqn:Echeck; [by left|].
  right.
  assert (∃ m, model = Some m) as [m ->].
  { apply check_sonar_models_none in Echeck as [[? _] | (m & -> & _)]; [done | by eexists]. }
  unfold after_check. rewrite bind_run.
  destruct (for_each group_map _ initial_frame) as [fr1 r1] eqn:Eloop.
  exists m, fr1, r1. split; [done|]. split; [done|].
  destruct r1 as [e|[]]; [by repeat split|].
  rewrite bind_run.
  pose proof (save_old_ping_time_times fr1) as Ht1.
  destruct (save_old_ping_time fr1) as [fr2 [e|[]]]; [done|].
  rewrite bind_run.
  pose proof (save_old_attrs_times fr2) as Ht2.
  destruct (save_old_attrs fr2) as [fr3 [e|[]]]; simpl in *;
    by eapply same_times_trans.
Qed.

(** A call that returns: the tags agree, the loop ended, and the record
    returned is the one the loop built, its provenance group extended. *)
Lemma combine_returns echodatas combine_attrs fr r :
  combine echodatas combine_attrs = (fr, inr r) →
  echodatas ≠ [] →
  ∃ m fr1,
    check_sonar_models None echodatas = inr (Some m) ∧
    Forall (λ ed, sonar_model ed = Some m) echodatas ∧
    for_each group_map
      (group_step echodatas (Some m) (default "override" combine_attrs))
      initial_frame = (fr1, inr tt) ∧
    same_times fr1 fr ∧
    result_extended (result fr1) r.
Proof.
  intros Hrun Hne. destruct echodatas as [|ed rest]; [done|].
  rewrite combine_nonempty in Hrun.
  destruct (check_sonar_models None (ed :: rest)) as [e|model] eqn:Echeck; [done|].
  pose proof Echeck as Hc.
  apply check_sonar_models_none in Hc as [[? _] | (m & -> & _ & Hall)]; [done|].
  unfold after_check in Hrun. rewrite bind_run in Hrun.
  destruct (for_each group_map _ initial_frame) as [fr1 [e|[]]] eqn:Eloop; [done|].
  rewrite bind_run in Hrun.
  destruct (save_old_ping_time fr1) as [fr2 [e|[]]] eqn:E2; [done|].
  rewrite bind_run in Hrun.
  destruct (save_old_attrs fr2) as [fr3 [e|[]]] eqn:E3; [done|].
  unfold gets in Hrun. injection Hrun as <- <-.
  apply save_old_ping_time_ok in E2 as [Ht2 He2].
  apply save_old_attrs_ok in E3 as [Ht3 He3].
  exists m, fr1. repeat split; try done.
  - destruct Ht2 as (? & ? & ?), Ht3 as (? & ? & ?). congruence.
  - destruct Ht2 as (? & ? & ?), Ht3 as (? & ? & ?). congruence.
  - destruct Ht2 as (? & ? & ?), Ht3 as (? & ? & ?). congruence.
  - by destruct (result_extended_trans _ _ _ He2 He3).
  - by destruct (result_extended_trans _ _ _ He2 He3).
Qed.

Lemma reversed_group_empty model p group :
  reversed_group SONAR_MODELS [] model p group = false.
Proof.
  unfold reversed_group. case_bool_decide; [done|].
  by rewrite bool_decide_eq_true_2.
Qed.

(** C4: in one call the reversal warning is emitted at most once,
    whatever the outcome; while the loop runs, it has been emitted
    exactly when a group with a detected reversal has been processed, so
    it is emitted at the first such group and not again; a call that
    returns has warned once if some group had a reversal and not at all
    otherwise. *)
Theorem warning_emitted_once (echodatas : list EchoData) (combine_attrs : option string) :
  let model := checked_model echodatas in
  let policy := default "override" combine_attrs in
  let reversed := reversed_group SONAR_MODELS echodatas model policy in
  (warnings (combine echodatas combine_attrs).1 = [] ∨
   warnings (combine echodatas combine_attrs).1 = [reversal_warning]) ∧
  (∀ r, (combine echodatas combine_attrs).2 = inr r →
        warnings (combine echodatas combine_attrs).1 =
          if existsb reversed group_map then [reversal_warning] else []) ∧
  (∀ processed remaining fr,
     group_map = (processed ++ remaining)%list →
     for_each processed (group_step echodatas model policy) initial_frame = (fr, inr tt) →
     warnings fr = if existsb reversed processed then [reversal_warning] else []).
Proof.
  intros model policy reversed. split; [|split].
  - destruct (combine_outcome echodatas combine_attrs) as [-> | (m & fr1 & r1 & _ & Hloop & Ht)];
      [by left|].
    destruct Ht as (_ & _ & ->).
    pose proof (loop_times _ _ _ _ initial_frame _ _ eq_refl Hloop) as Hw.
    destruct r1 as [e|u].
    + destruct Hw as [-> | ->]; [by left | by right].
    + destruct Hw as [-> _]. simpl. destruct (existsb _ group_map); [by right | by left].
  - intros r Hr.
    destruct echodatas as [|ed rest].
    { simpl. replace (existsb reversed group_map) with false; [done|].
      symmetry. apply not_true_iff_false. rewrite existsb_exists.
      intros (g & _ & Hg). unfold reversed in Hg. by rewrite reversed_group_empty in Hg. }
    destruct (combine (ed :: rest) combine_attrs) as [fr r0] eqn:Erun.
    simpl in Hr. subst r0.
    apply combine_returns in Erun as (m & fr1 & Hcheck & _ & Hloop & Ht & _); [|done].
    simpl. destruct Ht as (_ & _ & ->).
    unfold reversed, model. rewrite (checked_model_ok _ _ Hcheck).
    by destruct (loop_times _ _ _ _ initial_frame _ _ eq_refl Hloop) as [-> _].
  - intros processed remaining fr _ Hloop.
    by destruct (loop_times _ _ _ _ initial_frame _ _ eq_refl Hloop) as [-> _].
Qed.


(** ** Strictly increasing acquisition time *)

Lemma drop_dims_lookup ds d name da :
  ds_vars (drop_dims ds d) !! name = Some da → ds_vars ds !! name = Some da.
Proof. unfold drop_dims. simpl. rewrite map_lookup_filter_Some. by intros [? _]. Qed.

Lemma corrected_increasing da ts : increasing_time (corrected da ts).
Proof.
  exists (correct ts). simpl. split; [apply times_of_CTime | apply correct_increasing].
Qed.

Lemma times_increasing_stored fr fr' group value :
  times_increasing fr →
  new_ping_time fr' = new_ping_time fr →
  result fr' = setattr (result fr) group value →
  (¬ copied_group group →
   ∀ ds da, value = Some ds → ds_vars ds !! "ping_time" = Some da → increasing_time da) →
  times_increasing fr'.
Proof.
  intros [Hn Hr] Hnew Hres Hval. split.
  - intros npt. rewrite Hnew. apply Hn.
  - intros g ds da Hc. rewrite Hres.
    destruct (decide (g = group)) as [->|Hne].
    + rewrite getattr_setattr_eq. intros Hv. by apply Hval.
    + rewrite getattr_setattr_ne by done. by apply Hr.
Qed.

Lemma step_times_increasing echodatas model p group fr fr' :
  group_step echodatas model p group fr = (fr', inr tt) →
  times_increasing fr → times_increasing fr'.
Proof.
  intros Hrun Hinv.
  destruct (special_group_cases group) as [Hc | [-> | Hns]].
  - destruct echodatas as [|first rest].
    + unfold combine_group in Hrun. rewrite bool_decide_eq_true_2 in Hrun by done.
      discriminate Hrun.
    + rewrite group_step_copied in Hrun by done. simplify_eq.
      eapply times_increasing_stored; [done | done | done |]. intros Hnc. contradiction.
  - rewrite group_step_provenance in Hrun. simplify_eq.
    eapply times_increasing_stored; [done | done | done |].
    intros _ ds da [= <-] Hda. apply drop_dims_lookup in Hda.
    simpl in Hda. by rewrite lookup_singleton_ne in Hda.
  - destruct (decide (present_datasets echodatas group = [])) as [Hnone | Hsome].
    + rewrite group_step_absent in Hrun by done. simplify_eq.
      eapply times_increasing_stored; [done | done | done |]. by intros.
    + pose proof (concat_step_spec _ _ _ _ _ _ _ Hns Hsome Hrun) as Hspec.
      destruct (concatenated SONAR_MODELS echodatas model p group) as [e|cg];
        [by destruct Hspec|].
      destruct (reversal_detected cg).
      * destruct (old_ping_time fr).
        -- destruct (new_ping_time fr) as [npt|] eqn:Hnpt; [|by destruct Hspec as [[? ?] _]].
           destruct (ds_setitem cg "ping_time" npt) as [e|cg'] eqn:Eset; [by destruct Hspec|].
           destruct Hspec as (_ & (_ & Hnew & _) & Hres).
           eapply times_increasing_stored; [done | done | done |].
           intros _ ds da [= <-] Hda. apply drop_dims_lookup in Hda.
           apply ds_setitem_ok in Eset as (Hv & _). rewrite Hv, lookup_insert_eq in Hda.
           simplify_eq. destruct Hinv as [Hn _]. by apply Hn.
        -- destruct Hspec as (da & ts & _ & _ & _ & _ & _ & Hnew & _ & Hres).
           split.
           ++ intros npt. rewrite Hnew. intros [= <-]. apply corrected_increasing.
           ++ intros g ds da' Hc. rewrite Hres.
              destruct (decide (g = group)) as [->|Hne].
              ** rewrite getattr_setattr_eq. intros [= <-] Hda.
                 apply drop_dims_lookup in Hda. simpl in Hda.
                 rewrite lookup_insert_eq in Hda. simplify_eq.
                 apply corrected_increasing.
              ** rewrite getattr_setattr_ne by done. destruct Hinv as [_ Hr]. by apply Hr.
      * destruct Hspec as [(_ & (_ & Hnew & _) & Hres & Hinc) | [[? ?] _]]; [|done].
        eapply times_increasing_stored; [done | done | done |].
        intros _ ds da [= <-] Hda. apply drop_dims_lookup in Hda. by apply Hinc.
Qed.

Lemma times_increasing_initial : times_increasing initial_frame.
Proof.
  split; [done|]. intros g ds da _. unfold getattr. simpl. by rewrite lookup_empty.
Qed.

(** X20: in every group of the returned record other than "top" and
    "sonar" (which are copied from the first record as they are) and
    "provenance" (which is built anew), a [ping_time] coordinate is an
    array of timestamps that is strictly increasing: it had no reversal,
    or it was repaired, or it was overwritten with the repaired
    coordinate kept by the call. *)
Theorem concatenated_groups_time_increasing (echodatas : list EchoData)
    (combine_attrs : option string) (fr : Frame) (r : EchoData) :
  combine echodatas combine_attrs = (fr, inr r) →
  ∀ group ds da,
    ¬ special_group group →
    getattr r group = Some ds →
    ds_vars ds !! "ping_time" = Some da →
    increasing_time da.
Proof.
  intros Hrun group ds da Hs Hds Hda.
  destruct echodatas as [|ed rest].
  { injection Hrun as _ <-. unfold getattr in Hds. simpl in Hds.
    by rewrite lookup_empty in Hds. }
  apply combine_returns in Hrun as (m & fr1 & _ & _ & Hloop & _ & [Hother _]); [|done].
  assert (times_increasing fr1) as [_ Hinv].
  { eapply (for_each_ok_invariant times_increasing); [|exact Hloop|].
    - intros g fr0 fr2 _. apply step_times_increasing.
    - apply times_increasing_initial. }
  assert (group ≠ "provenance") as Hne.
  { intros ->. apply Hs. unfold special_group. rewrite !elem_of_cons. auto. }
  apply (Hinv group ds da); [|by rewrite <- Hother | done].
  intros Hc. apply Hs. by apply copied_is_special.
Qed.


(** ** The provenance group *)

Lemma loop_provenance echodatas model p groups fr fr' :
  "provenance" ∈ groups →
  for_each groups (group_step echodatas model p) fr = (fr', inr tt) →
  getattr (result fr') "provenance" =
  Some (drop_dims (provenance_of (origin <$> echodatas)) "concat_dim").
Proof.
  revert fr. induction groups as [|g gs IH]; intros fr Hin Hrun.
  - by apply elem_of_nil in Hin.
  - apply for_each_cons_ok in Hrun as (fr1 & Hstep & Hrest).
    destruct (decide ("provenance" ∈ gs)) as [Hgs | Hgs]; [by eapply IH|].
    apply elem_of_cons in Hin as [<- | Hin]; [|done].
    rewrite (loop_result_other _ _ _ _ _ _ _ Hgs Hrest).
    rewrite group_step_provenance in Hstep. injection Hstep as <-.
    simpl. apply getattr_setattr_eq.
Qed.

Lemma provenance_file_dim input_paths :
  ds_dims (drop_dims (provenance_of input_paths) "concat_dim") !! "file" =
  Some (length input_paths).
Proof.
  unfold drop_dims, assemble_combined_provenance. simpl.
  rewrite lookup_delete_ne by done. apply lookup_singleton_eq.
Qed.

Lemma provenance_src_filenames input_paths :
  ds_vars (drop_dims (provenance_of input_paths) "concat_dim") !! "src_filenames" =
  Some (mkDataArray (Some "file") (CStr <$> input_paths)).
Proof.
  unfold drop_dims, assemble_combined_provenance. simpl.
  apply map_lookup_filter_Some. split; [apply lookup_singleton_eq | done].
Qed.

Lemma src_filenames_not_attached : ¬ attached_name "src_filenames".
Proof.
  intros [H | [H | [g H]]]; [discriminate H | discriminate H |].
  by apply attrs_name_not_src_filenames in H.
Qed.

Lemma provenance_sized input_paths :
  sized (drop_dims (provenance_of input_paths) "concat_dim") "src_filenames"
        (mkDataArray (Some "file") (CStr <$> input_paths)).
Proof.
  split; [apply provenance_src_filenames|]. intros d [= <-].
  rewrite provenance_file_dim. simpl. by rewrite length_fmap.
Qed.

(** C9 (amended): for every non-empty list of N records on which the
    call returns, the provenance group of the returned record has a
    "file" dimension of length N and a [src_filenames] variable over it
    that holds, in order, the origin of each record: its source file
    path, or its converted path when the source file path is [None]. *)
Theorem provenance_src_filenames_in_order (echodatas : list EchoData)
    (combine_attrs : option string) (fr : Frame) (r : EchoData) :
  combine echodatas combine_attrs = (fr, inr r) →
  echodatas ≠ [] →
  "provenance" ∈ group_map →
  ∃ prov,
    getattr r "provenance" = Some prov ∧
    ds_dims prov !! "file" = Some (length echodatas) ∧
    ds_vars prov !! "src_filenames" =
      Some (mkDataArray (Some "file") (CStr <$> (origin <$> echodatas))).
Proof.
  intros Hrun Hne Hin.
  apply combine_returns in Hrun as (m & fr1 & _ & _ & Hloop & _ & [_ Hprov]); [|done].
  rewrite (loop_provenance _ _ _ _ _ _ Hin Hloop) in Hprov.
  destruct (getattr r "provenance") as [prov|]; [|done].
  destruct Hprov as (_ & Hdims & Hvars).
  exists prov. split; [done|]. split.
  - destruct (Hdims "src_filenames" _ src_filenames_not_attached (provenance_sized _))
      as [_ Hsize].
    rewrite (Hsize "file" eq_refl). simpl. by rewrite !length_fmap.
  - rewrite Hvars; [apply provenance_src_filenames | apply src_filenames_not_attached].
Qed.


(** ** Concatenated groups *)

Lemma agree_except_refl names ds : agree_except names ds ds.
Proof. split; [done|]. by split. Qed.

Lemma agree_except_trans names a b c :
  agree_except names a b → agree_except names b c → agree_except names a c.
Proof.
  intros (Ha & Hd & Hv) (Ha' & Hd' & Hv'). split; [congruence|]. split.
  - intros name x H Hs. by apply Hd', Hd.
  - intros name H. rewrite Hv', Hv; done.
Qed.

Lemma agree_except_weaken names names' a b :
  names ⊆ names' → agree_except names a b → agree_except names' a b.
Proof.
  intros Hsub (Ha & Hd & Hv). split; [done|]. split.
  - intros name x H. apply Hd. intros Hin. apply H, Hsub, Hin.
  - intros name H. apply Hv. intros Hin. apply H, Hsub, Hin.
Qed.

Lemma ds_setitem_agree ds name da ds' :
  ds_setitem ds name da = inr ds' → agree_except [name] ds ds'.
Proof.
  intros (Hv & Ha & Hd)%ds_setitem_ok. split; [done|]. split.
  - intros name' a Hne. apply Hd. intros ->. apply Hne. by left.
  - intros name' Hne. rewrite Hv. apply lookup_insert_ne.
    intros ->. apply Hne. by left.
Qed.

Lemma astype_var_agree ds name n ds' :
  astype_var ds name n = inr ds' → agree_except [name] ds ds'.
Proof.
  unfold astype_var. destruct (ds_getitem ds name); simpl; [done|].
  apply ds_setitem_agree.
Qed.

Lemma normalize_beam_agree model group cg cg' :
  normalize_beam model group cg = inr cg' → agree_except normalized_names cg cg'.
Proof.
  unfold normalize_beam, normalized_names. intros H.
  repeat case_bool_decide; simplify_eq; try apply agree_except_refl.
  - destruct (astype_var cg _ 10) as [|cg1] eqn:E1; simpl in H; [done|].
    apply astype_var_agree in E1, H.
    eapply agree_except_trans; (eapply agree_except_weaken; [|eassumption]);
      intros x; rewrite !elem_of_cons, !elem_of_nil; tauto.
  - destruct (astype_var cg _ 10) as [|cg1] eqn:E1; simpl in H; [done|].
    apply astype_var_agree in E1, H.
    eapply agree_except_trans; (eapply agree_except_weaken; [|eassumption]);
      intros x; rewrite !elem_of_cons, !elem_of_nil; tauto.
Qed.

Lemma with_ping_time_agree cg da : agree_except ["ping_time"] cg (with_ping_time cg da).
Proof.
  assert (∀ name, name ∉ ["ping_time"] →
            ds_vars (with_ping_time cg da) !! name = ds_vars cg !! name) as Hv.
  { intros name Hne. simpl. apply lookup_insert_ne. intros <-. apply Hne. by left. }
  split; [done|]. split; [|done].
  intros name a Hne [Ha Hs]. split; [by rewrite Hv | done].
Qed.

(** The concatenated group, taken apart. *)
Lemma concatenated_ok echodatas m p group cg :
  concatenated SONAR_MODELS echodatas (Some m) p group = inr cg →
  ∃ cat,
    xr_combine_nested (present_datasets echodatas group)
      (concat_dim_of (SONAR_MODELS m) group) (data_vars_of (SONAR_MODELS m) group)
      (policy_passed p) = inr cat ∧
    normalize_beam (Some m) group
      (if bool_decide (p = "overwrite_conflicts")
       then ds_attrs_update cat (union_attrs (present_datasets echodatas group))
       else cat) = inr cg.
Proof.
  unfold concatenated. simpl.
  destruct (xr_combine_nested _ _ _ _) as [e|cat]; simpl; [done|].
  intros H. by exists cat.
Qed.

Lemma xr_combine_nested_ok datasets d mode p cat :
  xr_combine_nested datasets d mode p = inr cat →
  merge_attrs (ds_attrs <$> datasets) p = inr (ds_attrs cat) ∧
  ds_dims cat = concat_sizes d datasets ∧
  ds_vars cat = concat_vars d datasets.
Proof.
  unfold xr_combine_nested. case_bool_decide; [|done].
  destruct (merge_attrs _ p) as [e|attrs]; simpl; [done|].
  intros [= <-]. done.
Qed.

(** The step that stores a group which is not the provenance group, in
    a call that returns. *)
Lemma group_stored echodatas combine_attrs fr r group :
  combine echodatas combine_attrs = (fr, inr r) →
  echodatas ≠ [] →
  NoDup group_map → group ∈ group_map →
  group ≠ "provenance" →
  ∃ m before after fr1 fr2,
    checked_model echodatas = Some m ∧
    Forall (λ ed, sonar_model ed = Some m) echodatas ∧
    group_map = (before ++ group :: after)%list ∧
    for_each before (group_step echodatas (Some m) (default "override" combine_attrs))
      initial_frame = (fr1, inr tt) ∧
    group_step echodatas (Some m) (default "override" combine_attrs) group fr1
      = (fr2, inr tt) ∧
    getattr r group = getattr (result fr2) group ∧
    (old_ping_time fr1 ≠ None → new_ping_time fr = new_ping_time fr1).
Proof.
  intros Hrun Hne Hnd Hin Hnp.
  apply combine_returns in Hrun as (m & frl & Hcheck & Hall & Hloop & Ht & [Hother _]);
    [|done].
  destruct (loop_split _ _ _ _ _ _ _ Hin Hnd Hloop)
    as (before & after & fr1 & fr2 & -> & Hb & Hs & Ha & Hg).
  exists m, before, after, fr1, fr2.
  split; [by apply checked_model_ok|]. repeat split; try done.
  - rewrite Hother by done. exact Hg.
  - intros Hold.
    pose proof (step_times _ _ _ _ _ _ _ Hs) as Hst.
    rewrite (bool_decide_eq_false_2 _ Hold), andb_false_r in Hst.
    destruct Hst as (Ho2 & Hn2 & _).
    assert (old_ping_time fr2 ≠ None) as Hold2 by congruence.
    destruct (loop_times_later _ _ _ _ _ _ _ Hold2 Ha) as (_ & Hn3 & _).
    destruct Ht as (_ & Hn4 & _). congruence.
Qed.


Lemma drop_dims_sized ds d name a :
  da_dim a ≠ Some d → sized ds name a → sized (drop_dims ds d) name a.
Proof.
  intros Hne [Ha Hsize]. split.
  - simpl. apply map_lookup_filter_Some. by split.
  - intros d' Hd'. simpl. rewrite lookup_delete_ne by congruence. by apply Hsize.
Qed.

Lemma drop_dims_agree (names : list string) cg cg' d :
  agree_except names cg cg' →
  ds_attrs (drop_dims cg' d) = ds_attrs cg ∧
  (∀ name a, name ∉ names → da_dim a ≠ Some d → sized cg name a →
             sized (drop_dims cg' d) name a) ∧
  (∀ name, name ∉ names →
           ds_vars (drop_dims cg' d) !! name = ds_vars (drop_dims cg d) !! name).
Proof.
  intros (Ha & Hd & Hv). split; [done|]. split.
  - intros name a Hname Hne Hs. apply drop_dims_sized; [done|]. by apply Hd.
  - intros name Hname. simpl. rewrite !map_lookup_filter, Hv by done. done.
Qed.

(** The value stored under a concatenated group by a call that returns:
    the group as concatenated, its [ping_time] possibly replaced, the
    synthetic dimension dropped. *)
Lemma concatenated_group_value echodatas combine_attrs fr r group :
  combine echodatas combine_attrs = (fr, inr r) →
  NoDup group_map → group ∈ group_map →
  ¬ special_group group →
  present_datasets echodatas group ≠ [] →
  ∃ m cg cg',
    checked_model echodatas = Some m ∧
    Forall (λ ed, sonar_model ed = Some m) echodatas ∧
    concatenated SONAR_MODELS echodatas (Some m) (default "override" combine_attrs) group
      = inr cg ∧
    agree_except ["ping_time"] cg cg' ∧
    (reversal_detected cg = false → cg' = cg) ∧
    getattr r group = Some (drop_dims cg' "concat_dim").
Proof.
  intros Hrun Hnd Hin Hns Hsome.
  assert (echodatas ≠ []) as Hne by (by intros ->).
  pose proof Hns as [_ Hnp]%not_special.
  destruct (group_stored _ _ _ _ _ Hrun Hne Hnd Hin Hnp)
    as (m & before & after & fr1 & fr2 & Hm & Hall & _ & _ & Hstep & Hget & _).
  pose proof (concat_step_spec _ _ _ _ _ _ _ Hns Hsome Hstep) as Hspec.
  destruct (concatenated SONAR_MODELS echodatas (Some m) _ group) as [e|cg] eqn:Ecg;
    [by destruct Hspec|].
  exists m, cg.
  destruct (reversal_detected cg) eqn:Hrev.
  - destruct (old_ping_time fr1).
    + destruct (new_ping_time fr1) as [npt|]; [|by destruct Hspec as [[? ?] _]].
      destruct (ds_setitem cg "ping_time" npt) as [e|cg'] eqn:Eset; [by destruct Hspec|].
      destruct Hspec as (_ & _ & Hres). exists cg'.
      split; [done|]. split; [done|]. split; [done|].
      split; [by eapply ds_setitem_agree|]. split; [done|].
      by rewrite Hget, Hres, getattr_setattr_eq.
    + destruct Hspec as (da & ts & _ & _ & _ & _ & _ & _ & _ & Hres).
      exists (with_ping_time cg (corrected da ts)).
      split; [done|]. split; [done|]. split; [done|].
      split; [apply with_ping_time_agree|]. split; [done|].
      by rewrite Hget, Hres, getattr_setattr_eq.
  - destruct Hspec as [(_ & _ & Hres & _) | [[? ?] _]]; [|done].
    exists cg.
    split; [done|]. split; [done|]. split; [done|].
    split; [apply agree_except_refl|]. split; [done|].
    by rewrite Hget, Hres, getattr_setattr_eq.
Qed.

(** The same, in terms of the concatenation itself. *)
Lemma concatenated_group_final echodatas combine_attrs fr r group :
  combine echodatas combine_attrs = (fr, inr r) →
  NoDup group_map → group ∈ group_map →
  ¬ special_group group →
  present_datasets echodatas group ≠ [] →
  let p := default "override" combine_attrs in
  ∃ m cat ds,
    checked_model echodatas = Some m ∧
    xr_combine_nested (present_datasets echodatas group)
      (concat_dim_of (SONAR_MODELS m) group) (data_vars_of (SONAR_MODELS m) group)
      (policy_passed p) = inr cat ∧
    getattr r group = Some ds ∧
    ds_attrs ds =
      (if bool_decide (p = "overwrite_conflicts")
       then dict_update (ds_attrs cat) (union_attrs (present_datasets echodatas group))
       else ds_attrs cat) ∧
    (∀ name a, (group = "beam" → name ∉ normalized_names) →
               (name = "ping_time" →
                reversed_group SONAR_MODELS echodatas (Some m) p group = false) →
               da_dim a ≠ Some "concat_dim" → sized cat name a → sized ds name a) ∧
    (∀ name, name ∉ "ping_time" :: normalized_names →
             ds_vars ds !! name = ds_vars (drop_dims cat "concat_dim") !! name).
Proof.
  intros Hrun Hnd Hin Hns Hsome p.
  destruct (concatenated_group_value _ _ _ _ _ Hrun Hnd Hin Hns Hsome)
    as (m & cg & cg' & Hm & _ & Hcg & Hfix & Hsame & Hget).
  pose proof Hcg as Hcg0.
  apply concatenated_ok in Hcg as (cat & Hcat & Hnorm).
  pose proof Hnorm as Hnorm0.
  apply normalize_beam_agree in Hnorm.
  set (cat' := if bool_decide (p = "overwrite_conflicts")
               then ds_attrs_update cat (union_attrs (present_datasets echodatas group))
               else cat) in *.
  assert (agree_except ("ping_time" :: normalized_names) cat' cg') as Hagree.
  { eapply agree_except_trans; (eapply agree_except_weaken; [|eassumption]);
      intros x; unfold normalized_names; rewrite !elem_of_cons, !elem_of_nil; tauto. }
  destruct (drop_dims_agree _ _ _ "concat_dim" Hagree) as (Ha & Hd & Hv).
  exists m, cat, (drop_dims cg' "concat_dim").
  split; [done|]. split; [done|]. split; [done|]. split; [|split].
  - rewrite Ha. subst cat'. by destruct (bool_decide (p = "overwrite_conflicts")).
  - intros name a Hname Hping Hne Hs.
    assert (sized cat' name a) as Hs'.
    { subst cat'. unfold p.
      destruct (bool_decide (default "override" combine_attrs = "overwrite_conflicts"));
        exact Hs. }
    assert (sized cg name a) as Hcgs.
    { destruct (decide (group = "beam")) as [Hbeam | Hbeam].
      - destruct Hnorm as (_ & Hsz & _). apply Hsz; [by apply Hname | done].
      - unfold normalize_beam in Hnorm0.
        rewrite (bool_decide_eq_false_2 _ Hbeam) in Hnorm0. by injection Hnorm0 as <-. }
    apply drop_dims_sized; [done|].
    destruct (decide (name = "ping_time")) as [->|Hnp].
    + rewrite Hsame; [done|]. specialize (Hping eq_refl).
      unfold reversed_group in Hping.
      rewrite (bool_decide_eq_false_2 _ Hns), (bool_decide_eq_false_2 _ Hsome) in Hping.
      fold p in Hcg0. by rewrite Hcg0 in Hping.
    + destruct Hfix as (_ & Hsz & _). apply Hsz; [|done].
      rewrite elem_of_cons, elem_of_nil. tauto.
  - intros name Hname. rewrite Hv by done.
    subst cat'. by destruct (bool_decide (p = "overwrite_conflicts")).
Qed.


(** ** Attribute policies *)

Lemma merge_attrs_override first rest :
  merge_attrs (first :: rest) "override" = inr first.
Proof.
  unfold merge_attrs.
  rewrite bool_decide_eq_false_2 by done. by rewrite bool_decide_eq_true_2.
Qed.

(** C10: a call without [combine_attrs] is the call with "override";
    every concatenated group of the record it returns has the attrs of
    the first record that has the group, as they are. *)
Theorem default_policy_is_override (echodatas : list EchoData) :
  combine echodatas None = combine echodatas (Some "override") ∧
  ∀ fr r group first rest,
    combine echodatas None = (fr, inr r) →
    NoDup group_map → group ∈ group_map →
    ¬ special_group group →
    present_datasets echodatas group = first :: rest →
    ∃ ds, getattr r group = Some ds ∧ ds_attrs ds = ds_attrs first.
Proof.
  split; [reflexivity|].
  intros fr r group first rest Hrun Hnd Hin Hns Hpresent.
  destruct (concatenated_group_final _ _ _ _ _ Hrun Hnd Hin Hns)
    as (m & cat & ds & _ & Hcat & Hget & Hattrs & _); [by rewrite Hpresent|].
  exists ds. split; [done|]. rewrite Hattrs.
  change (default "override" None) with "override" in *.
  rewrite bool_decide_eq_false_2 by done.
  apply xr_combine_nested_ok in Hcat as (Hmerge & _).
  rewrite Hpresent, fmap_cons in Hmerge. unfold policy_passed in Hmerge.
  rewrite bool_decide_eq_false_2 in Hmerge by done.
  rewrite merge_attrs_override in Hmerge. congruence.
Qed.

Lemma foldl_update_lookup (acc : Attrs) datasets key :
  foldl (λ total ds, dict_update total (ds_attrs ds)) acc datasets !! key =
  match last_defined key datasets with
  | Some v => Some v
  | None => acc !! key
  end.
Proof.
  revert acc. induction datasets as [|ds rest IH]; intros acc; simpl; [done|].
  rewrite IH. destruct (last_defined key rest); [done|].
  unfold dict_update. rewrite lookup_union.
  destruct (ds_attrs ds !! key), (acc !! key); done.
Qed.

Lemma union_attrs_lookup datasets key :
  union_attrs datasets !! key = last_defined key datasets.
Proof.
  unfold union_attrs. rewrite foldl_update_lookup, lookup_empty.
  by destruct (last_defined key datasets).
Qed.

(** C5: with "overwrite_conflicts" no attribute conflict is raised; the
    groups are concatenated with the attrs dropped and the union of the
    attrs is applied afterwards, so that in a concatenated group of the
    record returned every key holds the value of the last contributing
    dataset, in input order, that defines it. *)
Theorem overwrite_conflicts_last_wins (echodatas : list EchoData) :
  (∀ msg, (combine echodatas (Some "overwrite_conflicts")).2 ≠ inl (MergeError msg)) ∧
  ∀ fr r group,
    combine echodatas (Some "overwrite_conflicts") = (fr, inr r) →
    NoDup group_map → group ∈ group_map →
    ¬ special_group group →
    present_datasets echodatas group ≠ [] →
    ∃ m cat ds,
      checked_model echodatas = Some m ∧
      xr_combine_nested (present_datasets echodatas group)
        (concat_dim_of (SONAR_MODELS m) group) (data_vars_of (SONAR_MODELS m) group)
        "drop" = inr cat ∧
      ds_attrs cat = ∅ ∧
      getattr r group = Some ds ∧
      ds_attrs ds = dict_update (ds_attrs cat) (union_attrs (present_datasets echodatas group)) ∧
      ∀ key, ds_attrs ds !! key = last_defined key (present_datasets echodatas group).
Proof.
  split.
  - intros msg Hraise. destruct echodatas as [|ed rest]; [done|].
    rewrite combine_nonempty in Hraise.
    destruct (check_sonar_models None (ed :: rest)) as [e|model] eqn:Echeck.
    + simpl in Hraise. injection Hraise as ->.
      by apply check_sonar_models_error in Echeck as [?|?].
    + destruct (rest_of_call _ _ _ initial_frame) as [fr r] eqn:E.
      simpl in Hraise. subst r.
      assert (plain_error (MergeError msg)) as [_ Hno]; [|by apply (Hno msg)].
      eapply (after_check_raises_gen plain_error); [done | | exact E].
      intros g. apply combine_group_raises_overwrite.
  - intros fr r group Hrun Hnd Hin Hns Hsome.
    destruct (concatenated_group_final _ _ _ _ _ Hrun Hnd Hin Hns Hsome)
      as (m & cat & ds & Hm & Hcat & Hget & Hattrs & _).
    change (default "override" (Some "overwrite_conflicts"))
      with "overwrite_conflicts" in *.
    rewrite bool_decide_eq_true_2 in Hattrs by done.
    unfold policy_passed in Hcat. rewrite bool_decide_eq_true_2 in Hcat by done.
    assert (ds_attrs cat = ∅) as Hempty.
    { apply xr_combine_nested_ok in Hcat as (Hmerge & _).
      rewrite merge_attrs_drop in Hmerge. congruence. }
    exists m, cat, ds. repeat split; try done.
    intros key. rewrite Hattrs, Hempty. unfold dict_update.
    rewrite (right_id_L ∅ (∪)). apply union_attrs_lookup.
Qed.

(** ** Concatenation of the records that have the group *)

(** For datasets that all hold [name] over [d], each with the size of
    its array along [d]. *)
Lemma concat_values_held d name datasets arrays :
  Forall2 (λ ds a, ds_vars ds !! name = Some a ∧ da_dim a = Some d ∧
                   ds_dims ds !! d = Some (length (da_values a))) datasets arrays →
  concat_values d name datasets = concat (da_values <$> arrays).
Proof.
  unfold concat_values. induction 1 as [|ds a datasets arrays (Ha & Hd & _) _ IH]; [done|].
  simpl. rewrite Ha, (bool_decide_eq_true_2 _ Hd). by rewrite IH.
Qed.

Lemma sizes_held d name datasets arrays :
  Forall2 (λ ds a, ds_vars ds !! name = Some a ∧ da_dim a = Some d ∧
                   ds_dims ds !! d = Some (length (da_values a))) datasets arrays →
  sum_list (size_along d <$> datasets) = sum_list ((λ a, length (da_values a)) <$> arrays).
Proof.
  induction 1 as [|ds a datasets arrays (_ & _ & Hsize) _ IH]; [done|].
  rewrite !fmap_cons. simpl. unfold size_along at 1. rewrite Hsize. simpl. by rewrite IH.
Qed.

Lemma length_concat_values (arrays : list DataArray) :
  length (concat (da_values <$> arrays)) = sum_list ((λ a, length (da_values a)) <$> arrays).
Proof.
  induction arrays as [|a arrays IH]; [done|].
  rewrite !fmap_cons. simpl. by rewrite length_app, IH.
Qed.

(** The concatenation holds a variable that all datasets hold over the
    concatenation dimension, with the values one after the other, and
    the size of the dimension is the sum of the sizes. *)
Lemma concat_held d name datasets arrays :
  datasets ≠ [] →
  Forall2 (λ ds a, ds_vars ds !! name = Some a ∧ da_dim a = Some d ∧
                   ds_dims ds !! d = Some (length (da_values a))) datasets arrays →
  concat_vars d datasets !! name =
    Some (mkDataArray (Some d) (concat (da_values <$> arrays))) ∧
  concat_sizes d datasets !! d = Some (sum_list ((λ a, length (da_values a)) <$> arrays)).
Proof.
  intros Hne Hheld.
  assert (concat_vars d datasets !! name =
          Some (mkDataArray (Some d) (concat (da_values <$> arrays)))) as Hvar.
  { unfold concat_vars. rewrite map_lookup_imap.
    destruct Hheld as [|ds a datasets arrays (Ha & Hd & Hsz) Hrest]; [done|].
    rewrite fmap_cons. simpl.
    rewrite (lookup_union_Some_l _ _ _ _ Ha). simpl.
    rewrite (bool_decide_eq_true_2 _ Hd). do 2 f_equal.
    apply (concat_values_held d name (ds :: datasets) (a :: arrays)).
    by constructor. }
  split; [done|]. unfold concat_sizes.
  rewrite bool_decide_eq_true_2; [|by eexists name, _].
  rewrite lookup_insert_eq. f_equal. by eapply sizes_held.
Qed.

(** C6 (amended): for a group other than "top", "sonar" and "provenance"
    in a record returned: if no input record has the group it is absent;
    otherwise the datasets of exactly the records that have the group
    were concatenated, in input order, along the dimension configured for
    the model and the group (the entry of the group, else the default)
    and with a configured mode that is one of the three known ones.
    A variable that all these datasets hold over that dimension holds,
    in the group returned, their values one after the other, and the
    size of the dimension is the sum of theirs.  Outside this are the
    beam strings that are cut to width, and [ping_time] when a reversal
    is detected in the group: it is then repaired, or replaced by the
    coordinate kept by the call, whose length may be another. *)
Theorem group_concatenates_present_records (echodatas : list EchoData)
    (combine_attrs : option string) (fr : Frame) (r : EchoData) (group : string) :
  combine echodatas combine_attrs = (fr, inr r) →
  NoDup group_map → group ∈ group_map →
  ¬ special_group group →
  let datasets := present_datasets echodatas group in
  (datasets = [] → getattr r group = None) ∧
  (datasets ≠ [] →
   ∃ m ds,
     checked_model echodatas = Some m ∧
     getattr r group = Some ds ∧
     let config := SONAR_MODELS m in
     let dim := default (concat_dims_default config) (concat_dims config !! group) in
     let mode :=
       default (concat_data_vars_default config) (concat_data_vars config !! group) in
     mode ∈ ["minimal"; "different"; "all"] ∧
     ∀ name arrays,
       dim ≠ "concat_dim" →
       (group = "beam" → name ∉ normalized_names) →
       (name = "ping_time" →
        reversed_group SONAR_MODELS echodatas (checked_model echodatas)
          (default "override" combine_attrs) group = false) →
       Forall2 (λ d a, ds_vars d !! name = Some a ∧ da_dim a = Some dim ∧
                       ds_dims d !! dim = Some (length (da_values a)))
               datasets arrays →
       ds_vars ds !! name = Some (mkDataArray (Some dim) (concat (da_values <$> arrays))) ∧
       ds_dims ds !! dim = Some (sum_list ((λ a, length (da_values a)) <$> arrays))).
Proof.
  intros Hrun Hnd Hin Hns datasets. split.
  - intros Hnone. destruct echodatas as [|ed rest].
    { injection Hrun as _ <-. unfold getattr. simpl. apply lookup_empty. }
    pose proof Hns as [_ Hnp]%not_special.
    destruct (group_stored _ _ _ _ _ Hrun ltac:(done) Hnd Hin Hnp)
      as (m & before & after & fr1 & fr2 & _ & _ & _ & _ & Hstep & -> & _).
    rewrite group_step_absent in Hstep by done. injection Hstep as <-.
    simpl. apply getattr_setattr_eq.
  - intros Hsome.
    destruct (concatenated_group_final _ _ _ _ _ Hrun Hnd Hin Hns Hsome)
      as (m & cat & ds & Hm & Hcat & Hget & _ & Hsized & _).
    exists m, ds. split; [done|]. split; [done|]. cbv zeta.
    change (default (concat_dims_default (SONAR_MODELS m))
              (concat_dims (SONAR_MODELS m) !! group))
      with (concat_dim_of (SONAR_MODELS m) group).
    change (default (concat_data_vars_default (SONAR_MODELS m))
              (concat_data_vars (SONAR_MODELS m) !! group))
      with (data_vars_of (SONAR_MODELS m) group).
    split.
    { unfold xr_combine_nested in Hcat. by case_bool_decide. }
    intros name arrays Hdim Hname Hping Hheld. unfold datasets in *.
    apply xr_combine_nested_ok in Hcat as (_ & Hsizes & Hvars).
    destruct (concat_held _ _ _ _ Hsome Hheld) as [Hvar Hsize].
    rewrite Hm in Hping.
    destruct (Hsized name (mkDataArray (Some (concat_dim_of (SONAR_MODELS m) group))
                             (concat (da_values <$> arrays)))) as [Hout Hout_size];
      [done | done | simpl; congruence | |].
    { split; [by rewrite Hvars|]. intros d [= <-]. rewrite Hsizes, Hsize. simpl.
      by rewrite length_concat_values. }
    split; [done|]. rewrite (Hout_size _ eq_refl). simpl. by rewrite length_concat_values.
Qed.


(** ** Groups after the first reversal *)

Lemma loop_at echodatas model p before group after fr0 fr :
  NoDup (before ++ group :: after) →
  for_each (before ++ group :: after) (group_step echodatas model p) fr0 = (fr, inr tt) →
  ∃ fr1 fr2,
    for_each before (group_step echodatas model p) fr0 = (fr1, inr tt) ∧
    group_step echodatas model p group fr1 = (fr2, inr tt) ∧
    for_each after (group_step echodatas model p) fr2 = (fr, inr tt) ∧
    getattr (result fr) group = getattr (result fr2) group.
Proof.
  intros Hnd Hrun. rewrite for_each_app in Hrun.
  destruct (for_each before _ fr0) as [fr1 [e|[]]] eqn:E1; [done|].
  apply for_each_cons_ok in Hrun as (fr2 & H2 & H3).
  exists fr1, fr2. repeat split; try done.
  eapply loop_result_other; [|exact H3].
  apply NoDup_app in Hnd as (_ & _ & Hnd). by apply NoDup_cons in Hnd as [? _].
Qed.

(** The first group of the loop with a detected reversal fixes the two
    coordinates that the frame keeps from then on. *)
Lemma loop_first_reversal echodatas model p groups fr fr' :
  old_ping_time fr = None →
  for_each groups (group_step echodatas model p) fr = (fr', inr tt) →
  existsb (reversed_group SONAR_MODELS echodatas model p) groups = true →
  ∃ earlier first later cg da ts,
    groups = (earlier ++ first :: later)%list ∧
    existsb (reversed_group SONAR_MODELS echodatas model p) earlier = false ∧
    reversed_group SONAR_MODELS echodatas model p first = true ∧
    concatenated SONAR_MODELS echodatas model p first = inr cg ∧
    reversal_detected cg = true ∧
    ds_vars cg !! "ping_time" = Some da ∧
    times_of (da_values da) = Some ts ∧
    old_ping_time fr' = Some da ∧
    new_ping_time fr' = Some (corrected da ts).
Proof.
  revert fr. induction groups as [|g gs IH]; intros fr Hold Hrun Hex; [done|].
  apply for_each_cons_ok in Hrun as (fr1 & Hstep & Hrest).
  pose proof (step_times _ _ _ _ _ _ _ Hstep) as Ht.
  rewrite (bool_decide_eq_true_2 _ Hold), andb_true_r in Ht.
  simpl in Hex. destruct (reversed_group SONAR_MODELS echodatas model p g) eqn:Hrev.
  - destruct Ht as (_ & _ & cg & da & ts & Hcg & Hda & Hts & Hd & Ho & Hn).
    assert (old_ping_time fr1 ≠ None) as Hsome by congruence.
    destruct (loop_times_later _ _ _ _ _ _ _ Hsome Hrest) as (Ho' & Hn' & _).
    exists [], g, gs, cg, da, ts. repeat split; try done; try congruence.
    apply reversal_detected_true. by exists da, ts.
  - destruct Ht as (Ho & _ & _). simpl in Hex.
    destruct (IH fr1 ltac:(congruence) Hrest Hex)
      as (earlier & first & later & cg & da & ts & -> & Hno & Hrest').
    exists (g :: earlier), first, later, cg, da, ts. split; [done|].
    split; [|done]. simpl. by rewrite Hrev.
Qed.

(** C2 (amended): once a correction was computed at the first group with
    a detected reversal, a later group is not repaired on its own.  The
    detection still runs on it: if it finds a reversal, the [ping_time]
    of the group is overwritten with the corrected coordinate computed at
    that first group, as it is; if it finds none, the group keeps its own
    [ping_time].  The coordinate kept by the call stays the one of the
    first group. *)
Theorem later_reversal_reuses_correction (echodatas : list EchoData)
    (combine_attrs : option string) (fr : Frame) (r : EchoData)
    (before : list string) (group : string) (after : list string) :
  let model := checked_model echodatas in
  let policy := default "override" combine_attrs in
  combine echodatas combine_attrs = (fr, inr r) →
  NoDup group_map →
  group_map = (before ++ group :: after)%list →
  existsb (reversed_group SONAR_MODELS echodatas model policy) before = true →
  ¬ special_group group →
  present_datasets echodatas group ≠ [] →
  ∃ first cg1 da ts cg,
    first ∈ before ∧
    concatenated SONAR_MODELS echodatas model policy first = inr cg1 ∧
    ds_vars cg1 !! "ping_time" = Some da ∧
    times_of (da_values da) = Some ts ∧
    new_ping_time fr = Some (corrected da ts) ∧
    concatenated SONAR_MODELS echodatas model policy group = inr cg ∧
    if reversal_detected cg
    then ∃ cg', ds_setitem cg "ping_time" (corrected da ts) = inr cg' ∧
                ds_vars cg' !! "ping_time" = Some (corrected da ts) ∧
                getattr r group = Some (drop_dims cg' "concat_dim")
    else getattr r group = Some (drop_dims cg "concat_dim").
Proof.
  intros model policy Hrun Hnd Hmap Hex Hns Hsome. subst model policy.
  assert (echodatas ≠ []) as Hne by (by intros ->).
  apply combine_returns in Hrun as (m & frl & Hcheck & _ & Hloop & Htl & [Hother _]);
    [|done].
  rewrite (checked_model_ok _ _ Hcheck) in *.
  rewrite Hmap in Hloop, Hnd.
  destruct (loop_at _ _ _ _ _ _ _ _ Hnd Hloop) as (fr1 & fr2 & Hb & Hstep & Ha & Hget).
  destruct (loop_first_reversal _ _ _ _ initial_frame _ eq_refl Hb Hex)
    as (earlier & first & later & cg1 & da & ts & -> & _ & _ & Hcg1 & _ & Hda & Hts & Ho1 & Hn1).
  assert (old_ping_time fr1 ≠ None) as Hsome1 by congruence.
  pose proof (step_times _ _ _ _ _ _ _ Hstep) as Hst.
  rewrite (bool_decide_eq_false_2 _ Hsome1), andb_false_r in Hst.
  destruct Hst as (Ho2 & Hn2 & _).
  assert (old_ping_time fr2 ≠ None) as Hsome2 by congruence.
  destruct (loop_times_later _ _ _ _ _ _ _ Hsome2 Ha) as (_ & Hn3 & _).
  destruct Htl as (_ & Hn4 & _).
  pose proof (concat_step_spec _ _ _ _ _ _ _ Hns Hsome Hstep) as Hspec.
  destruct (concatenated SONAR_MODELS echodatas (Some m) _ group) as [e|cg] eqn:Ecg;
    [by destruct Hspec|].
  pose proof Hns as [_ Hnp]%not_special.
  exists first, cg1, da, ts, cg.
  split; [apply elem_of_app; right; by left|].
  split; [done|]. split; [done|]. split; [done|].
  split; [congruence|]. split; [done|].
  rewrite Hother by done. rewrite Hget.
  destruct (reversal_detected cg).
  - rewrite Ho1, Hn1 in Hspec.
    destruct (ds_setitem cg "ping_time" (corrected da ts)) as [e|cg'] eqn:Eset;
      [by destruct Hspec|].
    destruct Hspec as (_ & _ & ->). exists cg'. split; [done|]. split.
    + apply ds_setitem_ok in Eset as (-> & _). apply lookup_insert_eq.
    + apply getattr_setattr_eq.
  - destruct Hspec as [(_ & _ & -> & _) | [[? ?] _]]; [|done].
    apply getattr_setattr_eq.
Qed.


(** ** Unknown attrs policies *)

Lemma unknown_policy_passed p : ¬ known_policy p → policy_passed p = p.
Proof.
  intros Hk. unfold policy_passed. case_bool_decide as Hp; [|done].
  exfalso. apply Hk. unfold known_policy. rewrite Hp, !elem_of_cons. auto 10.
Qed.

Lemma merge_attrs_unknown first rest p :
  ¬ known_policy p →
  merge_attrs (first :: rest) p = inl (ValueError "Unrecognised value for combine_attrs").
Proof.
  intros Hk. unfold merge_attrs, known_policy in *.
  rewrite !elem_of_cons in Hk.
  repeat (case_bool_decide; [exfalso; apply Hk; auto 10 |]). done.
Qed.

Lemma xr_combine_nested_unknown datasets d mode p :
  ¬ known_policy p → datasets ≠ [] →
  ∃ msg, xr_combine_nested datasets d mode (policy_passed p) = inl (ValueError msg).
Proof.
  intros Hk Hne. rewrite unknown_policy_passed by done.
  unfold xr_combine_nested. case_bool_decide; [|by eexists].
  destruct datasets as [|first rest]; [done|].
  rewrite fmap_cons, merge_attrs_unknown by done. by eexists.
Qed.

Lemma concatenated_unknown echodatas m p group :
  ¬ known_policy p →
  present_datasets echodatas group ≠ [] →
  ∃ msg, concatenated SONAR_MODELS echodatas (Some m) p group = inl (ValueError msg).
Proof.
  intros Hk Hsome. unfold concatenated. simpl.
  destruct (xr_combine_nested_unknown (present_datasets echodatas group)
              (concat_dim_of (SONAR_MODELS m) group)
              (data_vars_of (SONAR_MODELS m) group) p Hk Hsome) as [msg ->].
  by exists msg.
Qed.

(** A step that concatenates nothing ends and leaves alone what the end
    of the call looks at. *)
Lemma step_without_concatenation first rest model p group fr :
  special_group group ∨ present_datasets (first :: rest) group = [] →
  ∃ fr', group_step (first :: rest) model p group fr = (fr', inr tt) ∧
         old_ping_time fr' = old_ping_time fr ∧ old_attrs fr' = old_attrs fr.
Proof.
  intros Hcase.
  destruct (special_group_cases group) as [Hc | [-> | Hns]].
  - rewrite group_step_copied by done. by eexists.
  - rewrite group_step_provenance. by eexists.
  - destruct Hcase as [? | Hnone]; [done|].
    rewrite group_step_absent by done. by eexists.
Qed.

Lemma loop_without_concatenation first rest model p groups fr :
  (∀ g, g ∈ groups → special_group g ∨ present_datasets (first :: rest) g = []) →
  ∃ fr', for_each groups (group_step (first :: rest) model p) fr = (fr', inr tt) ∧
         old_ping_time fr' = old_ping_time fr ∧ old_attrs fr' = old_attrs fr.
Proof.
  revert fr. induction groups as [|g gs IH]; intros fr Hall.
  - exists fr. by rewrite for_each_nil.
  - destruct (step_without_concatenation first rest model p g fr) as (fr1 & Hstep & Ho & Ha).
    { apply Hall. by left. }
    destruct (IH fr1) as (fr' & Hrest & Ho' & Ha').
    { intros g' Hg'. apply Hall. by right. }
    exists fr'. split; [|split; congruence].
    apply for_each_cons_ok. by exists fr1.
Qed.

Lemma loop_unknown_policy first rest m p groups fr :
  ¬ known_policy p →
  (∃ g, g ∈ groups ∧ ¬ special_group g ∧ present_datasets (first :: rest) g ≠ []) →
  ∃ fr' msg,
    for_each groups (group_step (first :: rest) (Some m) p) fr = (fr', inl (ValueError msg)).
Proof.
  intros Hk. revert fr. induction groups as [|g gs IH]; intros fr (g0 & Hin & Hns0 & Hsome0).
  { by apply elem_of_nil in Hin. }
  simpl. rewrite bind_run.
  destruct (decide (special_group g ∨ present_datasets (first :: rest) g = []))
    as [Hcase | Hconcat].
  - destruct (step_without_concatenation first rest (Some m) p g fr Hcase)
      as (fr1 & -> & _).
    apply IH. exists g0. split; [|done].
    apply elem_of_cons in Hin as [-> | Hin]; [|done].
    destruct Hcase; contradiction.
  - assert (¬ special_group g ∧ present_datasets (first :: rest) g ≠ []) as [Hns Hsome].
    { split; intros H; apply Hconcat; auto. }
    destruct (group_step_concat (first :: rest) (Some m) p g fr Hns Hsome)
      as (fr0 & _ & ->).
    destruct (concatenated_unknown (first :: rest) m p g Hk Hsome) as [msg ->].
    by exists fr0, msg.
Qed.

(** C8 (amended): [combine_echodata] does not check the attrs policy
    itself; the value goes to [xr.combine_nested].  A value outside the
    five known ones is therefore rejected, with a [ValueError], when some
    group other than "top", "sonar" and "provenance" is present in at
    least one record; when no record has such a group - in particular
    on the empty list - and the model tags agree, the call returns. *)
Theorem unknown_policy_rejected_at_concatenation (echodatas : list EchoData)
    (combine_attrs : string) :
  ¬ known_policy combine_attrs →
  ((∃ group, group ∈ group_map ∧ ¬ special_group group ∧
             present_datasets echodatas group ≠ []) →
   ∃ msg, (combine echodatas (Some combine_attrs)).2 = inl (ValueError msg)) ∧
  (¬ inconsistent_models echodatas →
   (∀ group, group ∈ group_map →
             special_group group ∨ present_datasets echodatas group = []) →
   ∃ r, (combine echodatas (Some combine_attrs)).2 = inr r).
Proof.
  intros Hk. split.
  - intros (g & Hin & Hns & Hsome).
    destruct echodatas as [|ed rest]; [done|].
    rewrite combine_nonempty.
    destruct (check_sonar_models None (ed :: rest)) as [e|model] eqn:Echeck.
    + apply check_sonar_models_error in Echeck as [-> | ->]; by eexists.
    + apply check_sonar_models_none in Echeck as [[? _] | (m & -> & _)]; [done|].
      unfold after_check. rewrite bind_run. simpl.
      destruct (loop_unknown_policy ed rest m combine_attrs group_map initial_frame Hk)
        as (fr' & msg & ->); [by exists g|]. by exists msg.
  - intros Hc Hall. destruct echodatas as [|ed rest]; [by eexists|].
    rewrite combine_nonempty.
    apply consistent_models_iff in Hc as [? | [m Hm]]; [done|].
    assert (check_sonar_models None (ed :: rest) = inr (Some m)) as ->.
    { apply check_sonar_models_none. right. by exists m. }
    unfold after_check. rewrite bind_run. simpl.
    destruct (loop_without_concatenation ed rest (Some m) combine_attrs group_map
                initial_frame Hall) as (fr' & -> & Ho & Ha).
    rewrite bind_run. unfold save_old_ping_time at 1.
    rewrite bind_run. unfold gets at 1. rewrite Ho. simpl.
    rewrite bind_run. unfold save_old_attrs at 1.
    rewrite bind_run. unfold gets at 1. rewrite Ha. simpl. by eexists.
Qed.

(** * Further properties of the module *)

(** ** [union_attrs] *)

Lemma last_defined_app key l1 l2 :
  last_defined key (l1 ++ l2) =
  match last_defined key l2 with
  | Some v => Some v
  | None => last_defined key l1
  end.
Proof.
  induction l1 as [|ds rest IH]; simpl.
  - by destruct (last_defined key l2).
  - rewrite IH. by destruct (last_defined key l2).
Qed.

(** X1: merging the attrs of a list of datasets that is given in two
    parts is merging the first part and updating the outcome with the
    merge of the second part. *)
Theorem union_attrs_app (l1 l2 : list Dataset) :
  union_attrs (l1 ++ l2) = dict_update (union_attrs l1) (union_attrs l2).
Proof.
  apply map_eq. intros key. unfold dict_update.
  rewrite lookup_union, !union_attrs_lookup, last_defined_app.
  destruct (last_defined key l2), (last_defined key l1); done.
Qed.

Lemma last_defined_is_Some key datasets :
  is_Some (last_defined key datasets) ↔
  ∃ ds, ds ∈ datasets ∧ is_Some (ds_attrs ds !! key).
Proof.
  induction datasets as [|ds rest IH]; simpl.
  - split; [by intros [? ?] | intros (ds & Hin & _); by apply elem_of_nil in Hin].
  - destruct (last_defined key rest) as [v|] eqn:E.
    + split; [|by eauto]. intros _.
      destruct (proj1 IH ltac:(by eexists)) as (ds' & Hin & Hsome).
      exists ds'. split; [by right | done].
    + split.
      * intros Hsome. exists ds. split; [by left | done].
      * intros (ds' & Hin & Hsome). apply elem_of_cons in Hin as [-> | Hin]; [done|].
        exfalso. destruct (proj2 IH) as [? ?]; [by exists ds' | done].
Qed.

(** X2: a key is in the merged attrs exactly when some dataset of the
    list defines it; no key is invented and none is lost. *)
Theorem union_attrs_keys (datasets : list Dataset) (key : string) :
  is_Some (union_attrs datasets !! key) ↔
  ∃ ds, ds ∈ datasets ∧ is_Some (ds_attrs ds !! key).
Proof. rewrite union_attrs_lookup. apply last_defined_is_Some. Qed.

(** ** Which validation error *)

Lemma check_sonar_models_untagged m pre ed post :
  Forall (λ e, sonar_model e = Some m) pre →
  sonar_model ed = None →
  ∀ model, model = None ∨ model = Some m →
  check_sonar_models model (pre ++ ed :: post) = inl (ValueError none_model_message).
Proof.
  intros Hpre Hed. induction Hpre as [|e pre He Hpre IH]; intros model Hmodel; simpl.
  - by rewrite Hed.
  - rewrite He. destruct Hmodel as [-> | ->].
    + apply IH. by right.
    + rewrite bool_decide_eq_false_2 by (intros H; by apply H). apply IH. by right.
Qed.

Lemma check_sonar_models_differing m m' pre ed post :
  Forall (λ e, sonar_model e = Some m) pre →
  sonar_model ed = Some m' → m' ≠ m →
  check_sonar_models (Some m) (pre ++ ed :: post) = inl (ValueError different_model_message).
Proof.
  intros Hpre Hed Hne. induction Hpre as [|e pre He Hpre IH]; simpl.
  - rewrite Hed. by rewrite bool_decide_eq_true_2.
  - rewrite He. rewrite bool_decide_eq_false_2 by (intros H; by apply H). apply IH.
Qed.

Lemma combine_check_fails echodatas combine_attrs e :
  check_sonar_models None echodatas = inl e →
  combine echodatas combine_attrs = (initial_frame, inl e).
Proof.
  intros Hcheck. destruct echodatas as [|ed rest]; [done|].
  by rewrite combine_nonempty, Hcheck.
Qed.

(** X3: when the first record that breaks the rule has no model tag -
    every record before it carries one and the same tag - the call raises
    the "non-None" error, and nothing has been done by then. *)
Theorem untagged_record_raises_none_error (pre : list EchoData) (ed : EchoData)
    (post : list EchoData) (m : string) (combine_attrs : option string) :
  Forall (λ e, sonar_model e = Some m) pre →
  sonar_model ed = None →
  combine (pre ++ ed :: post) combine_attrs =
  (initial_frame, inl (ValueError none_model_message)).
Proof.
  intros Hpre Hed. apply combine_check_fails.
  apply (check_sonar_models_untagged m); [done | done | by left].
Qed.

(** X4: when the first record that breaks the rule carries a tag other
    than the one of the records before it, the call raises the "same
    value" error, and nothing has been done by then. *)
Theorem differing_record_raises_same_value_error (first : EchoData) (pre : list EchoData)
    (ed : EchoData) (post : list EchoData) (m m' : string)
    (combine_attrs : option string) :
  Forall (λ e, sonar_model e = Some m) (first :: pre) →
  sonar_model ed = Some m' → m' ≠ m →
  combine ((first :: pre) ++ ed :: post) combine_attrs =
  (initial_frame, inl (ValueError different_model_message)).
Proof.
  intros Hpre Hed Hne. apply combine_check_fails.
  inversion Hpre as [|? ? Hfirst Hpre']; subst.
  simpl. rewrite Hfirst.
  by apply (check_sonar_models_differing m m').
Qed.

(** ** Attribute conflicts *)

Lemma merge_attrs_conflict l p msg :
  merge_attrs l p = inl (MergeError msg) → p = "identical" ∨ p = "no_conflicts".
Proof.
  unfold merge_attrs. destruct l as [|first rest]; [done|].
  case_bool_decide; [done|]. case_bool_decide; [done|].
  case_bool_decide; [by right|]. case_bool_decide; [by left|]. done.
Qed.

Lemma xr_combine_nested_conflict datasets d mode p msg :
  xr_combine_nested datasets d mode (policy_passed p) = inl (MergeError msg) →
  p = "identical" ∨ p = "no_conflicts".
Proof.
  unfold xr_combine_nested. case_bool_decide; [|done].
  destruct (merge_attrs _ (policy_passed p)) as [e|attrs] eqn:E; simpl; [|done].
  intros [= ->]. apply merge_attrs_conflict in E.
  unfold policy_passed in E. case_bool_decide; [|done].
  destruct E; done.
Qed.

(** X5: an attribute conflict is raised only under the policies that
    compare attrs, "identical" and "no_conflicts"; with "override" (also
    when the argument is left out), "drop", "overwrite_conflicts" or an
    unknown value the call never raises one. *)
Theorem attribute_conflict_only_when_comparing (echodatas : list EchoData)
    (combine_attrs : option string) (msg : string) :
  (combine echodatas combine_attrs).2 = inl (MergeError msg) →
  default "override" combine_attrs = "identical" ∨
  default "override" combine_attrs = "no_conflicts".
Proof.
  intros Hraise. destruct echodatas as [|ed rest]; [done|].
  rewrite combine_nonempty in Hraise.
  destruct (check_sonar_models None (ed :: rest)) as [e|model] eqn:Echeck.
  - simpl in Hraise. injection Hraise as ->.
    by apply check_sonar_models_error in Echeck as [?|?].
  - destruct (rest_of_call _ _ _ initial_frame) as [fr r] eqn:E.
    simpl in Hraise. subst r.
    set (p := default "override" combine_attrs) in *.
    apply (after_check_raises_gen
             (λ e, ∀ msg, e = MergeError msg → p = "identical" ∨ p = "no_conflicts")
             (ed :: rest) model p) with (fr := initial_frame) (fr' := fr)
             (e := MergeError msg) (msg := msg); [| |done|done].
    + intros e [_ Hno] msg' ->. by destruct (Hno msg').
    + intros g. apply combine_group_raises_gen.
      * intros e [_ Hno] msg' ->. by destruct (Hno msg').
      * intros datasets d mode e He msg' ->. by eapply xr_combine_nested_conflict.
Qed.

(** ** Groups that are copied, and groups that are never stored *)

(** X6: the "top" and "sonar" groups of the record returned are those of
    the first input record, the synthetic dimension dropped; they are
    absent when the first record lacks them.  The other records are not
    looked at. *)
Theorem copied_groups_from_first_record (first : EchoData) (rest : list EchoData)
    (combine_attrs : option string) (fr : Frame) (r : EchoData) (group : string) :
  combine (first :: rest) combine_attrs = (fr, inr r) →
  NoDup group_map → group ∈ group_map →
  copied_group group →
  getattr r group = (λ cg, drop_dims cg "concat_dim") <$> getattr first group.
Proof.
  intros Hrun Hnd Hin Hc.
  assert (group ≠ "provenance") as Hnp.
  { intros ->. unfold copied_group in Hc.
    rewrite !elem_of_cons, elem_of_nil in Hc. by destruct Hc as [?|[?|?]]. }
  destruct (group_stored _ _ _ _ _ Hrun ltac:(done) Hnd Hin Hnp)
    as (m & before & after & fr1 & fr2 & _ & _ & _ & _ & Hstep & -> & _).
  rewrite group_step_copied in Hstep by done. injection Hstep as <-.
  simpl. apply getattr_setattr_eq.
Qed.

(** X7: only the groups of [EchoData.group_map] are ever stored: a name
    outside it is absent from the record returned. *)
Theorem group_outside_map_absent (echodatas : list EchoData)
    (combine_attrs : option string) (fr : Frame) (r : EchoData) (group : string) :
  combine echodatas combine_attrs = (fr, inr r) →
  group ∉ group_map →
  getattr r group = None.
Proof.
  intros Hrun Hnotin. destruct echodatas as [|ed rest].
  { injection Hrun as _ <-. unfold getattr. simpl. apply lookup_empty. }
  apply combine_returns in Hrun as (m & fr1 & _ & _ & Hloop & _ & [Hother Hprov]); [|done].
  pose proof (loop_result_other _ _ _ _ _ _ _ Hnotin Hloop) as Hsame.
  assert (getattr (result fr1) group = None) as Hnone.
  { rewrite Hsame. unfold getattr. simpl. apply lookup_empty. }
  destruct (decide (group = "provenance")) as [->|Hne].
  - rewrite Hnone in Hprov. by destruct (getattr r "provenance").
  - by rewrite Hother.
Qed.

(** ** The synthetic dimension *)

Lemma drop_dims_no_concat_dim ds : no_concat_dim (drop_dims ds "concat_dim").
Proof.
  split.
  - simpl. apply lookup_delete_eq.
  - intros name da. simpl. rewrite map_lookup_filter_Some. by intros [_ ?].
Qed.

Lemma step_stores_dropped echodatas model p group fr fr' :
  group_step echodatas model p group fr = (fr', inr tt) →
  ∃ value,
    result fr' = setattr (result fr) group ((λ cg, drop_dims cg "concat_dim") <$> value).
Proof.
  intros Hrun.
  destruct (special_group_cases group) as [Hc | [-> | Hns]].
  - destruct echodatas as [|first rest].
    + unfold combine_group in Hrun. rewrite bool_decide_eq_true_2 in Hrun by done.
      discriminate Hrun.
    + rewrite group_step_copied in Hrun by done. injection Hrun as <-. by eexists.
  - rewrite group_step_provenance in Hrun. injection Hrun as <-.
    by exists (Some (provenance_of (origin <$> echodatas))).
  - destruct (decide (present_datasets echodatas group = [])) as [Hnone | Hsome].
    + rewrite group_step_absent in Hrun by done. injection Hrun as <-. by exists None.
    + pose proof (concat_step_spec _ _ _ _ _ _ _ Hns Hsome Hrun) as Hspec.
      destruct (concatenated SONAR_MODELS echodatas model p group) as [e|cg];
        [by destruct Hspec|].
      destruct (reversal_detected cg).
      * destruct (old_ping_time fr).
        -- destruct (new_ping_time fr) as [npt|]; [|by destruct Hspec as [[? ?] _]].
           destruct (ds_setitem cg "ping_time" npt) as [e|cg']; [by destruct Hspec|].
           destruct Hspec as (_ & _ & ->). by exists (Some cg').
        -- destruct Hspec as (da & ts & _ & _ & _ & _ & _ & _ & _ & ->).
           by exists (Some (with_ping_time cg (corrected da ts))).
      * destruct Hspec as [(_ & _ & -> & _) | [[? ?] _]]; [by exists (Some cg) | done].
Qed.

(** X8: the dimension "concat_dim" that the concatenation may leave
    behind is in no group of the record returned, except possibly the
    provenance group (to which the old [ping_time] is attached after the
    dimension was dropped): the group declares no such dimension and has
    no variable over it.  This holds for the copied groups too. *)
Theorem synthetic_dimension_dropped (echodatas : list EchoData)
    (combine_attrs : option string) (fr : Frame) (r : EchoData)
    (group : string) (ds : Dataset) :
  combine echodatas combine_attrs = (fr, inr r) →
  group ≠ "provenance" →
  getattr r group = Some ds →
  no_concat_dim ds.
Proof.
  intros Hrun Hne Hds. destruct echodatas as [|ed rest].
  { injection Hrun as _ <-. unfold getattr in Hds. simpl in Hds.
    by rewrite lookup_empty in Hds. }
  apply combine_returns in Hrun as (m & fr1 & _ & _ & Hloop & _ & [Hother _]); [|done].
  rewrite Hother in Hds by done.
  assert (∀ g d, getattr (result fr1) g = Some d → no_concat_dim d) as Hinv; [|by eapply Hinv].
  eapply (for_each_ok_invariant
            (λ fr0, ∀ g d, getattr (result fr0) g = Some d → no_concat_dim d));
    [|exact Hloop|].
  - intros g0 fr0 fr2 _ Hstep Hinv g d.
    apply step_stores_dropped in Hstep as [value ->].
    destruct (decide (g = g0)) as [->|Hg].
    + rewrite getattr_setattr_eq. destruct value as [cg|]; [|done].
      intros [= <-]. apply drop_dims_no_concat_dim.
    + rewrite getattr_setattr_ne by done. apply Hinv.
  - intros g d. unfold getattr. simpl. by rewrite lookup_empty.
Qed.

(** ** The attrs of the provenance group *)

(** X9: the provenance group of the record returned for a non-empty list
    has exactly the three conversion attrs - the software name "echopype",
    its version and the conversion time with a "Z" at the end; whatever
    provenance group the input records had is not used. *)
Theorem provenance_attrs_are_fresh (echodatas : list EchoData)
    (combine_attrs : option string) (fr : Frame) (r : EchoData) :
  combine echodatas combine_attrs = (fr, inr r) →
  echodatas ≠ [] →
  "provenance" ∈ group_map →
  ∃ prov,
    getattr r "provenance" = Some prov ∧
    ds_attrs prov =
      <["conversion_software_name" := AStr "echopype"]>
        (<["conversion_software_version" := AStr ECHOPYPE_VERSION]>
           {[ "conversion_time" := AStr (utcnow_isoformat +:+ "Z") ]}).
Proof.
  intros Hrun Hne Hin.
  apply combine_returns in Hrun as (m & fr1 & _ & _ & Hloop & _ & [_ Hprov]); [|done].
  rewrite (loop_provenance _ _ _ _ _ _ Hin Hloop) in Hprov.
  destruct (getattr r "provenance") as [prov|]; [|done].
  destruct Hprov as (Hattrs & _). exists prov. split; [done|]. by rewrite Hattrs.
Qed.

(** ** What is attached to the provenance group *)

Lemma string_length_app (s t : string) :
  String.length (s +:+ t) = (String.length s + String.length t)%nat.
Proof. induction s as [|a s IH]; simpl; [done | by rewrite IH]. Qed.

Lemma string_app_inj_suffix (s1 s2 t : string) : s1 +:+ t = s2 +:+ t → s1 = s2.
Proof.
  revert s2. induction s1 as [|a s1 IH]; intros [|b s2] H; simpl in H.
  - done.
  - apply (f_equal String.length) in H. rewrite !string_length_app in H. simpl in H.
    rewrite ?string_length_app in H. lia.
  - apply (f_equal String.length) in H. rewrite !string_length_app in H. simpl in H.
    rewrite ?string_length_app in H. lia.
  - injection H as -> H. by rewrite (IH s2 H).
Qed.

Lemma attrs_name_not_old_ping_time g : "old_ping_time" ≠ g +:+ "_attrs".
Proof.
  intros H. symmetry in H.
  repeat (destruct g as [|? g]; simpl in H; try discriminate H; try (injection H as _ H)).
Qed.

Lemma dict_get_set_eq {V} k (v : V) d : dict_get k (dict_set k v d) = Some v.
Proof.
  induction d as [|[k' v'] d IH]; simpl.
  - by rewrite bool_decide_eq_true_2.
  - case_bool_decide as Hk; simpl.
    + by rewrite bool_decide_eq_true_2.
    + by rewrite (bool_decide_eq_false_2 _ Hk).
Qed.

Lemma dict_get_set_ne {V} k k' (v : V) d :
  k ≠ k' → dict_get k' (dict_set k v d) = dict_get k' d.
Proof.
  intros Hne. induction d as [|[k0 v0] d IH]; simpl.
  - by rewrite bool_decide_eq_false_2.
  - case_bool_decide as Hk; simpl.
    + subst k0. by rewrite !bool_decide_eq_false_2.
    + by rewrite IH.
Qed.

Lemma dict_get_None {V} k (d : list (string * V)) : k ∉ d.*1 → dict_get k d = None.
Proof.
  induction d as [|[k' v'] d IH]; simpl; [done|].
  rewrite not_elem_of_cons. intros [Hne Hnotin].
  by rewrite bool_decide_eq_false_2, IH.
Qed.

Lemma dict_set_keys {V} k (v : V) d :
  (dict_set k v d).*1 = if bool_decide (k ∈ d.*1) then d.*1 else (d.*1 ++ [k])%list.
Proof.
  induction d as [|[k' v'] d IH]; [done|].
  cbn [dict_set]. rewrite !fmap_cons. cbn [fst].
  destruct (decide (k = k')) as [->|Hne].
  - rewrite bool_decide_eq_true_2 by done.
    rewrite bool_decide_eq_true_2 by (by left). done.
  - rewrite (bool_decide_eq_false_2 (k = k')) by done.
    rewrite fmap_cons, IH. cbn [fst].
    destruct (decide (k ∈ d.*1)) as [Hin|Hin].
    + rewrite (bool_decide_eq_true_2 _ Hin).
      rewrite bool_decide_eq_true_2 by (by right). done.
    + rewrite (bool_decide_eq_false_2 _ Hin).
      rewrite bool_decide_eq_false_2; [done|].
      rewrite elem_of_cons. intros [?|?]; done.
Qed.

Lemma dict_set_NoDup {V} k (v : V) d : NoDup d.*1 → NoDup (dict_set k v d).*1.
Proof.
  intros Hnd. rewrite dict_set_keys. case_bool_decide as Hin; [done|].
  apply NoDup_app. split; [done|]. split.
  - intros x Hx Hx'. apply list_elem_of_singleton in Hx'. by subst.
  - apply NoDup_singleton.
Qed.

Lemma ds_assign_lookup_items prov items prov' name :
  ds_assign prov items = inr prov' →
  NoDup items.*1 →
  ds_vars prov' !! name =
  match dict_get name items with
  | Some v => Some (mkDataArray (Some name) v)
  | None => ds_vars prov !! name
  end.
Proof.
  revert prov. induction items as [|[k v] items IH]; intros prov Hrun Hnd.
  - rewrite ds_assign_nil in Hrun. by injection Hrun as <-.
  - rewrite ds_assign_cons in Hrun.
    destruct (ds_setitem prov k _) as [e|prov1] eqn:E1; simpl in Hrun; [done|].
    rewrite fmap_cons in Hnd. apply NoDup_cons in Hnd as [Hk Hnd].
    rewrite (IH prov1 Hrun Hnd). apply ds_setitem_ok in E1 as (Hv & _).
    cbn [dict_get]. case_bool_decide as Hname.
    + subst k. rewrite dict_get_None by done. rewrite Hv. apply lookup_insert_eq.
    + destruct (dict_get name items); [done|]. rewrite Hv. by apply lookup_insert_ne.
Qed.

Lemma ds_setitem_array_lookup ds name source da ds' other :
  ds_setitem_array ds name source da = inr ds' →
  name ≠ source →
  ds_vars ds' !! other =
  if bool_decide (other = name) then Some da
  else if bool_decide (other = source ∧ da_dim da = Some source) then Some da
       else ds_vars ds !! other.
Proof.
  unfold ds_setitem_array. intros H Hne.
  destruct (ds_setitem ds name da) as [e|ds1] eqn:E1; simpl in H; [done|].
  apply ds_setitem_ok in E1 as (Hv1 & _).
  case_bool_decide as Hc.
  - apply ds_setitem_ok in H as (Hv2 & _). rewrite Hv2, Hv1.
    case_bool_decide as H1.
    + subst other. by rewrite lookup_insert_ne, lookup_insert_eq.
    + case_bool_decide as H2.
      * destruct H2 as [-> _]. apply lookup_insert_eq.
      * rewrite !lookup_insert_ne; [done | done |].
        intros <-. apply H2. by destruct Hc.
  - injection H as <-. rewrite Hv1. case_bool_decide as H1.
    + subst other. apply lookup_insert_eq.
    + rewrite lookup_insert_ne by done.
      case_bool_decide as H2; [|done]. exfalso. apply Hc. by destruct H2.
Qed.

Lemma attrs_items_cons k v d :
  attrs_items ((k, v) :: d) = (k +:+ "_attrs", map CAttrs v) :: attrs_items d.
Proof. reflexivity. Qed.

Lemma attrs_items_keys d : (attrs_items d).*1 = (λ g, g +:+ "_attrs") <$> d.*1.
Proof.
  induction d as [|[k v] d IH]; [done|].
  rewrite attrs_items_cons, !fmap_cons, IH. done.
Qed.

Lemma attrs_items_NoDup d : NoDup d.*1 → NoDup (attrs_items d).*1.
Proof.
  intros Hnd. rewrite attrs_items_keys. apply NoDup_fmap_2; [|done].
  intros g1 g2. apply string_app_inj_suffix.
Qed.

Lemma dict_get_attrs_items g d :
  dict_get (g +:+ "_attrs") (attrs_items d) = map CAttrs <$> dict_get g d.
Proof.
  induction d as [|[k v] d IH]; [done|].
  rewrite attrs_items_cons. cbn [dict_get].
  destruct (decide (g = k)) as [->|Hne].
  - by rewrite !bool_decide_eq_true_2.
  - rewrite (bool_decide_eq_false_2 (g = k)) by done.
    rewrite bool_decide_eq_false_2; [done|].
    intros H. by apply string_app_inj_suffix in H.
Qed.

Lemma dict_get_attrs_items_other name d :
  (∀ g, name ≠ g +:+ "_attrs") → dict_get name (attrs_items d) = None.
Proof.
  intros Hname. apply dict_get_None. rewrite attrs_items_keys.
  rewrite list_elem_of_fmap. intros (g & -> & _). by apply (Hname g).
Qed.

(** The attrs snapshots are not touched by the [ping_time] step. *)
Lemma fix_ping_time_old_attrs cg fr fr' r :
  fix_ping_time cg fr = (fr', r) → old_attrs fr' = old_attrs fr.
Proof.
  intros Hrun. destruct (reversal_detected cg) eqn:Hrev.
  - destruct (old_ping_time fr) as [old|] eqn:Hold.
    + destruct (new_ping_time fr) as [npt|] eqn:Hnew.
      * rewrite (fix_ping_time_later cg fr old npt) in Hrun by done. by simplify_eq.
      * apply reversal_detected_true in Hrev as (da & ts & Hda & Hts & Hd).
        unfold fix_ping_time, ds_contains in Hrun.
        rewrite bool_decide_eq_true_2 in Hrun by (rewrite Hda; eauto).
        rewrite bind_run in Hrun.
        unfold lift at 1, exist_reversed_time, ds_getitem in Hrun.
        rewrite Hda in Hrun. simpl in Hrun. rewrite Hts, Hd in Hrun.
        rewrite bind_run in Hrun. unfold gets at 1 in Hrun.
        rewrite Hold in Hrun. rewrite bind_run in Hrun. unfold gets at 1 in Hrun.
        rewrite Hnew in Hrun. unfold lift in Hrun. by simplify_eq.
    + apply reversal_detected_true in Hrev as (da & ts & Hda & Hts & Hd).
      rewrite (fix_ping_time_first cg fr da ts) in Hrun by done. by simplify_eq.
  - destruct (fix_ping_time_none cg fr Hrev) as (r0 & Hfix & _).
    rewrite Hfix in Hrun. by simplify_eq.
Qed.

(** What one step does to the attrs snapshots. *)
Lemma step_old_attrs echodatas model p group fr fr' :
  group_step echodatas model p group fr = (fr', inr tt) →
  old_attrs fr' =
  if bool_decide (¬ special_group group ∧
                  (1 < length (present_datasets echodatas group))%nat)
  then dict_set group (ds_attrs <$> present_datasets echodatas group) (old_attrs fr)
  else old_attrs fr.
Proof.
  intros Hrun.
  destruct (special_group_cases group) as [Hc | [-> | Hns]].
  - rewrite bool_decide_eq_false_2 by (intros [H _]; by apply H, copied_is_special).
    destruct echodatas as [|first rest].
    + unfold combine_group in Hrun. rewrite bool_decide_eq_true_2 in Hrun by done.
      discriminate Hrun.
    + rewrite group_step_copied in Hrun by done. by injection Hrun as <-.
  - rewrite bool_decide_eq_false_2.
    + rewrite group_step_provenance in Hrun. by injection Hrun as <-.
    + intros [H _]. apply H. unfold special_group. rewrite !elem_of_cons. auto.
  - destruct (decide (present_datasets echodatas group = [])) as [Hnone | Hsome].
    + rewrite bool_decide_eq_false_2 by (rewrite Hnone; simpl; lia).
      rewrite group_step_absent in Hrun by done. by injection Hrun as <-.
    + destruct (group_step_concat echodatas model p group fr Hns Hsome)
        as (fr0 & _ & Heq).
      rewrite Heq in Hrun. clear Heq.
      destruct (concatenated SONAR_MODELS echodatas model p group) as [e|cg]; [done|].
      rewrite bind_run in Hrun.
      destruct (fix_ping_time cg (snapshot fr group echodatas)) as [fr1 [e|cg']] eqn:Efix;
        [done|].
      apply fix_ping_time_old_attrs in Efix.
      rewrite store_group_run in Hrun. injection Hrun as <-. simpl. rewrite Efix.
      unfold snapshot. case_bool_decide as Hlen.
      * by rewrite bool_decide_eq_true_2.
      * rewrite bool_decide_eq_false_2; [done | by intros [_ ?]].
Qed.

(** The attrs snapshots when the loop has ended. *)
Lemma loop_old_attrs echodatas model p groups fr fr' :
  NoDup groups →
  for_each groups (group_step echodatas model p) fr = (fr', inr tt) →
  (NoDup (old_attrs fr).*1 → NoDup (old_attrs fr').*1) ∧
  ∀ group,
    dict_get group (old_attrs fr') =
    if bool_decide (snapshot_taken groups echodatas group)
    then Some (ds_attrs <$> present_datasets echodatas group)
    else dict_get group (old_attrs fr).
Proof.
  revert fr. induction groups as [|g gs IH]; intros fr Hnd Hrun.
  - rewrite for_each_nil in Hrun. injection Hrun as <-. split; [done|].
    intros group. rewrite bool_decide_eq_false_2; [done|].
    intros [Hin _]. by apply elem_of_nil in Hin.
  - apply NoDup_cons in Hnd as [Hg Hnd].
    apply for_each_cons_ok in Hrun as (fr1 & Hstep & Hrest).
    apply step_old_attrs in Hstep.
    destruct (IH fr1 Hnd Hrest) as [Hnd' Hget]. split.
    + intros Hfr. apply Hnd'. rewrite Hstep. case_bool_decide; [|done].
      by apply dict_set_NoDup.
    + intros group. rewrite Hget, Hstep. unfold snapshot_taken.
      destruct (decide (group = g)) as [->|Hne].
      * rewrite (bool_decide_eq_false_2 (g ∈ gs ∧ _)) by (by intros [? _]).
        rewrite (bool_decide_ext (g ∈ g :: gs ∧ _)
                   (¬ special_group g ∧
                    (1 < length (present_datasets echodatas g))%nat)).
        -- destruct (bool_decide _); [apply dict_get_set_eq | done].
        -- split; [by intros [_ ?] | intros ?; split; [by left | done]].
      * rewrite (bool_decide_ext (group ∈ g :: gs ∧ _)
                   (group ∈ gs ∧ ¬ special_group group ∧
                    (1 < length (present_datasets echodatas group))%nat)).
        -- destruct (bool_decide (group ∈ gs ∧ _)); [done|].
           destruct (bool_decide _); [by apply dict_get_set_ne | done].
        -- rewrite elem_of_cons. split; [intros [[?|?] ?]; done | intros [? ?]; auto].
Qed.

Lemma save_old_ping_time_exact fr fr' :
  save_old_ping_time fr = (fr', inr tt) →
  old_attrs fr' = old_attrs fr ∧
  match old_ping_time fr with
  | None => result fr' = result fr
  | Some da =>
      ∃ prov prov',
        getattr (result fr) "provenance" = Some prov ∧
        ds_setitem_array prov "old_ping_time" "ping_time" da = inr prov' ∧
        result fr' = setattr (result fr) "provenance" (Some prov')
  end.
Proof.
  unfold save_old_ping_time. rewrite bind_run. unfold gets at 1.
  destruct (old_ping_time fr) as [da|].
  - rewrite bind_run. unfold gets at 1.
    destruct (getattr (result fr) "provenance") as [prov|] eqn:Eprov; [|done].
    rewrite bind_run. unfold lift at 1.
    destruct (ds_setitem_array prov "old_ping_time" "ping_time" da) as [e|prov'] eqn:Eset;
      [done|].
    intros [= <-]. split; [done|]. by exists prov, prov'.
  - by intros [= <-].
Qed.

(** The variables of the provenance group once the snapshots are
    assigned: the snapshots under their names, each over a dimension of
    that name, the others as before. *)
Lemma save_old_attrs_exact fr fr' prov :
  save_old_attrs fr = (fr', inr tt) →
  NoDup (old_attrs fr).*1 →
  getattr (result fr) "provenance" = Some prov →
  ∃ prov',
    getattr (result fr') "provenance" = Some prov' ∧
    ∀ name,
      ds_vars prov' !! name =
      match dict_get name (attrs_items (old_attrs fr)) with
      | Some v => Some (mkDataArray (Some name) v)
      | None => ds_vars prov !! name
      end.
Proof.
  unfold save_old_attrs. rewrite bind_run. unfold gets at 1.
  intros Hrun Hnd Hprov.
  set (items := attrs_items (old_attrs fr)) in *.
  set (assigned := λ P : Dataset, ∀ name,
         ds_vars P !! name =
         match dict_get name items with
         | Some v => Some (mkDataArray (Some name) v)
         | None => ds_vars prov !! name
         end).
  assert (∀ P P', (∀ name, dict_get name items = None →
                           ds_vars P !! name = ds_vars prov !! name) →
                  ds_assign P items = inr P' → assigned P') as Hassign.
  { intros P P' HP Hrun' name.
    rewrite (ds_assign_lookup_items _ _ _ name Hrun') by by apply attrs_items_NoDup.
    destruct (dict_get name items) eqn:E; [done|]. by apply HP. }
  destruct (old_attrs fr) as [|[k v] d] eqn:Eold.
  { rewrite fmap_nil, for_each_nil in Hrun. injection Hrun as <-. by exists prov. }
  rewrite fmap_cons in Hrun. apply for_each_cons_ok in Hrun as (fr1 & Hfirst & Hrest).
  rewrite bind_run in Hfirst. unfold gets at 1 in Hfirst. rewrite Hprov in Hfirst.
  rewrite bind_run in Hfirst. unfold lift at 1 in Hfirst.
  destruct (ds_assign prov items) as [e|prov1] eqn:Efirst; [done|].
  injection Hfirst as <-.
  eapply (for_each_ok_invariant
            (λ fr0, ∃ P, getattr (result fr0) "provenance" = Some P ∧ assigned P));
    [|exact Hrest|].
  - intros k0 fr0 fr2 _ Hstep (P & HP & HaP). cbv beta in Hstep.
    rewrite bind_run in Hstep. unfold gets at 1 in Hstep. rewrite HP in Hstep.
    rewrite bind_run in Hstep. unfold lift at 1 in Hstep.
    destruct (ds_assign P items) as [e|P'] eqn:Eassign; [done|].
    injection Hstep as <-. exists P'.
    split; [simpl; apply getattr_setattr_eq|].
    eapply Hassign; [|exact Eassign]. intros name Hname. rewrite HaP. by rewrite Hname.
  - exists prov1. split; [simpl; apply getattr_setattr_eq|].
    by eapply Hassign; [|exact Efirst].
Qed.

(** The variables of the provenance group of the record returned, in
    terms of the frame in which the loop ended. *)
Lemma returned_provenance_vars echodatas combine_attrs fr r :
  combine echodatas combine_attrs = (fr, inr r) →
  echodatas ≠ [] →
  NoDup group_map →
  "provenance" ∈ group_map →
  ∃ m frl prov,
    checked_model echodatas = Some m ∧
    for_each group_map
      (group_step echodatas (Some m) (default "override" combine_attrs))
      initial_frame = (frl, inr tt) ∧
    getattr r "provenance" = Some prov ∧
    ∀ name,
      ds_vars prov !! name =
      match dict_get name (attrs_items (old_attrs frl)) with
      | Some v => Some (mkDataArray (Some name) v)
      | None =>
          if bool_decide (name = "old_ping_time") then old_ping_time frl
          else if bool_decide (name = "ping_time")
               then da ← old_ping_time frl;
                    if bool_decide (da_dim da = Some "ping_time") then Some da else None
               else if bool_decide (name = "src_filenames")
                    then Some (mkDataArray (Some "file") (CStr <$> (origin <$> echodatas)))
                    else None
      end.
Proof.
  intros Hrun Hne Hnd Hin. destruct echodatas as [|ed rest]; [done|].
  rewrite combine_nonempty in Hrun.
  destruct (check_sonar_models None (ed :: rest)) as [e|model] eqn:Echeck; [done|].
  pose proof Echeck as Hc.
  apply check_sonar_models_none in Hc as [[? _] | (m & -> & _ & _)]; [done|].
  unfold after_check in Hrun. rewrite bind_run in Hrun.
  destruct (for_each group_map _ initial_frame) as [frl [e|[]]] eqn:Eloop; [done|].
  rewrite bind_run in Hrun.
  destruct (save_old_ping_time frl) as [fr2 [e|[]]] eqn:E2; [done|].
  rewrite bind_run in Hrun.
  destruct (save_old_attrs fr2) as [fr3 [e|[]]] eqn:E3; [done|].
  unfold gets in Hrun. injection Hrun as <- <-.
  pose proof (loop_provenance _ _ _ _ _ _ Hin Eloop) as Hprov0.
  destruct (loop_old_attrs _ _ _ _ _ _ Hnd Eloop) as [Hkeys _].
  specialize (Hkeys ltac:(simpl; apply NoDup_nil_2)).
  apply save_old_ping_time_exact in E2 as [Hold2 Hres2].
  set (prov0 := drop_dims (provenance_of (origin <$> ed :: rest)) "concat_dim") in *.
  assert (∀ name, ds_vars prov0 !! name =
                  if bool_decide (name = "src_filenames")
                  then Some (mkDataArray (Some "file") (CStr <$> (origin <$> ed :: rest)))
                  else None) as Hvars0.
  { intros name. case_bool_decide as Hsrc.
    - subst name. apply provenance_src_filenames.
    - unfold prov0. simpl. apply map_lookup_filter_None. left.
      by rewrite lookup_singleton_ne. }
  assert (∃ prov1, getattr (result fr2) "provenance" = Some prov1 ∧
            ∀ name, ds_vars prov1 !! name =
                    if bool_decide (name = "old_ping_time") then old_ping_time frl
                    else if bool_decide (name = "ping_time")
                         then da ← old_ping_time frl;
                              if bool_decide (da_dim da = Some "ping_time")
                              then Some da else None
                         else ds_vars prov0 !! name) as (prov1 & Hprov1 & Hvars1).
  { destruct (old_ping_time frl) as [da|].
    - destruct Hres2 as (prov & prov' & Hp & Hset & ->). exists prov'.
      split; [apply getattr_setattr_eq|]. intros name.
      rewrite (ds_setitem_array_lookup _ _ _ _ _ name Hset) by done.
      assert (prov = prov0) as -> by congruence.
      destruct (decide (name = "old_ping_time")) as [->|Hname].
      { by rewrite !bool_decide_eq_true_2. }
      rewrite !(bool_decide_eq_false_2 (name = "old_ping_time")) by done. simpl.
      destruct (decide (name = "ping_time")) as [->|Hping].
      + rewrite (bool_decide_eq_true_2 ("ping_time" = "ping_time")) by done.
        destruct (decide (da_dim da = Some "ping_time")) as [Hd|Hd].
        * by rewrite !bool_decide_eq_true_2.
        * rewrite (bool_decide_eq_false_2 (_ ∧ _)) by (by intros [_ ?]).
          rewrite (bool_decide_eq_false_2 _ Hd). by rewrite Hvars0, bool_decide_eq_false_2.
      + rewrite (bool_decide_eq_false_2 (_ ∧ _)) by (by intros [? _]).
        by rewrite (bool_decide_eq_false_2 _ Hping).
    - rewrite Hres2. exists prov0. split; [done|]. intros name. simpl.
      rewrite Hvars0. repeat case_bool_decide; by subst. }
  rewrite <- Hold2 in Hkeys.
  destruct (save_old_attrs_exact _ _ _ E3 Hkeys Hprov1) as (prov & Hprov & Hvars).
  exists m, frl, prov. split; [by apply checked_model_ok|]. split; [done|].
  split; [done|]. intros name. rewrite Hvars, Hold2, Hvars1.
  destruct (dict_get name (attrs_items (old_attrs frl))); [done|].
  case_bool_decide; [done|]. case_bool_decide; [done|]. apply Hvars0.
Qed.

(** X10: when a reversal is detected in some group of a call that
    returns, the provenance group gets a variable [old_ping_time] that
    holds the [ping_time] read, before the repair, from the first group
    of the loop in which a reversal was detected; when no reversal is
    detected, the provenance group has no such variable. *)
Theorem old_ping_time_kept_in_provenance (echodatas : list EchoData)
    (combine_attrs : option string) (fr : Frame) (r : EchoData) :
  let model := checked_model echodatas in
  let policy := default "override" combine_attrs in
  let reversed := reversed_group SONAR_MODELS echodatas model policy in
  combine echodatas combine_attrs = (fr, inr r) →
  echodatas ≠ [] →
  NoDup group_map →
  "provenance" ∈ group_map →
  ∃ prov,
    getattr r "provenance" = Some prov ∧
    if existsb reversed group_map
    then ∃ earlier first later cg da,
           group_map = (earlier ++ first :: later)%list ∧
           existsb reversed earlier = false ∧
           reversed first = true ∧
           concatenated SONAR_MODELS echodatas model policy first = inr cg ∧
           ds_vars cg !! "ping_time" = Some da ∧
           ds_vars prov !! "old_ping_time" = Some da
    else ds_vars prov !! "old_ping_time" = None.
Proof.
  intros model policy reversed Hrun Hne Hnd Hin. subst model policy reversed.
  destruct (returned_provenance_vars _ _ _ _ Hrun Hne Hnd Hin)
    as (m & frl & prov & Hm & Hloop & Hprov & Hvars).
  rewrite Hm. exists prov. split; [done|].
  specialize (Hvars "old_ping_time").
  rewrite dict_get_attrs_items_other in Hvars by apply attrs_name_not_old_ping_time.
  rewrite bool_decide_eq_true_2 in Hvars by done.
  destruct (existsb _ group_map) eqn:Hex.
  - destruct (loop_first_reversal _ _ _ _ initial_frame _ eq_refl Hloop Hex)
      as (earlier & first & later & cg & da & ts & Hmap & Hno & Hfirst & Hcg & _ & Hda & _ &
          Ho & _).
    exists earlier, first, later, cg, da.
    split; [done|]. split; [done|]. split; [done|]. split; [done|]. split; [done|].
    congruence.
  - destruct (loop_times _ _ _ _ initial_frame _ _ eq_refl Hloop) as [_ Hnone].
    rewrite Hvars. by apply Hnone.
Qed.

(** C3, on the code: when a reversal is detected in a call that
    returns, the [ping_time] that the call keeps as [old_ping_time] is
    not strictly increasing, and the provenance group of the record
    returned holds it: under [old_ping_time] and, when the array is the
    coordinate of the dimension "ping_time", also as the coordinate
    [ping_time] of the provenance group, which the assignment of
    [old_ping_time] brings with it. *)
Theorem reversal_leaves_old_axis_in_provenance (echodatas : list EchoData)
    (combine_attrs : option string) (fr : Frame) (r : EchoData) :
  let model := checked_model echodatas in
  let policy := default "override" combine_attrs in
  combine echodatas combine_attrs = (fr, inr r) →
  NoDup group_map →
  "provenance" ∈ group_map →
  existsb (reversed_group SONAR_MODELS echodatas model policy) group_map = true →
  ∃ prov da,
    getattr r "provenance" = Some prov ∧
    old_ping_time fr = Some da ∧
    ¬ increasing_time da ∧
    ds_vars prov !! "old_ping_time" = Some da ∧
    (da_dim da = Some "ping_time" → ds_vars prov !! "ping_time" = Some da).
Proof.
  intros model policy Hrun Hnd Hin Hex. subst model policy.
  assert (echodatas ≠ []) as Hne.
  { intros ->. clear -Hex. induction group_map as [|g gs IH]; [done|].
    simpl in Hex. by rewrite reversed_group_empty in Hex. }
  destruct (returned_provenance_vars _ _ _ _ Hrun Hne Hnd Hin)
    as (m & frl & prov & Hm & Hloop & Hprov & Hvars).
  destruct (combine_returns _ _ _ _ Hrun Hne) as (m' & fr1 & Hm' & _ & Hloop' & Ht & _).
  apply checked_model_ok in Hm'. assert (m' = m) as -> by congruence.
  assert (fr1 = frl) as -> by congruence.
  rewrite Hm in Hex.
  destruct (loop_first_reversal _ _ _ _ initial_frame _ eq_refl Hloop Hex)
    as (earlier & first & later & cg & da & ts & _ & _ & _ & _ & Hrev & Hda & Hts & Ho & _).
  apply reversal_detected_true in Hrev as (da' & ts' & Hda' & Hts' & Hdetect).
  assert (da' = da) as -> by congruence. assert (ts' = ts) as -> by congruence.
  pose proof (Hvars "old_ping_time") as Hold.
  rewrite dict_get_attrs_items_other in Hold by apply attrs_name_not_old_ping_time.
  rewrite bool_decide_eq_true_2 in Hold by done.
  pose proof (Hvars "ping_time") as Hping.
  rewrite dict_get_attrs_items_other in Hping by apply attrs_name_not_ping_time.
  rewrite bool_decide_eq_false_2, bool_decide_eq_true_2 in Hping by done.
  rewrite Ho in Hold, Hping. simpl in Hping.
  exists prov, da. split; [done|]. split; [|split; [|split; [done|]]].
  - destruct Ht as (Hsame & _). congruence.
  - intros (ts' & Hts'' & Hinc). assert (ts' = ts) as -> by congruence.
    apply detect_spec in Hinc. congruence.
  - intros Hd. by rewrite Hping, (bool_decide_eq_true_2 _ Hd).
Qed.

(** X11: in a call that returns, each group that was concatenated from
    more than one dataset leaves a variable "<group>_attrs" in the
    provenance group, whose values are the attrs of the contributing
    datasets, in input order, as they were before the merge; for any
    other group name there is no such variable. *)
Theorem attrs_snapshots_in_provenance (echodatas : list EchoData)
    (combine_attrs : option string) (fr : Frame) (r : EchoData) (group : string) :
  combine echodatas combine_attrs = (fr, inr r) →
  echodatas ≠ [] →
  NoDup group_map →
  "provenance" ∈ group_map →
  ∃ prov,
    getattr r "provenance" = Some prov ∧
    (snapshot_taken group_map echodatas group →
     ∃ da, ds_vars prov !! (group +:+ "_attrs") = Some da ∧
           da_values da = CAttrs <$> (ds_attrs <$> present_datasets echodatas group)) ∧
    (¬ snapshot_taken group_map echodatas group →
     ds_vars prov !! (group +:+ "_attrs") = None).
Proof.
  intros Hrun Hne Hnd Hin.
  destruct (returned_provenance_vars _ _ _ _ Hrun Hne Hnd Hin)
    as (m & frl & prov & _ & Hloop & Hprov & Hvars).
  exists prov. split; [done|].
  specialize (Hvars (group +:+ "_attrs")).
  rewrite dict_get_attrs_items in Hvars.
  destruct (loop_old_attrs _ _ _ _ _ _ Hnd Hloop) as [_ Hget].
  rewrite Hget in Hvars. split.
  - intros Htaken. rewrite (bool_decide_eq_true_2 _ Htaken) in Hvars.
    eexists. split; [exact Hvars | done].
  - intros Hnot. rewrite (bool_decide_eq_false_2 _ Hnot) in Hvars. simpl in Hvars.
    rewrite Hvars.
    rewrite bool_decide_eq_false_2
      by (intros H; symmetry in H; by apply attrs_name_not_old_ping_time in H).
    rewrite bool_decide_eq_false_2
      by (intros H; symmetry in H; by apply attrs_name_not_ping_time in H).
    rewrite bool_decide_eq_false_2
      by (intros H; symmetry in H; by apply attrs_name_not_src_filenames in H).
    done.
Qed.

(** ** The attrs policies of the docstring, end to end *)

(** X12: with "drop", every concatenated group of the record returned
    has empty attrs. *)
Theorem drop_policy_empties_attrs (echodatas : list EchoData) (fr : Frame) (r : EchoData)
    (group : string) :
  combine echodatas (Some "drop") = (fr, inr r) →
  NoDup group_map → group ∈ group_map →
  ¬ special_group group →
  present_datasets echodatas group ≠ [] →
  ∃ ds, getattr r group = Some ds ∧ ds_attrs ds = ∅.
Proof.
  intros Hrun Hnd Hin Hns Hsome.
  destruct (concatenated_group_final _ _ _ _ _ Hrun Hnd Hin Hns Hsome)
    as (m & cat & ds & _ & Hcat & Hget & Hattrs & _).
  change (default "override" (Some "drop")) with "drop" in *.
  rewrite bool_decide_eq_false_2 in Hattrs by done.
  unfold policy_passed in Hcat. rewrite bool_decide_eq_false_2 in Hcat by done.
  apply xr_combine_nested_ok in Hcat as (Hmerge & _).
  rewrite merge_attrs_drop in Hmerge.
  exists ds. split; [done|]. congruence.
Qed.

Lemma merge_attrs_identical first rest a :
  merge_attrs (first :: rest) "identical" = inr a →
  a = first ∧ Forall (λ m, m = first) rest.
Proof.
  unfold merge_attrs.
  rewrite !bool_decide_eq_false_2 by done. rewrite bool_decide_eq_true_2 by done.
  destruct (forallb _ rest) eqn:Hall; [|done].
  intros [= <-]. split; [done|].
  apply Forall_forall. intros m Hm.
  rewrite forallb_forall in Hall. apply list_elem_of_In in Hm.
  specialize (Hall m Hm). by apply bool_decide_eq_true in Hall.
Qed.

(** X13: with "identical", a call that returns has found the attrs of
    all datasets contributing to a concatenated group to be the same
    mapping, and the group in the record returned has these attrs. *)
Theorem identical_policy_attrs_agree (echodatas : list EchoData) (fr : Frame) (r : EchoData)
    (group : string) :
  combine echodatas (Some "identical") = (fr, inr r) →
  NoDup group_map → group ∈ group_map →
  ¬ special_group group →
  present_datasets echodatas group ≠ [] →
  ∃ ds, getattr r group = Some ds ∧
        ∀ d, d ∈ present_datasets echodatas group → ds_attrs d = ds_attrs ds.
Proof.
  intros Hrun Hnd Hin Hns Hsome.
  destruct (concatenated_group_final _ _ _ _ _ Hrun Hnd Hin Hns Hsome)
    as (m & cat & ds & _ & Hcat & Hget & Hattrs & _).
  change (default "override" (Some "identical")) with "identical" in *.
  rewrite bool_decide_eq_false_2 in Hattrs by done.
  unfold policy_passed in Hcat. rewrite bool_decide_eq_false_2 in Hcat by done.
  apply xr_combine_nested_ok in Hcat as (Hmerge & _).
  exists ds. split; [done|]. rewrite Hattrs.
  destruct (present_datasets echodatas group) as [|first rest]; [done|].
  rewrite fmap_cons in Hmerge.
  apply merge_attrs_identical in Hmerge as [Hfirst Hrest].
  intros d Hd. apply elem_of_cons in Hd as [-> | Hd]; [done|].
  rewrite Forall_forall in Hrest. rewrite Hfirst. apply Hrest.
  apply list_elem_of_fmap. by exists d.
Qed.

Lemma attrs_compatible_spec (a b : Attrs) :
  attrs_compatible a b = true →
  ∀ k v v', a !! k = Some v → b !! k = Some v' → v = v'.
Proof.
  unfold attrs_compatible. intros H%bool_decide_eq_true k v v' Ha Hb.
  destruct (H k v' Hb) as [Hn | Hs]; congruence.
Qed.

Lemma merge_no_conflicts_ok acc l a :
  merge_no_conflicts acc l = inr a →
  (∀ k v, acc !! k = Some v → a !! k = Some v) ∧
  (∀ m k v, m ∈ l → m !! k = Some v → a !! k = Some v) ∧
  (∀ k v, a !! k = Some v → acc !! k = Some v ∨ ∃ m, m ∈ l ∧ m !! k = Some v).
Proof.
  revert acc. induction l as [|b rest IH]; intros acc; simpl.
  - intros [= <-]. split; [done|]. split; [|by left].
    intros m k v Hm. by apply elem_of_nil in Hm.
  - destruct (attrs_compatible acc b) eqn:Hcompat; [|done].
    intros Hrun. destruct (IH _ Hrun) as (Hacc & Hrest & Hfrom).
    assert (∀ k v, b !! k = Some v → dict_update acc b !! k = Some v) as Hb.
    { intros k v Hk. unfold dict_update. by apply lookup_union_Some_l. }
    assert (∀ k v, acc !! k = Some v → dict_update acc b !! k = Some v) as Ha.
    { intros k v Hk. unfold dict_update. destruct (b !! k) as [v'|] eqn:Ebk.
      - rewrite (attrs_compatible_spec _ _ Hcompat k v v' Hk Ebk).
        by apply lookup_union_Some_l.
      - by rewrite lookup_union_r. }
    split; [|split].
    + intros k v Hk. by apply Hacc, Ha.
    + intros m k v Hm Hk. apply elem_of_cons in Hm as [-> | Hm].
      * by apply Hacc, Hb.
      * by eapply Hrest.
    + intros k v Hk. destruct (Hfrom k v Hk) as [Hu | (m & Hm & Hmk)].
      * unfold dict_update in Hu. apply lookup_union_Some_raw in Hu as [Hbk | [_ Hak]].
        -- right. exists b. split; [by left | done].
        -- by left.
      * right. exists m. split; [by right | done].
Qed.

(** X14: with "no_conflicts", a call that returns keeps every attr of
    every dataset contributing to a concatenated group, with its value,
    and the group has no attr that none of them defines. *)
Theorem no_conflicts_policy_keeps_all_attrs (echodatas : list EchoData) (fr : Frame)
    (r : EchoData) (group : string) :
  combine echodatas (Some "no_conflicts") = (fr, inr r) →
  NoDup group_map → group ∈ group_map →
  ¬ special_group group →
  present_datasets echodatas group ≠ [] →
  ∃ ds, getattr r group = Some ds ∧
        (∀ d key v, d ∈ present_datasets echodatas group →
                    ds_attrs d !! key = Some v → ds_attrs ds !! key = Some v) ∧
        (∀ key v, ds_attrs ds !! key = Some v →
                  ∃ d, d ∈ present_datasets echodatas group ∧ ds_attrs d !! key = Some v).
Proof.
  intros Hrun Hnd Hin Hns Hsome.
  destruct (concatenated_group_final _ _ _ _ _ Hrun Hnd Hin Hns Hsome)
    as (m & cat & ds & _ & Hcat & Hget & Hattrs & _).
  change (default "override" (Some "no_conflicts")) with "no_conflicts" in *.
  rewrite bool_decide_eq_false_2 in Hattrs by done.
  unfold policy_passed in Hcat. rewrite bool_decide_eq_false_2 in Hcat by done.
  apply xr_combine_nested_ok in Hcat as (Hmerge & _).
  exists ds. split; [done|]. rewrite Hattrs.
  destruct (present_datasets echodatas group) as [|first rest]; [done|].
  rewrite fmap_cons in Hmerge. unfold merge_attrs in Hmerge.
  rewrite !bool_decide_eq_false_2 in Hmerge by done.
  rewrite bool_decide_eq_true_2 in Hmerge by done.
  apply merge_no_conflicts_ok in Hmerge as (Hacc & Hrest & Hfrom). split.
  - intros d key v Hd Hk. apply elem_of_cons in Hd as [-> | Hd]; [by apply Hacc|].
    apply (Hrest (ds_attrs d)); [|done]. apply list_elem_of_fmap. by exists d.
  - intros key v Hk. destruct (Hfrom key v Hk) as [Hf | (m0 & Hm0 & Hk0)].
    + exists first. split; [by left | done].
    + apply list_elem_of_fmap in Hm0 as (d & -> & Hd). exists d. split; [by right | done].
Qed.

(** ** Fixed-width strings of the beam group *)

Lemma substring_width n s : (String.length (String.substring 0 n s) ≤ n)%nat.
Proof.
  revert s. induction n as [|n IH]; intros [|a s]; simpl; try lia.
  specialize (IH s). lia.
Qed.

Lemma astype_U_width n da s :
  CStr (Some s) ∈ da_values (astype_U n da) → (String.length s ≤ n)%nat.
Proof.
  unfold astype_U. simpl. rewrite list_elem_of_In, in_map_iff.
  intros (c & Hc & _). destruct c as [t | [s0|] | m]; try done.
  injection Hc as <-. apply substring_width.
Qed.

Lemma astype_var_ok ds name n ds' :
  astype_var ds name n = inr ds' →
  ∃ da, ds_vars ds !! name = Some da ∧
        ds_vars ds' = <[name := astype_U n da]> (ds_vars ds).
Proof.
  unfold astype_var, ds_getitem.
  destruct (ds_vars ds !! name) as [da|]; simpl; [|done].
  intros (Hv & _)%ds_setitem_ok. by exists da.
Qed.

Lemma drop_dims_lookup_keep ds d name da :
  ds_vars ds !! name = Some da → da_dim da ≠ Some d →
  ds_vars (drop_dims ds d) !! name = Some da.
Proof. intros Hl Hd. simpl. by apply map_lookup_filter_Some. Qed.

(** The two normalised variables after [normalize_beam] on the beam
    group: both existed, and both were cut. *)
Lemma normalize_beam_ok m version cg cg' :
  (m, version) ∈ [("EK80", "transceiver_software_version"); ("EK60", "gpt_software_version")] →
  normalize_beam (Some m) "beam" cg = inr cg' →
  ∃ v c, ds_vars cg !! version = Some v ∧
         ds_vars cg !! "channel_id" = Some c ∧
         ds_vars cg' !! version = Some (astype_U 10 v) ∧
         ds_vars cg' !! "channel_id" = Some (astype_U 50 c).
Proof.
  intros Hm Hrun. unfold normalize_beam in Hrun.
  rewrite bool_decide_eq_true_2 in Hrun by done.
  assert (∀ cg1, astype_var cg version 10 = inr cg1 →
                 astype_var cg1 "channel_id" 50 = inr cg' →
                 version ≠ "channel_id" →
                 ∃ v c, ds_vars cg !! version = Some v ∧
                        ds_vars cg !! "channel_id" = Some c ∧
                        ds_vars cg' !! version = Some (astype_U 10 v) ∧
                        ds_vars cg' !! "channel_id" = Some (astype_U 50 c)) as Hboth.
  { intros cg1 (v & Hv & Hv1)%astype_var_ok (c & Hc & Hc1)%astype_var_ok Hne.
    rewrite Hv1, lookup_insert_ne in Hc by done.
    exists v, c. split; [done|]. split; [done|]. rewrite Hc1, Hv1. split.
    - rewrite lookup_insert_ne by done. apply lookup_insert_eq.
    - apply lookup_insert_eq. }
  rewrite !elem_of_cons, elem_of_nil in Hm.
  destruct Hm as [[= -> ->] | [[= -> ->] | []]].
  - rewrite bool_decide_eq_true_2 in Hrun by done.
    destruct (astype_var cg _ 10) as [e|cg1] eqn:E1; simpl in Hrun; [done|].
    by apply (Hboth cg1).
  - rewrite bool_decide_eq_false_2 in Hrun by done.
    rewrite bool_decide_eq_true_2 in Hrun by done.
    destruct (astype_var cg _ 10) as [e|cg1] eqn:E1; simpl in Hrun; [done|].
    by apply (Hboth cg1).
Qed.

(** X15: for the models EK80 and EK60, a call that returns a beam group
    has found the software-version variable of the model and
    [channel_id] in the concatenated group (a missing one is a
    [KeyError]), and the record returned holds them cut to fixed width:
    no version string is longer than 10 characters and no channel
    identifier longer than 50. *)
Theorem beam_strings_fixed_width (echodatas : list EchoData)
    (combine_attrs : option string) (fr : Frame) (r : EchoData) (m version : string) :
  combine echodatas combine_attrs = (fr, inr r) →
  NoDup group_map → "beam" ∈ group_map →
  present_datasets echodatas "beam" ≠ [] →
  checked_model echodatas = Some m →
  (m, version) ∈ [("EK80", "transceiver_software_version"); ("EK60", "gpt_software_version")] →
  ∃ cat v c ds,
    xr_combine_nested (present_datasets echodatas "beam")
      (concat_dim_of (SONAR_MODELS m) "beam") (data_vars_of (SONAR_MODELS m) "beam")
      (policy_passed (default "override" combine_attrs)) = inr cat ∧
    ds_vars cat !! version = Some v ∧
    ds_vars cat !! "channel_id" = Some c ∧
    getattr r "beam" = Some ds ∧
    (da_dim v ≠ Some "concat_dim" → ds_vars ds !! version = Some (astype_U 10 v)) ∧
    (da_dim c ≠ Some "concat_dim" → ds_vars ds !! "channel_id" = Some (astype_U 50 c)) ∧
    (∀ s, CStr (Some s) ∈ da_values (astype_U 10 v) → (String.length s ≤ 10)%nat) ∧
    (∀ s, CStr (Some s) ∈ da_values (astype_U 50 c) → (String.length s ≤ 50)%nat).
Proof.
  intros Hrun Hnd Hin Hsome Hm Hversion.
  assert (¬ special_group "beam") as Hns.
  { unfold special_group. rewrite !elem_of_cons, elem_of_nil. by intros [?|[?|[?|?]]]. }
  destruct (concatenated_group_value _ _ _ _ _ Hrun Hnd Hin Hns Hsome)
    as (m0 & cg & cg' & Hm0 & _ & Hcg & (_ & _ & Hfix) & _ & Hget).
  assert (m0 = m) as -> by congruence.
  apply concatenated_ok in Hcg as (cat & Hcat & Hnorm).
  destruct (normalize_beam_ok _ _ _ _ Hversion Hnorm) as (v & c & Hv & Hc & Hv' & Hc').
  assert (version ≠ "ping_time") as Hvp.
  { rewrite !elem_of_cons, elem_of_nil in Hversion.
    by destruct Hversion as [[= _ ->] | [[= _ ->] | []]]. }
  exists cat, v, c, (drop_dims cg' "concat_dim").
  split; [done|]. split; [by destruct (bool_decide _)|].
  split; [by destruct (bool_decide _)|]. split; [done|].
  split; [|split; [|split]].
  - intros Hd. apply drop_dims_lookup_keep; [|done].
    rewrite Hfix; [done|]. rewrite elem_of_cons, elem_of_nil. by intros [?|?].
  - intros Hd. apply drop_dims_lookup_keep; [|done].
    rewrite Hfix; [done|]. rewrite elem_of_cons, elem_of_nil. by intros [?|?].
  - intros s. apply astype_U_width.
  - intros s. apply astype_U_width.
Qed.

(** X16: outside the beam group, and for models other than EK80 and
    EK60, no string is cut: every variable of the stored group other
    than [ping_time] is the one of the concatenation (when it is not over
    the dropped synthetic dimension). *)
Theorem no_normalization_elsewhere (echodatas : list EchoData)
    (combine_attrs : option string) (fr : Frame) (r : EchoData) (group m : string) :
  combine echodatas combine_attrs = (fr, inr r) →
  NoDup group_map → group ∈ group_map →
  ¬ special_group group →
  present_datasets echodatas group ≠ [] →
  checked_model echodatas = Some m →
  group ≠ "beam" ∨ (m ≠ "EK80" ∧ m ≠ "EK60") →
  ∃ cat ds,
    xr_combine_nested (present_datasets echodatas group)
      (concat_dim_of (SONAR_MODELS m) group) (data_vars_of (SONAR_MODELS m) group)
      (policy_passed (default "override" combine_attrs)) = inr cat ∧
    getattr r group = Some ds ∧
    ∀ name, name ≠ "ping_time" →
            ds_vars ds !! name = ds_vars (drop_dims cat "concat_dim") !! name.
Proof.
  intros Hrun Hnd Hin Hns Hsome Hm Hcase.
  destruct (concatenated_group_value _ _ _ _ _ Hrun Hnd Hin Hns Hsome)
    as (m0 & cg & cg' & Hm0 & _ & Hcg & Hagree & _ & Hget).
  assert (m0 = m) as -> by congruence.
  apply concatenated_ok in Hcg as (cat & Hcat & Hnorm).
  exists cat, (drop_dims cg' "concat_dim"). split; [done|]. split; [done|].
  assert (ds_vars cg = ds_vars cat) as Hsame.
  { unfold normalize_beam in Hnorm. destruct Hcase as [Hg | [H80 H60]].
    - rewrite (bool_decide_eq_false_2 _ Hg) in Hnorm. injection Hnorm as <-.
      by destruct (bool_decide _).
    - case_bool_decide; [|injection Hnorm as <-; by destruct (bool_decide _)].
      rewrite !bool_decide_eq_false_2 in Hnorm by congruence.
      injection Hnorm as <-. by destruct (bool_decide _). }
  intros name Hname.
  destruct (drop_dims_agree _ _ _ "concat_dim" Hagree) as (_ & _ & Hv).
  rewrite Hv by (rewrite elem_of_cons, elem_of_nil; by intros [?|?]).
  simpl. by rewrite !map_lookup_filter, Hsame.
Qed.

(** ** Nothing else in the provenance group *)

Lemma dict_get_Some_key {V} k (d : list (string * V)) v :
  dict_get k d = Some v → k ∈ d.*1.
Proof.
  induction d as [|[k' v'] d IH]; simpl; [done|].
  case_bool_decide as Hk.
  - intros _. subst. by left.
  - intros H. right. by apply IH.
Qed.

Lemma dict_get_None_key {V} k (d : list (string * V)) :
  dict_get k d = None → k ∉ d.*1.
Proof.
  induction d as [|[k' v'] d IH]; simpl.
  - intros _ H. by apply elem_of_nil in H.
  - case_bool_decide as Hk; [done|]. intros H Hin.
    apply elem_of_cons in Hin as [?|?]; [done | by apply IH].
Qed.

(** X17: the provenance group of the record returned has no variables
    but [src_filenames], [old_ping_time], the coordinate [ping_time]
    that comes with [old_ping_time] (it is that same array) and the attrs
    snapshots of the groups concatenated from more than one dataset. *)
Theorem provenance_variables_complete (echodatas : list EchoData)
    (combine_attrs : option string) (fr : Frame) (r : EchoData)
    (prov : Dataset) (name : string) :
  combine echodatas combine_attrs = (fr, inr r) →
  NoDup group_map →
  "provenance" ∈ group_map →
  getattr r "provenance" = Some prov →
  is_Some (ds_vars prov !! name) →
  name = "src_filenames" ∨ name = "old_ping_time" ∨
  (name = "ping_time" ∧
   ∃ da, ds_vars prov !! "old_ping_time" = Some da ∧ ds_vars prov !! "ping_time" = Some da ∧
         da_dim da = Some "ping_time") ∨
  ∃ group, snapshot_taken group_map echodatas group ∧ name = group +:+ "_attrs".
Proof.
  intros Hrun Hnd Hin Hprov Hsome.
  destruct echodatas as [|ed rest].
  { injection Hrun as _ <-. unfold getattr in Hprov. simpl in Hprov.
    by rewrite lookup_empty in Hprov. }
  destruct (returned_provenance_vars _ _ _ _ Hrun ltac:(done) Hnd Hin)
    as (m & frl & prov' & _ & Hloop & Hprov' & Hvars).
  assert (prov' = prov) as -> by congruence.
  pose proof (Hvars "old_ping_time") as Hold.
  rewrite dict_get_attrs_items_other in Hold by apply attrs_name_not_old_ping_time.
  rewrite bool_decide_eq_true_2 in Hold by done.
  pose proof (Hvars "ping_time") as Hping.
  rewrite dict_get_attrs_items_other in Hping by apply attrs_name_not_ping_time.
  rewrite bool_decide_eq_false_2, bool_decide_eq_true_2 in Hping by done.
  rewrite Hvars in Hsome.
  destruct (dict_get name (attrs_items (old_attrs frl))) as [v|] eqn:Eget.
  - right; right; right. apply dict_get_Some_key in Eget.
    rewrite attrs_items_keys in Eget. apply list_elem_of_fmap in Eget as (g & -> & Hg).
    exists g. split; [|done].
    destruct (loop_old_attrs _ _ _ _ _ _ Hnd Hloop) as [_ Hget].
    specialize (Hget g). case_bool_decide as Htaken; [done|].
    simpl in Hget. exfalso. by apply dict_get_None_key in Hget.
  - destruct (decide (name = "old_ping_time")) as [->|Hn1]; [by right; left|].
    rewrite (bool_decide_eq_false_2 _ Hn1) in Hsome.
    destruct (decide (name = "ping_time")) as [->|Hn2].
    + right; right; left. split; [done|].
      destruct (old_ping_time frl) as [da|]; simpl in *; [|by destruct Hsome].
      exists da. case_bool_decide as Hd; [done|]. rewrite Hping in *. by destruct Hsome.
    + rewrite (bool_decide_eq_false_2 _ Hn2) in Hsome.
      case_bool_decide; [by left|]. by destruct Hsome.
Qed.

(** ** The group in which the first reversal is found *)

(** X18: at the first group of the loop with a detected reversal, the
    group stored is the concatenated one with its [ping_time] alone
    replaced by the repaired coordinate, which has the dimension and the
    length of the one it replaces; the call keeps the old and the
    repaired coordinate of this group to the end. *)
Theorem first_reversal_repaired_in_place (echodatas : list EchoData)
    (combine_attrs : option string) (fr : Frame) (r : EchoData)
    (earlier : list string) (first : string) (later : list string) :
  let model := checked_model echodatas in
  let policy := default "override" combine_attrs in
  let reversed := reversed_group SONAR_MODELS echodatas model policy in
  combine echodatas combine_attrs = (fr, inr r) →
  NoDup group_map →
  group_map = (earlier ++ first :: later)%list →
  existsb reversed earlier = false →
  reversed first = true →
  ∃ cg da ts,
    concatenated SONAR_MODELS echodatas model policy first = inr cg ∧
    ds_vars cg !! "ping_time" = Some da ∧
    times_of (da_values da) = Some ts ∧
    getattr r first =
      Some (drop_dims (with_ping_time cg (corrected da ts)) "concat_dim") ∧
    da_dim (corrected da ts) = da_dim da ∧
    length (da_values (corrected da ts)) = length (da_values da) ∧
    old_ping_time fr = Some da ∧
    new_ping_time fr = Some (corrected da ts).
Proof.
  intros model policy reversed Hrun Hnd Hmap Hno Hrev. subst model policy reversed.
  assert (echodatas ≠ []) as Hne.
  { intros ->. by rewrite reversed_group_empty in Hrev. }
  apply combine_returns in Hrun as (m & frl & Hcheck & _ & Hloop & Htl & [Hother _]);
    [|done].
  rewrite (checked_model_ok _ _ Hcheck) in *.
  rewrite Hmap in Hloop, Hnd.
  destruct (loop_at _ _ _ _ _ _ _ _ Hnd Hloop) as (fr1 & fr2 & Hb & Hstep & Ha & Hget).
  destruct (loop_times _ _ _ _ initial_frame _ _ eq_refl Hb) as [_ Hold1].
  apply Hold1 in Hno.
  pose proof (step_times _ _ _ _ _ _ _ Hstep) as Hst.
  rewrite Hrev, (bool_decide_eq_true_2 _ Hno) in Hst. simpl in Hst.
  destruct Hst as (_ & _ & cg & da & ts & Hcg & Hda & Hts & Hd & Ho2 & Hn2).
  assert (old_ping_time fr2 ≠ None) as Hsome2 by congruence.
  destruct (loop_times_later _ _ _ _ _ _ _ Hsome2 Ha) as (Ho3 & Hn3 & _).
  destruct Htl as (Ho4 & Hn4 & _).
  assert (¬ special_group first ∧ present_datasets echodatas first ≠ []) as [Hns Hsome].
  { unfold reversed_group in Hrev.
    case_bool_decide as H1; [done|]. case_bool_decide as H2; done. }
  pose proof (concat_step_spec _ _ _ _ _ _ _ Hns Hsome Hstep) as Hspec.
  rewrite Hcg in Hspec.
  assert (reversal_detected cg = true) as Hdet.
  { apply reversal_detected_true. by exists da, ts. }
  rewrite Hdet, Hno in Hspec.
  destruct Hspec as (da' & ts' & Hda' & Hts' & _ & _ & _ & _ & _ & Hres).
  assert (da' = da) as -> by congruence. assert (ts' = ts) as -> by congruence.
  pose proof Hns as [_ Hnp]%not_special.
  exists cg, da, ts. split; [done|]. split; [done|]. split; [done|].
  split; [|split; [done|split; [|split; congruence]]].
  - rewrite Hother by done. rewrite Hget, Hres. apply getattr_setattr_eq.
  - simpl. rewrite !length_fmap, correct_length.
    clear -Hts. revert ts Hts. unfold times_of.
    induction (da_values da) as [|c cs IH]; intros ts Hts.
    + by injection Hts as <-.
    + simpl in Hts. destruct c as [t| |]; simpl in Hts; try done.
      destruct (mapM _ cs) as [ts0|] eqn:E; simpl in Hts; [|done].
      injection Hts as <-. simpl. f_equal. by apply IH.
Qed.

(** ** What the loop keeps for the assignments *)

Lemma step_times_paired echodatas model p group fr fr' r :
  group_step echodatas model p group fr = (fr', r) →
  times_paired fr → times_paired fr'.
Proof.
  intros Hrun Hpaired. pose proof (step_times _ _ _ _ _ _ _ Hrun) as Ht.
  destruct (_ && _).
  - destruct Ht as (_ & _ & cg & da & ts & _ & _ & _ & _ & _ & Hn).
    right. by rewrite Hn.
  - destruct Ht as (Ho & Hn & _). unfold times_paired. by rewrite Ho, Hn.
Qed.

(** X19: after any number of completed iterations of the loop over the
    groups, [new_ping_time] is set whenever [old_ping_time] is, so the
    assignment of [new_ping_time] to a later group never assigns [None];
    and once the iteration of "provenance" is over, the provenance group
    of the result is a dataset, so the assignments that follow the loop
    never apply to [None]. *)
Theorem loop_keeps_assignments_defined (echodatas : list EchoData)
    (combine_attrs : option string) (processed remaining : list string) (fr : Frame) :
  let model := checked_model echodatas in
  let policy := default "override" combine_attrs in
  group_map = (processed ++ remaining)%list →
  for_each processed (group_step echodatas model policy) initial_frame = (fr, inr tt) →
  (is_Some (old_ping_time fr) → is_Some (new_ping_time fr)) ∧
  ("provenance" ∈ processed → is_Some (getattr (result fr) "provenance")).
Proof.
  intros model policy _ Hloop. split.
  - assert (times_paired fr) as [Hnone | Hsome]; [| |done].
    + eapply (for_each_ok_invariant times_paired); [|exact Hloop|by left].
      intros g fr0 fr1 _. apply step_times_paired.
    + rewrite Hnone. by intros [? ?].
  - intros Hin. rewrite (loop_provenance _ _ _ _ _ _ Hin Hloop). by eexists.
Qed.

End Properties.

(** * The properties on sample records *)

Module Examples.

Import Sample.

Local Abbreviation version := "0.5.0".
Local Abbreviation now := "2021-06-01T12:00:00".

Lemma combine_sample_returns echodatas combine_attrs :
  (combine echodatas combine_attrs).2 = inr (returned (combine echodatas combine_attrs)) →
  combine echodatas combine_attrs =
  ((combine echodatas combine_attrs).1, inr (returned (combine echodatas combine_attrs))).
Proof.
  intros H. destruct (combine echodatas combine_attrs) as [fr [e|r]];
    unfold returned in *; simpl in *; [discriminate H | reflexivity].
Qed.

Lemma group_map_NoDup : NoDup group_map.
Proof. compute_done. Qed.

(** C1, the claim as stated: no function reads the position of an
    offending record off the error, because an untagged record raises the
    same error at position 0 and at position 1. *)
Lemma validation_error_names_no_position :
  ¬ ∃ position : exn -> nat,
      ∀ echodatas e,
        (combine echodatas None).2 = inl e → is_validation_error e →
        offending echodatas (position e).
Proof.
  intros [position Hpos].
  pose proof (Hpos [untagged_record] (ValueError none_model_message)
                eq_refl (or_introl eq_refl)) as (ed & Hed & _).
  pose proof (Hpos [first_record; untagged_record] (ValueError none_model_message)
                eq_refl (or_introl eq_refl)) as (ed' & Hed' & Hoff).
  destruct (position (ValueError none_model_message)) as [|n].
  - injection Hed' as <-. destruct Hoff as [Hnone | (j & _ & Hj & _)]; [done | lia].
  - destruct n; discriminate Hed.
Qed.

(** C1, on a list with an untagged record. *)
Lemma validation_error_iff_witness :
  ∃ e, (combine [first_record; untagged_record] None).2 = inl e ∧ is_validation_error e.
Proof.
  apply (proj1 (validation_error_iff group_map SONAR_MODELS version now
                  [first_record; untagged_record] None)).
  left. exists untagged_record. split; [|reflexivity].
  apply elem_of_cons. right. apply elem_of_cons. by left.
Defined.

(** C2, the claim as stated: with a reversal repaired in "environment",
    the later group "vendor" carries a [ping_time] of its own, which is
    not the corrected coordinate kept by the call. *)
Lemma later_group_keeps_own_ping_time :
  ¬ ∀ group ds da,
      group ∈ ["platform"; "provenance"; "sonar"; "beam"; "vendor"] →
      getattr (returned (combine [first_record; second_record] None)) group = Some ds →
      ds_vars ds !! "ping_time" = Some da →
      new_ping_time (combine [first_record; second_record] None).1 = Some da.
Proof.
  intros H.
  specialize (H "vendor"
                (group_of (combine [first_record; second_record] None) "vendor")
                (variable_of (group_of (combine [first_record; second_record] None) "vendor")
                   "ping_time")).
  assert (new_ping_time (combine [first_record; second_record] None).1 =
          Some (mkDataArray (Some "ping_time") (CTime <$> [2; 3; 7; 8; 12]))) as Hnew
    by (vm_compute; reflexivity).
  rewrite Hnew in H.
  assert (variable_of (group_of (combine [first_record; second_record] None) "vendor")
            "ping_time" = mkDataArray (Some "ping_time") (CTime <$> [10; 20])) as Hown
    by (vm_compute; reflexivity).
  rewrite Hown in H.
  discriminate H.
  - compute_done.
  - vm_compute. reflexivity.
  - vm_compute. reflexivity.
Qed.

(** C2, on a record with a reversal in "environment" and in "vendor":
    the [ping_time] of "vendor" is overwritten with the coordinate
    corrected at an earlier group. *)
Lemma later_reversal_reuses_correction_witness :
  ∃ first cg1 da ts cg,
    first ∈ ["top"; "environment"; "platform"; "provenance"; "sonar"; "beam"] ∧
    concatenated SONAR_MODELS [twice_reversed_record]
      (checked_model [twice_reversed_record]) "override" first = inr cg1 ∧
    ds_vars cg1 !! "ping_time" = Some da ∧
    times_of (da_values da) = Some ts ∧
    new_ping_time (combine [twice_reversed_record] None).1 = Some (corrected da ts) ∧
    concatenated SONAR_MODELS [twice_reversed_record]
      (checked_model [twice_reversed_record]) "override" "vendor" = inr cg ∧
    if reversal_detected cg
    then ∃ cg', ds_setitem cg "ping_time" (corrected da ts) = inr cg' ∧
                ds_vars cg' !! "ping_time" = Some (corrected da ts) ∧
                getattr (returned (combine [twice_reversed_record] None)) "vendor" =
                  Some (drop_dims cg' "concat_dim")
    else getattr (returned (combine [twice_reversed_record] None)) "vendor" =
           Some (drop_dims cg "concat_dim").
Proof.
  apply (later_reversal_reuses_correction group_map SONAR_MODELS version now
           [twice_reversed_record] None
           (combine [twice_reversed_record] None).1
           (returned (combine [twice_reversed_record] None))
           ["top"; "environment"; "platform"; "provenance"; "sonar"; "beam"] "vendor" []).
  - apply combine_sample_returns. vm_compute. reflexivity.
  - apply group_map_NoDup.
  - reflexivity.
  - vm_compute. reflexivity.
  - unfold special_group. compute_done.
  - intros H. vm_compute in H. discriminate H.
Defined.

(** The copied groups are not repaired either: a [ping_time] with a
    reversal in the top-level group of the first record is copied to the
    record returned as it is. *)
Lemma copied_top_keeps_reversed_ping_time :
  ∃ r ds da,
    (combine [timed_top_record] None).2 = inr r ∧
    getattr r "top" = Some ds ∧
    ds_vars ds !! "ping_time" = Some da ∧
    ¬ increasing_time da.
Proof.
  exists (returned (combine [timed_top_record] None)),
         (group_of (combine [timed_top_record] None) "top"),
         (mkDataArray (Some "ping_time") (CTime <$> [2; 1])).
  split; [vm_compute; reflexivity|]. split; [vm_compute; reflexivity|].
  split; [vm_compute; reflexivity|].
  intros (ts & Hts & Hinc). vm_compute in Hts. injection Hts as <-.
  simpl in Hinc. lia.
Qed.

(** C3, on a record with a reversal at index 200 of the [ping_time] of
    its "environment" group: the provenance group of the record returned
    has a [ping_time] coordinate, which is the old axis and is not
    strictly increasing. *)
Lemma reversal_leaves_old_axis_in_provenance_witness :
  ∃ prov da,
    getattr (returned (combine [reversed_environment_record] None)) "provenance" = Some prov ∧
    ds_vars prov !! "ping_time" = Some da ∧
    da_values da = CTime <$> reversed_axis ∧
    ¬ increasing_time da.
Proof.
  destruct (reversal_leaves_old_axis_in_provenance group_map SONAR_MODELS version now
              [reversed_environment_record] None (combine [reversed_environment_record] None).1
              (returned (combine [reversed_environment_record] None)))
    as (prov & da & Hprov & Hold & Hrev & _ & Hping).
  - apply combine_sample_returns. vm_compute. reflexivity.
  - apply group_map_NoDup.
  - compute_done.
  - vm_compute. reflexivity.
  - assert (old_ping_time (combine [reversed_environment_record] None).1 =
            Some (mkDataArray (Some "ping_time") (CTime <$> reversed_axis))) as Hda
      by (vm_compute; reflexivity).
    rewrite Hda in Hold. injection Hold as <-.
    exists prov, (mkDataArray (Some "ping_time") (CTime <$> reversed_axis)).
    split; [exact Hprov|]. split; [by apply Hping|]. split; [reflexivity | exact Hrev].
Defined.

(** C4, on two records with a reversal in "environment": one warning. *)
Lemma warning_emitted_once_witness :
  warnings (combine [first_record; second_record] None).1 = [reversal_warning].
Proof.
  apply (proj1 (proj2 (warning_emitted_once group_map SONAR_MODELS version now
                         [first_record; second_record] None))
           (returned (combine [first_record; second_record] None))).
  vm_compute. reflexivity.
Defined.

(** C5, on two records that both define the key "a". *)
Lemma overwrite_conflicts_last_wins_witness :
  ∃ m cat ds,
    checked_model [first_record; second_record] = Some m ∧
    xr_combine_nested (present_datasets [first_record; second_record] "environment")
      (concat_dim_of (SONAR_MODELS m) "environment")
      (data_vars_of (SONAR_MODELS m) "environment") "drop" = inr cat ∧
    ds_attrs cat = ∅ ∧
    getattr (returned (combine [first_record; second_record] (Some "overwrite_conflicts")))
      "environment" = Some ds ∧
    ds_attrs ds =
      dict_update (ds_attrs cat)
        (union_attrs (present_datasets [first_record; second_record] "environment")) ∧
    ∀ key, ds_attrs ds !! key =
           last_defined key (present_datasets [first_record; second_record] "environment").
Proof.
  apply (proj2 (overwrite_conflicts_last_wins group_map SONAR_MODELS version now
                  [first_record; second_record])
           (combine [first_record; second_record] (Some "overwrite_conflicts")).1).
  - apply combine_sample_returns. vm_compute. reflexivity.
  - apply group_map_NoDup.
  - compute_done.
  - unfold special_group. compute_done.
  - intros H. vm_compute in H. discriminate H.
Defined.

(** C6, the claim as stated: the "vendor" group of two records, 250
    values along [ping_time] in each, does not come out with 500.  A
    reversal was repaired in "environment" before, one is detected in
    "vendor" too, and the [ping_time] of "vendor" is replaced by the
    coordinate kept by the call, which has the 600 values of
    "environment". *)
Lemma concatenated_size_is_not_the_sum :
  let echodatas := [reversed_record; reversed_record] in
  Forall (λ ds, ds_dims ds !! "ping_time" = Some 250%nat)
         (present_datasets echodatas "vendor") ∧
  ¬ ∀ ds, getattr (returned (combine echodatas None)) "vendor" = Some ds →
          ds_dims ds !! "ping_time" = Some (250 + 250)%nat.
Proof.
  split; [vm_compute; repeat constructor|].
  intros H.
  specialize (H (group_of (combine [reversed_record; reversed_record] None) "vendor")
                ltac:(vm_compute; reflexivity)).
  vm_compute in H. discriminate H.
Qed.

(** C6, on two records with a platform group, which is configured to
    be concatenated along [location_time]: the sentence types of the
    first record are followed by those of the second, and the dimension
    has the size 2 + 3. *)
Lemma group_concatenates_present_records_witness :
  ∃ ds,
    getattr (returned (combine [first_located_record; second_located_record] None))
      "platform" = Some ds ∧
    ds_vars ds !! "sentence_type" =
      Some (strings "location_time" ["GGA"; "GLL"; "GGA"; "VTG"; "GGA"]) ∧
    ds_dims ds !! "location_time" = Some 5%nat.
Proof.
  destruct (group_concatenates_present_records group_map SONAR_MODELS version now
              [first_located_record; second_located_record] None
              (combine [first_located_record; second_located_record] None).1
              (returned (combine [first_located_record; second_located_record] None))
              "platform") as [_ Hpresent].
  - apply combine_sample_returns. vm_compute. reflexivity.
  - apply group_map_NoDup.
  - compute_done.
  - unfold special_group. compute_done.
  - destruct Hpresent as (m & ds & Hm & Hget & _ & Hheld).
    { intros H. vm_compute in H. discriminate H. }
    vm_compute in Hm. injection Hm as <-.
    exists ds. split; [exact Hget|].
    apply (Hheld "sentence_type"
             [strings "location_time" ["GGA"; "GLL"];
              strings "location_time" ["GGA"; "VTG"; "GGA"]]).
    + intros H. discriminate H.
    + intros H. discriminate H.
    + intros H. discriminate H.
    + vm_compute. repeat constructor.
Defined.

(** The group that only the first of two records has is built from the
    dataset of that record alone. *)
Example group_of_one_record_alone :
  present_datasets [first_located_record; second_located_record] "vendor" =
    [timed [10; 20] ∅] ∧
  getattr (returned (combine [first_located_record; second_located_record] None)) "vendor" =
    Some (timed [10; 20] ∅).
Proof. split; vm_compute; reflexivity. Qed.

(** C8, the claim as stated: an unknown policy with the empty list is
    not rejected. *)
Lemma unknown_policy_accepted_on_empty_list :
  ¬ ∀ echodatas combine_attrs,
      ¬ known_policy combine_attrs →
      ∃ e, (combine echodatas (Some combine_attrs)).2 = inl e.
Proof.
  intros H. destruct (H [] "bogus") as [e He].
  - unfold known_policy. compute_done.
  - discriminate He.
Qed.

(** C8, on two records with an "environment" group. *)
Lemma unknown_policy_rejected_at_concatenation_witness :
  ∃ msg, (combine [first_record; second_record] (Some "bogus")).2 = inl (ValueError msg).
Proof.
  apply (proj1 (unknown_policy_rejected_at_concatenation group_map SONAR_MODELS version now
                  [first_record; second_record] "bogus"
                  ltac:(unfold known_policy; compute_done))).
  exists "environment". split; [compute_done|].
  split; [unfold special_group; compute_done|].
  intros H. vm_compute in H. discriminate H.
Defined.

(** C9, the claim as stated: the record returned for the empty list has
    no provenance group. *)
Lemma empty_list_has_no_provenance :
  ¬ ∀ echodatas,
      ∃ prov,
        getattr (returned (combine echodatas None)) "provenance" = Some prov ∧
        ds_dims prov !! "file" = Some (length echodatas).
Proof.
  intros H. destruct (H []) as (prov & Hprov & _). discriminate Hprov.
Qed.

(** C9, on two records, the second without a source file path. *)
Lemma provenance_src_filenames_in_order_witness :
  ∃ prov,
    getattr (returned (combine [first_record; second_record] None)) "provenance" = Some prov ∧
    ds_dims prov !! "file" = Some (length [first_record; second_record]) ∧
    ds_vars prov !! "src_filenames" =
      Some (mkDataArray (Some "file")
              (CStr <$> (origin <$> [first_record; second_record]))).
Proof.
  apply (provenance_src_filenames_in_order group_map SONAR_MODELS version now
           [first_record; second_record] None
           (combine [first_record; second_record] None).1).
  - apply combine_sample_returns. vm_compute. reflexivity.
  - discriminate.
  - compute_done.
Defined.

(** C10, on two records with different attrs in "environment". *)
Lemma default_policy_is_override_witness :
  ∃ ds,
    getattr (returned (combine [first_record; second_record] None)) "environment" = Some ds ∧
    ds_attrs ds = ds_attrs (timed [2; 1] {[ "a" := AInt 1 ]}).
Proof.
  apply (proj2 (default_policy_is_override group_map SONAR_MODELS version now
                  [first_record; second_record])
           (combine [first_record; second_record] None).1
           (returned (combine [first_record; second_record] None))
           "environment" (timed [2; 1] {[ "a" := AInt 1 ]})
           [timed [5; 4; 8] {[ "a" := AInt 2 ]}]).
  - apply combine_sample_returns. vm_compute. reflexivity.
  - apply group_map_NoDup.
  - compute_done.
  - unfold special_group. compute_done.
  - vm_compute. reflexivity.
Defined.

(** The attrs example of the spec, on the two sample records: with
    "no_conflicts" the call raises a conflict, with "overwrite_conflicts"
    the later value wins, with "override" the first one stays. *)
Example attrs_policies_on_sample :
  (∃ msg, (combine [first_record; second_record] (Some "no_conflicts")).2 =
          inl (MergeError msg)) ∧
  ds_attrs (group_of (combine [first_record; second_record] (Some "overwrite_conflicts"))
              "environment") !! "a" = Some (AInt 2) ∧
  ds_attrs (group_of (combine [first_record; second_record] (Some "override"))
              "environment") !! "a" = Some (AInt 1) ∧
  ds_attrs (group_of (combine [first_record; second_record] (Some "drop"))
              "environment") = ∅.
Proof.
  split; [eexists; vm_compute; reflexivity|].
  repeat split; vm_compute; reflexivity.
Qed.

(** A group present in both records has the sum of the sizes along
    [ping_time]; its repaired coordinate has as many values. *)
Example environment_size_is_sum :
  ds_dims (group_of (combine [first_record; second_record] None) "environment")
    !! "ping_time" = Some 5%nat ∧
  variable_of (group_of (combine [first_record; second_record] None) "environment")
    "ping_time" = mkDataArray (Some "ping_time") (CTime <$> [2; 3; 7; 8; 12]).
Proof. split; vm_compute; reflexivity. Qed.

(** ** The further properties on the sample records *)

(** X3, on an untagged record after a tagged one. *)
Lemma untagged_record_raises_none_error_witness :
  combine ([first_record] ++ untagged_record :: [second_record]) (Some "drop") =
  (initial_frame, inl (ValueError none_model_message)).
Proof.
  apply (untagged_record_raises_none_error group_map SONAR_MODELS version now
           [first_record] untagged_record [second_record] "EK60" (Some "drop")).
  - repeat constructor.
  - reflexivity.
Defined.

(** X4, on an EK80 record after two EK60 records. *)
Lemma differing_record_raises_same_value_error_witness :
  combine ((first_record :: [second_record]) ++ other_model_record :: [untagged_record]) None =
  (initial_frame, inl (ValueError different_model_message)).
Proof.
  apply (differing_record_raises_same_value_error group_map SONAR_MODELS version now
           first_record [second_record] other_model_record [untagged_record]
           "EK60" "EK80" None).
  - repeat constructor.
  - reflexivity.
  - intros H. discriminate H.
Defined.

(** X5, on two records whose "environment" attrs clash. *)
Lemma attribute_conflict_only_when_comparing_witness :
  default "override" (Some "no_conflicts") = "identical" ∨
  default "override" (Some "no_conflicts") = "no_conflicts".
Proof.
  apply (attribute_conflict_only_when_comparing group_map SONAR_MODELS version now
           [first_record; second_record] (Some "no_conflicts")
           "combine_attrs='no_conflicts', but some values are not the same").
  vm_compute. reflexivity.
Defined.

(** X6, on a first record with a top-level group. *)
Lemma copied_groups_from_first_record_witness :
  getattr (returned (combine [timed_top_record; first_record] None)) "top" =
  (λ cg, drop_dims cg "concat_dim") <$> getattr timed_top_record "top".
Proof.
  apply (copied_groups_from_first_record group_map SONAR_MODELS version now
           timed_top_record [first_record] None
           (combine [timed_top_record; first_record] None).1).
  - apply combine_sample_returns. vm_compute. reflexivity.
  - apply group_map_NoDup.
  - compute_done.
  - unfold copied_group. compute_done.
Defined.

(** X7, on a name that is not a group. *)
Lemma group_outside_map_absent_witness :
  getattr (returned (combine [first_record; second_record] None)) "calibration" = None.
Proof.
  apply (group_outside_map_absent group_map SONAR_MODELS version now
           [first_record; second_record] None
           (combine [first_record; second_record] None).1).
  - apply combine_sample_returns. vm_compute. reflexivity.
  - compute_done.
Defined.

(** X8, on the "environment" group of two records. *)
Lemma synthetic_dimension_dropped_witness :
  no_concat_dim (group_of (combine [first_record; second_record] None) "environment").
Proof.
  apply (synthetic_dimension_dropped group_map SONAR_MODELS version now
           [first_record; second_record] None
           (combine [first_record; second_record] None).1
           (returned (combine [first_record; second_record] None)) "environment").
  - apply combine_sample_returns. vm_compute. reflexivity.
  - intros H. discriminate H.
  - vm_compute. reflexivity.
Defined.

(** X9, on two records. *)
Lemma provenance_attrs_are_fresh_witness :
  ∃ prov,
    getattr (returned (combine [first_record; second_record] None)) "provenance" = Some prov ∧
    ds_attrs prov =
      <["conversion_software_name" := AStr "echopype"]>
        (<["conversion_software_version" := AStr version]>
           {[ "conversion_time" := AStr (now +:+ "Z") ]}).
Proof.
  apply (provenance_attrs_are_fresh group_map SONAR_MODELS version now
           [first_record; second_record] None
           (combine [first_record; second_record] None).1).
  - apply combine_sample_returns. vm_compute. reflexivity.
  - intros H. discriminate H.
  - compute_done.
Defined.

(** X10, on a record with a reversal in "environment" and in "vendor";
    "environment" comes first in the loop. *)
Lemma old_ping_time_kept_in_provenance_witness :
  let echodatas := [reversed_record] in
  let reversed :=
    reversed_group SONAR_MODELS echodatas (checked_model echodatas) (default "override" None) in
  ∃ prov,
    getattr (returned (combine echodatas None)) "provenance" = Some prov ∧
    if existsb reversed group_map
    then ∃ earlier first later cg da,
           group_map = (earlier ++ first :: later)%list ∧
           existsb reversed earlier = false ∧
           reversed first = true ∧
           concatenated SONAR_MODELS echodatas (checked_model echodatas)
             (default "override" None) first = inr cg ∧
           ds_vars cg !! "ping_time" = Some da ∧
           ds_vars prov !! "old_ping_time" = Some da
    else ds_vars prov !! "old_ping_time" = None.
Proof.
  apply (old_ping_time_kept_in_provenance group_map SONAR_MODELS version now
           [reversed_record] None (combine [reversed_record] None).1).
  - apply combine_sample_returns. vm_compute. reflexivity.
  - intros H. discriminate H.
  - apply group_map_NoDup.
  - compute_done.
Defined.

(** X11, on the "environment" group, which two records contribute to. *)
Lemma attrs_snapshots_in_provenance_witness :
  let echodatas := [first_record; second_record] in
  ∃ prov,
    getattr (returned (combine echodatas None)) "provenance" = Some prov ∧
    (snapshot_taken group_map echodatas "environment" →
     ∃ da, ds_vars prov !! ("environment" +:+ "_attrs") = Some da ∧
           da_values da =
             CAttrs <$> (ds_attrs <$> present_datasets echodatas "environment")) ∧
    (¬ snapshot_taken group_map echodatas "environment" →
     ds_vars prov !! ("environment" +:+ "_attrs") = None).
Proof.
  apply (attrs_snapshots_in_provenance group_map SONAR_MODELS version now
           [first_record; second_record] None
           (combine [first_record; second_record] None).1).
  - apply combine_sample_returns. vm_compute. reflexivity.
  - intros H. discriminate H.
  - apply group_map_NoDup.
  - compute_done.
Defined.

(** X12, on two records with different "environment" attrs. *)
Lemma drop_policy_empties_attrs_witness :
  ∃ ds,
    getattr (returned (combine [first_record; second_record] (Some "drop"))) "environment" =
      Some ds ∧
    ds_attrs ds = ∅.
Proof.
  apply (drop_policy_empties_attrs group_map SONAR_MODELS version now
           [first_record; second_record]
           (combine [first_record; second_record] (Some "drop")).1).
  - apply combine_sample_returns. vm_compute. reflexivity.
  - apply group_map_NoDup.
  - compute_done.
  - unfold special_group. compute_done.
  - intros H. vm_compute in H. discriminate H.
Defined.

(** X13, on a record given twice. *)
Lemma identical_policy_attrs_agree_witness :
  let echodatas := [first_record; first_record] in
  ∃ ds,
    getattr (returned (combine echodatas (Some "identical"))) "environment" = Some ds ∧
    ∀ d, d ∈ present_datasets echodatas "environment" → ds_attrs d = ds_attrs ds.
Proof.
  apply (identical_policy_attrs_agree group_map SONAR_MODELS version now
           [first_record; first_record]
           (combine [first_record; first_record] (Some "identical")).1).
  - apply combine_sample_returns. vm_compute. reflexivity.
  - apply group_map_NoDup.
  - compute_done.
  - unfold special_group. compute_done.
  - intros H. vm_compute in H. discriminate H.
Defined.

(** X14, on two records whose "environment" attrs define different keys. *)
Lemma no_conflicts_policy_keeps_all_attrs_witness :
  let echodatas := [first_record; compatible_record] in
  ∃ ds,
    getattr (returned (combine echodatas (Some "no_conflicts"))) "environment" = Some ds ∧
    (∀ d key v, d ∈ present_datasets echodatas "environment" →
                ds_attrs d !! key = Some v → ds_attrs ds !! key = Some v) ∧
    (∀ key v, ds_attrs ds !! key = Some v →
              ∃ d, d ∈ present_datasets echodatas "environment" ∧
                   ds_attrs d !! key = Some v).
Proof.
  apply (no_conflicts_policy_keeps_all_attrs group_map SONAR_MODELS version now
           [first_record; compatible_record]
           (combine [first_record; compatible_record] (Some "no_conflicts")).1).
  - apply combine_sample_returns. vm_compute. reflexivity.
  - apply group_map_NoDup.
  - compute_done.
  - unfold special_group. compute_done.
  - intros H. vm_compute in H. discriminate H.
Defined.

(** X15, on an EK60 record whose beam strings are longer than the
    widths. *)
Lemma beam_strings_fixed_width_witness :
  let echodatas := [beam_record] in
  ∃ cat v c ds,
    xr_combine_nested (present_datasets echodatas "beam")
      (concat_dim_of (SONAR_MODELS "EK60") "beam") (data_vars_of (SONAR_MODELS "EK60") "beam")
      (policy_passed (default "override" None)) = inr cat ∧
    ds_vars cat !! "gpt_software_version" = Some v ∧
    ds_vars cat !! "channel_id" = Some c ∧
    getattr (returned (combine echodatas None)) "beam" = Some ds ∧
    (da_dim v ≠ Some "concat_dim" →
     ds_vars ds !! "gpt_software_version" = Some (astype_U 10 v)) ∧
    (da_dim c ≠ Some "concat_dim" → ds_vars ds !! "channel_id" = Some (astype_U 50 c)) ∧
    (∀ s, CStr (Some s) ∈ da_values (astype_U 10 v) → (String.length s ≤ 10)%nat) ∧
    (∀ s, CStr (Some s) ∈ da_values (astype_U 50 c) → (String.length s ≤ 50)%nat).
Proof.
  apply (beam_strings_fixed_width group_map SONAR_MODELS version now
           [beam_record] None (combine [beam_record] None).1
           (returned (combine [beam_record] None)) "EK60" "gpt_software_version").
  - apply combine_sample_returns. vm_compute. reflexivity.
  - apply group_map_NoDup.
  - compute_done.
  - intros H. vm_compute in H. discriminate H.
  - reflexivity.
  - compute_done.
Defined.

(** X16, on the "environment" group of two EK60 records. *)
Lemma no_normalization_elsewhere_witness :
  let echodatas := [first_record; second_record] in
  ∃ cat ds,
    xr_combine_nested (present_datasets echodatas "environment")
      (concat_dim_of (SONAR_MODELS "EK60") "environment")
      (data_vars_of (SONAR_MODELS "EK60") "environment")
      (policy_passed (default "override" None)) = inr cat ∧
    getattr (returned (combine echodatas None)) "environment" = Some ds ∧
    ∀ name, name ≠ "ping_time" →
            ds_vars ds !! name = ds_vars (drop_dims cat "concat_dim") !! name.
Proof.
  apply (no_normalization_elsewhere group_map SONAR_MODELS version now
           [first_record; second_record] None
           (combine [first_record; second_record] None).1
           (returned (combine [first_record; second_record] None)) "environment" "EK60").
  - apply combine_sample_returns. vm_compute. reflexivity.
  - apply group_map_NoDup.
  - compute_done.
  - unfold special_group. compute_done.
  - intros H. vm_compute in H. discriminate H.
  - reflexivity.
  - left. intros H. discriminate H.
Defined.

(** X17, on the coordinate that comes with the old [ping_time]. *)
Lemma provenance_variables_complete_witness :
  let prov := group_of (combine [reversed_record] None) "provenance" in
  "ping_time" = "src_filenames" ∨ "ping_time" = "old_ping_time" ∨
  ("ping_time" = "ping_time" ∧
   ∃ da, ds_vars prov !! "old_ping_time" = Some da ∧ ds_vars prov !! "ping_time" = Some da ∧
         da_dim da = Some "ping_time") ∨
  ∃ group, snapshot_taken group_map [reversed_record] group ∧
           "ping_time" = group +:+ "_attrs".
Proof.
  apply (provenance_variables_complete group_map SONAR_MODELS version now
           [reversed_record] None (combine [reversed_record] None).1
           (returned (combine [reversed_record] None))
           (group_of (combine [reversed_record] None) "provenance")).
  - apply combine_sample_returns. vm_compute. reflexivity.
  - apply group_map_NoDup.
  - compute_done.
  - vm_compute. reflexivity.
  - vm_compute. eexists. reflexivity.
Defined.

(** X18, on a record with a reversal in "environment", the first group
    of the loop that has one. *)
Lemma first_reversal_repaired_in_place_witness :
  let echodatas := [twice_reversed_record] in
  let out := combine echodatas None in
  ∃ cg da ts,
    concatenated SONAR_MODELS echodatas (checked_model echodatas)
      (default "override" None) "environment" = inr cg ∧
    ds_vars cg !! "ping_time" = Some da ∧
    times_of (da_values da) = Some ts ∧
    getattr (returned out) "environment" =
      Some (drop_dims (with_ping_time cg (corrected da ts)) "concat_dim") ∧
    da_dim (corrected da ts) = da_dim da ∧
    length (da_values (corrected da ts)) = length (da_values da) ∧
    old_ping_time out.1 = Some da ∧
    new_ping_time out.1 = Some (corrected da ts).
Proof.
  apply (first_reversal_repaired_in_place group_map SONAR_MODELS version now
           [twice_reversed_record] None (combine [twice_reversed_record] None).1
           (returned (combine [twice_reversed_record] None))
           ["top"] "environment" ["platform"; "provenance"; "sonar"; "beam"; "vendor"]).
  - apply combine_sample_returns. vm_compute. reflexivity.
  - apply group_map_NoDup.
  - reflexivity.
  - vm_compute. reflexivity.
  - vm_compute. reflexivity.
Defined.

(** X19, on the loop up to the provenance group, with a reversal
    repaired in "environment". *)
Lemma loop_keeps_assignments_defined_witness :
  let echodatas := [first_record; second_record] in
  let processed := ["top"; "environment"; "platform"; "provenance"] in
  let fr :=
    (for_each processed
       (combine_group SONAR_MODELS version now echodatas (checked_model echodatas) "override")
       initial_frame).1 in
  (is_Some (old_ping_time fr) → is_Some (new_ping_time fr)) ∧
  ("provenance" ∈ processed → is_Some (getattr (result fr) "provenance")).
Proof.
  apply (loop_keeps_assignments_defined group_map SONAR_MODELS version now
           [first_record; second_record] None
           ["top"; "environment"; "platform"; "provenance"] ["sonar"; "beam"; "vendor"]).
  - reflexivity.
  - vm_compute. reflexivity.
Defined.

(** X20, on two records with a reversal in "environment". *)
Lemma concatenated_groups_time_increasing_witness :
  increasing_time
    (variable_of (group_of (combine [first_record; second_record] None) "environment")
       "ping_time").
Proof.
  apply (concatenated_groups_time_increasing group_map SONAR_MODELS version now
           [first_record; second_record] None
           (combine [first_record; second_record] None).1
           (returned (combine [first_record; second_record] None))
           ltac:(apply combine_sample_returns; vm_compute; reflexivity)
           "environment"
           (group_of (combine [first_record; second_record] None) "environment")).
  - unfold special_group. compute_done.
  - vm_compute. reflexivity.
  - vm_compute. reflexivity.
Defined.

End Examples.
